(** * The preview tooling of the-kunai: combination enumerator and JSX serializer

    Shallow embedding of
    - [getAllCombinations], [formatJSX] and the paging and the merged
      props of [ComponentCombinationBrowser] (utils/preview), and
    - [initialState], [handleChange] and [generateJSXCode] of
      [ComponentPlayground] (utils/playground.tsx),
    together with the part of the JavaScript run-time they rely on
    (property order, property assignment, object spread, [typeof],
    truthiness, template literals, [Array.prototype.join] and
    [JSON.stringify]), and a reader of attribute lists for the round trip the
    specification speaks of. *)

From Equations Require Import Equations.
From Equations.Prop Require Import Logic.
From Stdlib Require Import ZArith NArith String Ascii List Sorted Bool Arith Lia.
Import ListNotations.

Set Warnings "-register-all".

Local Open Scope list_scope.
Local Open Scope string_scope.

(** ** JavaScript values *)

Module JS.

(** A JavaScript number.  A finite number is held as the text that
    [Number.prototype.toString] gives for it, which tells the finite numbers
    apart: [Finite "3000"], [Finite "-0.5"], [Finite "1e+21"]; negative zero
    prints as ["0"] too.  The non-finite ones are there because
    [JSON.stringify] treats them apart. *)
Inductive number : Type :=
| Finite (text : string)
| NaN
| Infinity (negative : bool).

(** A JavaScript value.  An object is the list of its own enumerable
    string-keyed properties in the order [Object.keys] lists them: the
    array indices in ascending order, then the other names in the order in
    which they were added ([wf_object]).  Objects are plain data: their
    properties are data properties, and a function is a value that is never
    called here (so an object with a [toJSON] method, which
    [JSON.stringify] would call, is written as any other object: see
    [stringify]).  An object or array that can be reached from itself is a
    [VCyclic], with its own properties apart from the references that lead
    back to it. *)
Inductive value : Type :=
| VUndefined
| VNull
| VBool (b : bool)
| VNumber (n : number)
| VString (s : string)
| VSymbol
| VBigInt (z : Z)
| VFunction
| VArray (elems : list value)
| VObject (props : list (string * value))
| VCyclic (props : list (string * value)).

(** [typeof v] *)
Inductive type_tag : Type :=
| TUndefined | TObject | TBoolean | TNumber | TString | TSymbol | TBigInt | TFunction.

Definition typeof (v : value) : type_tag :=
  match v with
  | VUndefined => TUndefined
  | VNull => TObject
  | VBool _ => TBoolean
  | VNumber _ => TNumber
  | VString _ => TString
  | VSymbol => TSymbol
  | VBigInt _ => TBigInt
  | VFunction => TFunction
  | VArray _ => TObject
  | VObject _ => TObject
  | VCyclic _ => TObject
  end.

(** [ToBoolean v]: the truthiness used by [&&], [?:] and [filter(Boolean)]. *)
Definition truthy (v : value) : bool :=
  match v with
  | VUndefined | VNull => false
  | VBool b => b
  | VNumber (Finite text) => negb (text =? "0")
  | VNumber NaN => false
  | VNumber (Infinity _) => true
  | VString s => negb (s =? "")
  | VBigInt z => negb (z =? 0)%Z
  | VSymbol | VFunction | VArray _ | VObject _ | VCyclic _ => true
  end.

(** *** Property names *)

Definition is_digit (c : ascii) : bool :=
  let n := nat_of_ascii c in
  (48 <=? n)%nat && (n <=? 57)%nat.

(** The number a string of decimal digits stands for, on top of [acc]. *)
Fixpoint digits_value (s : string) (acc : N) : option N :=
  match s with
  | EmptyString => Some acc
  | String c rest =>
      if is_digit c then digits_value rest (acc * 10 + N.of_nat (nat_of_ascii c - 48))
      else None
  end.

(** The array index a property name is, when it is one: a canonical
    numeric string (["0"], or digits without a leading zero) for an integer
    up to 2^32 - 2. *)
Definition array_index (k : string) : option N :=
  match k with
  | EmptyString => None
  | String c rest =>
      if (nat_of_ascii c =? 48)%nat then
        match rest with
        | EmptyString => Some 0%N
        | String _ _ => None
        end
      else
        match digits_value k 0 with
        | Some n => if (n <=? 4294967294)%N then Some n else None
        | None => None
        end
  end.

(** *** Objects as ordered property lists *)

Section Properties.
Context {V : Type}.

(** [o[k]] when [k] is an own property, [None] when it is not. *)
Fixpoint lookup (k : string) (o : list (string * V)) : option V :=
  match o with
  | [] => None
  | (k', v) :: rest => if k' =? k then Some v else lookup k rest
  end.

(** An existing property takes the new value where it stands. *)
Fixpoint replace (o : list (string * V)) (k : string) (v : V) : list (string * V) :=
  match o with
  | [] => []
  | (k', v') :: rest =>
      if k' =? k then (k', v) :: rest else (k', v') :: replace rest k v
  end.

(** A new property whose name is the array index [n] goes after the
    indices up to [n] (no other name is the index [n] itself) and before
    everything else. *)
Fixpoint insert_index (n : N) (k : string) (v : V) (o : list (string * V))
  : list (string * V) :=
  match o with
  | [] => [(k, v)]
  | (k', v') :: rest =>
      match array_index k' with
      | Some m => if (m <=? n)%N then (k', v') :: insert_index n k v rest
                  else (k, v) :: o
      | None => (k, v) :: o
      end
  end.

(** [o[k] = v] on a data property, and [[k]: v] in an object literal: an
    existing property keeps its place; a new one is listed by
    [Object.keys] among the array indices, in ascending order, when its
    name is one, and last when it is not. *)
Definition set (o : list (string * V)) (k : string) (v : V) : list (string * V) :=
  match lookup k o with
  | Some _ => replace o k v
  | None =>
      match array_index k with
      | Some n => insert_index n k v o
      | None => (o ++ [(k, v)])%list
      end
  end.

(** [Object.keys(o)] *)
Definition keys (o : list (string * V)) : list string := map fst o.

(** [{ ...a, ...b }]: the properties of [a], then those of [b] assigned
    over them in order. *)
Definition spread (a b : list (string * V)) : list (string * V) :=
  fold_left (fun acc kv => set acc (fst kv) (snd kv)) b a.

(** An object literal [{ k1: v1, ..., kn: vn }] (no [__proto__: v] among
    its members): the properties are defined one after the other on a
    fresh object. *)
Definition object_literal (members : list (string * V)) : list (string * V) :=
  spread [] members.
End Properties.

(** Whether [Object.keys] may list [k] before [k']: an array index comes
    before a greater one and before every other name; among the other
    names the order is that of their creation. *)
Definition key_before (k k' : string) : bool :=
  match array_index k, array_index k' with
  | Some n, Some m => (n <=? m)%N
  | Some _, None => true
  | None, Some _ => false
  | None, None => true
  end.

(** The order of [Object.keys]: array indices first, in ascending order,
    then the other names. *)
Fixpoint own_property_order (names : list string) : bool :=
  match names with
  | [] => true
  | k :: rest => forallb (key_before k) rest && own_property_order rest
  end.

(** No name twice. *)
Fixpoint distinct (names : list string) : bool :=
  match names with
  | [] => true
  | k :: rest => negb (existsb (String.eqb k) rest) && distinct rest
  end.

(** The property lists that are objects: no name twice, and the names in
    the order of [Object.keys]. *)
Definition wf_object {V : Type} (o : list (string * V)) : Prop :=
  NoDup (keys o) /\ own_property_order (keys o) = true.

(** The same as a test. *)
Definition is_object {V : Type} (o : list (string * V)) : bool :=
  distinct (keys o) && own_property_order (keys o).

(** A props object. *)
Definition object : Type := list (string * value).

(** [v?.[k]] on an arbitrary value: [undefined] on [null] and [undefined],
    and on values that carry no such property. *)
Definition optional_get (v : value) (k : string) : value :=
  match v with
  | VObject props | VCyclic props =>
      match lookup k props with
      | Some x => x
      | None => VUndefined
      end
  | _ => VUndefined
  end.

(** *** Abrupt completion *)

Inductive error : Type :=
| TypeError.

(** The outcome of evaluating an expression: a value, or a thrown error. *)
Inductive completion (A : Type) : Type :=
| Return (a : A)
| Throw (e : error).
Arguments Return {A} a.
Arguments Throw {A} e.

Definition bind {A B : Type} (c : completion A) (k : A -> completion B) : completion B :=
  match c with
  | Return a => k a
  | Throw e => Throw e
  end.

Notation "x <- c ;; k" := (bind c (fun x => k))
  (at level 61, c at next level, right associativity).

(** [array.map(f)] for a callback that may throw: left to right, and the
    first throw ends it. *)
Fixpoint map_completion {A B : Type} (f : A -> completion B) (l : list A)
  : completion (list B) :=
  match l with
  | [] => Return []
  | x :: rest =>
      y <- f x ;;
      ys <- map_completion f rest ;;
      Return (y :: ys)
  end.

(** *** Text *)

Definition dquote : string := String "034"%char "".
Definition newline : string := String "010"%char "".

Definition hex_digit (n : nat) : string :=
  String.substring n 1 "0123456789abcdef".

(** One code unit inside [QuoteJSONString]. *)
Definition quote_json_char (c : ascii) : string :=
  let code := nat_of_ascii c in
  if (code =? 8)%nat then "\b"
  else if (code =? 9)%nat then "\t"
  else if (code =? 10)%nat then "\n"
  else if (code =? 12)%nat then "\f"
  else if (code =? 13)%nat then "\r"
  else if (code =? 34)%nat then "\" ++ dquote
  else if (code =? 92)%nat then "\\"
  else if (code <? 32)%nat then "\u00" ++ hex_digit (code / 16) ++ hex_digit (code mod 16)
  else String c "".

Fixpoint quote_json_chars (s : string) : string :=
  match s with
  | EmptyString => ""
  | String c rest => quote_json_char c ++ quote_json_chars rest
  end.

(** [QuoteJSONString] *)
Definition quote_json_string (s : string) : string :=
  dquote ++ quote_json_chars s ++ dquote.

(** *** [JSON.stringify] *)

Section Serialize.
(** [SerializeJSONProperty], which the two operations below call back. *)
Variable property : value -> completion (option string).

(** The texts of the elements of an array ([SerializeJSONArray]): an
    element without a JSON text is written [null]. *)
Fixpoint serialize_elements (elems : list value) : completion (list string) :=
  match elems with
  | [] => Return []
  | x :: rest =>
      text <- property x ;;
      texts <- serialize_elements rest ;;
      Return (match text with Some t => t | None => "null" end :: texts)
  end.

(** The texts of the members of an object ([SerializeJSONObject]): a
    property without a JSON text is left out. *)
Fixpoint serialize_members (props : list (string * value)) : completion (list string) :=
  match props with
  | [] => Return []
  | entry :: rest =>
      text <- property (snd entry) ;;
      texts <- serialize_members rest ;;
      Return (match text with
              | Some t => (quote_json_string (fst entry) ++ ":" ++ t) :: texts
              | None => texts
              end)
  end.
End Serialize.

(** [JSON.stringify(v)] with no replacer and no indentation, on plain
    data (no [toJSON] method is called: a function has no behaviour
    here).  It returns a string, or [undefined] ([None]) for a value JSON
    has no text for, or throws a [TypeError]: on a BigInt, and on a
    structure that contains itself. *)
Fixpoint stringify (v : value) : completion (option string) :=
  match v with
  | VUndefined | VSymbol | VFunction => Return None
  | VNull => Return (Some "null")
  | VBool true => Return (Some "true")
  | VBool false => Return (Some "false")
  | VNumber (Finite text) => Return (Some text)
  | VNumber NaN | VNumber (Infinity _) => Return (Some "null")
  | VString s => Return (Some (quote_json_string s))
  | VBigInt _ => Throw TypeError
  | VCyclic _ => Throw TypeError
  | VArray elems =>
      parts <- serialize_elements stringify elems ;;
      Return (Some ("[" ++ String.concat "," parts ++ "]"))
  | VObject props =>
      parts <- serialize_members stringify props ;;
      Return (Some ("{" ++ String.concat "," parts ++ "}"))
  end.

(** [`${x}`] for the result of [JSON.stringify]. *)
Definition template (x : option string) : string :=
  match x with
  | Some s => s
  | None => "undefined"
  end.

End JS.

Import JS.

(** ** The combination enumerator *)

(** [propOptions]: each property name with its candidate list, or with
    [undefined] (the mapped type makes every entry optional). *)
Definition propOptions : Type := list (string * option (list value)).

(** [options[key] ?? []] *)
Definition candidates (options : propOptions) (key : string) : list value :=
  match lookup key options with
  | Some (Some values) => values
  | _ => []
  end.

Section Combine.
Variable options : propOptions.

Let keys_ : list string := keys options.

(** The closure [combine] of [getAllCombinations].  The recursion is on
    the distance from [index] to [keys.length].  [getAllCombinations]
    enters it at index 0 and every call goes from [index] to
    [index + 1] below [keys.length], so an index beyond [keys.length]
    never reaches it; that branch is given no combinations here, and
    [combine_fuel] below follows the source there too.
    [{ ...current, [key]: value }] copies [current] into a fresh object and
    assigns [key] in the copy. *)
Equations? combine (index : nat) (current : object) : list object
  by wf (length keys_ - index) lt :=
  combine index current with Nat.eq_dec index (length keys_) := {
    | left _ => [current]
    | right _ with inspect (nth_error keys_ index) := {
      | exist _ (Some key) Hkey =>
          flat_map
            (fun value => combine (S index) (set (spread [] current) key value))
            (candidates options key)
      | exist _ None _ => []
      }
    }.
Proof.
  assert (index < length keys_) by (apply nth_error_Some; congruence).
  lia.
Qed.
End Combine.

Definition getAllCombinations (options : propOptions) : list object :=
  match keys options with
  | [] => []
  | _ :: _ => combine options 0 []
  end.

(** ** The enumerator without presupposing termination *)

(** [values.flatMap(f)] for a callback that may fail to return within its
    budget of nested calls. *)
Fixpoint flatMap_fuel {A B : Type} (f : A -> option (list B)) (values : list A)
  : option (list B) :=
  match values with
  | [] => Some []
  | value :: rest =>
      match f value, flatMap_fuel f rest with
      | Some here, Some there => Some (here ++ there)%list
      | _, _ => None
      end
  end.

(** [combine] again, read off the source call by call: [fuel] bounds the
    depth of nested calls and [None] says the bound was hit.  Nothing is
    assumed about [index]: past the end, [keys[index]] is [undefined], which
    as a property key reads ["undefined"]. *)
Fixpoint combine_fuel (options : propOptions) (fuel : nat)
                      (index : nat) (current : object) : option (list object) :=
  match fuel with
  | 0 => None
  | S fuel' =>
      if (index =? length (keys options))%nat then Some [current]
      else
        let key :=
          match nth_error (keys options) index with
          | Some k => k
          | None => "undefined"
          end in
        flatMap_fuel
          (fun value =>
             combine_fuel options fuel' (S index) (set (spread [] current) key value))
          (candidates options key)
  end.

Definition getAllCombinations_fuel (fuel : nat) (options : propOptions)
  : option (list object) :=
  match keys options with
  | [] => Some []
  | _ :: _ => combine_fuel options fuel 0 []
  end.

(** ** The serializers *)

(** [value !== "" && value !== undefined], the first filter. *)
Definition is_present (value : value) : bool :=
  match value with
  | VString s => negb (s =? "")
  | VUndefined => false
  | _ => true
  end.

(** [typeof value === "object" && value?.$$typeof] as a condition. *)
Definition is_react_element (value : value) : bool :=
  match typeof value with
  | TObject => truthy (optional_get value "$$typeof")
  | _ => false
  end.

(** [Boolean] applied to what the map callbacks return, a string or [null]. *)
Definition Boolean (line : option string) : bool :=
  match line with
  | Some text => negb (text =? "")
  | None => false
  end.

Arguments Boolean : simpl never.

(** The strings that are left of an array of strings and [null]s after
    [.filter(Boolean)]. *)
Fixpoint filter_Boolean (lines : list (option string)) : list string :=
  match lines with
  | [] => []
  | None :: rest => filter_Boolean rest
  | Some text :: rest =>
      if Boolean (Some text) then text :: filter_Boolean rest else filter_Boolean rest
  end.

(** [`<${name}\n${entries}\n/>`] *)
Definition tag (name entries : string) : string :=
  "<" ++ name ++ newline ++ entries ++ newline ++ "/>".

Module Preview.

(** The callback that [formatJSX] maps over the entries. *)
Definition formatJSX_entry (entry : string * value) : completion (option string) :=
  let (key, value) := entry in
  match value with
  | VBool b => Return (if b then Some ("  " ++ key) else None)
  | VString s => Return (Some ("  " ++ key ++ "=" ++ dquote ++ s ++ dquote))
  | _ =>
      if is_react_element value then Return (Some ("  " ++ key ++ "={<ReactElement />}"))
      else
        json <- stringify value ;;
        Return (Some ("  " ++ key ++ "={" ++ template json ++ "}"))
  end.

(** The array that [formatJSX] joins. *)
Definition formatJSX_lines (props : object) : completion (list string) :=
  lines <- map_completion formatJSX_entry
             (filter (fun entry => is_present (snd entry)) props) ;;
  Return (filter_Boolean lines).

Definition formatJSX (name : string) (props : object) : completion string :=
  lines <- formatJSX_lines props ;;
  Return (tag name (String.concat newline lines)).

End Preview.

Module Playground.

(** The callback that [generateJSXCode] maps over the entries. *)
Definition generateJSXCode_entry (entry : string * value) : completion (option string) :=
  let (key, value) := entry in
  match value with
  | VBool b => Return (if b then Some ("  " ++ key) else None)
  | VString s => Return (Some ("  " ++ key ++ "=" ++ dquote ++ s ++ dquote))
  | _ =>
      json <- stringify value ;;
      Return (Some ("  " ++ key ++ "={" ++ template json ++ "}"))
  end.

(** The array that [generateJSXCode] joins. *)
Definition generateJSXCode_lines (currentProps : object) : completion (list string) :=
  lines <- map_completion generateJSXCode_entry
             (filter (fun entry => is_present (snd entry)) currentProps) ;;
  Return (filter_Boolean lines).

(** [generateJSXCode], with the [name] and [currentProps] it closes over. *)
Definition generateJSXCode (name : string) (currentProps : object) : completion string :=
  lines <- generateJSXCode_lines currentProps ;;
  Return (tag name (String.concat newline lines)).

End Playground.

Import Preview Playground.

(** ** Reading a tag back *)

(** Modelled from the spec: the parser from the attribute list of a tag back
    to a props object.  The repository writes tags and never reads one; the
    specification speaks of parsing the attribute list of the serializer's
    output back into a props object.  The reader below does so as JSX reads
    attributes: a bare name is [true], a name with a double-quoted string is
    that string, and a name with an expression in braces is the value of
    the expression.  Of the expressions it reads the literals: [undefined],
    [null], [true], [false], numbers, string literals, array literals and
    object literals with quoted names, written without white space as
    [JSON.stringify] writes them, and the placeholder [<ReactElement />].
    Character references ([&amp;] and the like) inside attribute strings
    are not decoded: a string with an ampersand is not read. *)
Definition is_space (c : ascii) : bool :=
  let n := nat_of_ascii c in
  (n =? 32)%nat || (n =? 9)%nat || (n =? 10)%nat || (n =? 13)%nat.

(** The first character of a JSX attribute name (ASCII names only). *)
Definition is_name_start (c : ascii) : bool :=
  let n := nat_of_ascii c in
  ((65 <=? n)%nat && (n <=? 90)%nat) || ((97 <=? n)%nat && (n <=? 122)%nat)
  || (n =? 95)%nat || (n =? 36)%nat.

(** The further characters of one. *)
Definition is_name_part (c : ascii) : bool :=
  is_name_start c || is_digit c || (nat_of_ascii c =? 45)%nat.

Fixpoint skip_spaces (s : string) : string :=
  match s with
  | EmptyString => ""
  | String c rest => if is_space c then skip_spaces rest else s
  end.

(** The longest prefix of characters that satisfy [p], and what follows. *)
Fixpoint span (p : ascii -> bool) (s : string) : string * string :=
  match s with
  | EmptyString => ("", "")
  | String c rest =>
      if p c then let (taken, remaining) := span p rest in (String c taken, remaining)
      else ("", s)
  end.

Definition read_name (s : string) : option (string * string) :=
  match s with
  | EmptyString => None
  | String c _ => if is_name_start c then Some (span is_name_part s) else None
  end.

(** The characters of an attribute string up to the closing double quote,
    and what follows it. *)
Fixpoint read_string (s : string) : option (string * string) :=
  match s with
  | EmptyString => None
  | String c rest =>
      if (nat_of_ascii c =? 34)%nat then Some ("", rest)
      else if (nat_of_ascii c =? 38)%nat then None
      else
        match read_string rest with
        | Some (text, remaining) => Some (String c text, remaining)
        | None => None
        end
  end.

(** [s] without the prefix [prefix], when it has it. *)
Fixpoint strip_prefix (prefix s : string) : option string :=
  match prefix, s with
  | EmptyString, _ => Some s
  | String c prefix', String d s' =>
      if Ascii.eqb c d then strip_prefix prefix' s' else None
  | String _ _, EmptyString => None
  end.

(** The element that [<ReactElement />] evaluates to. *)
Definition react_element : value :=
  VObject [("$$typeof", VSymbol); ("type", VFunction); ("key", VNull);
           ("ref", VNull); ("props", VObject [])].

(** *** Number literals *)

(** A character of the text of a number. *)
Definition is_number_char (c : ascii) : bool :=
  let n := nat_of_ascii c in
  is_digit c || (n =? 45)%nat || (n =? 43)%nat || (n =? 46)%nat || (n =? 101)%nat.

Fixpoint all_chars (p : ascii -> bool) (s : string) : bool :=
  match s with
  | EmptyString => true
  | String c rest => p c && all_chars p rest
  end.

(** [s] up to the first [c], and what follows that [c] when there is one. *)
Fixpoint split_at (c : ascii) (s : string) : string * option string :=
  match s with
  | EmptyString => ("", None)
  | String d rest =>
      if Ascii.eqb c d then ("", Some rest)
      else let (before, after) := split_at c rest in (String d before, after)
  end.

(** Decimal digits without a leading zero, or ["0"]. *)
Definition integer_text (s : string) : bool :=
  match s with
  | EmptyString => false
  | String c rest => all_chars is_digit s && (negb (nat_of_ascii c =? 48)%nat || (rest =? ""))
  end.

(** Decimal digits that do not end in a zero. *)
Fixpoint fraction_text (s : string) : bool :=
  match s with
  | EmptyString => false
  | String c EmptyString => is_digit c && negb (nat_of_ascii c =? 48)%nat
  | String c rest => is_digit c && fraction_text rest
  end.

(** The shape of the texts that [Number.prototype.toString] gives for the
    finite numbers: [12], [-0.5], [1e+21], [1.5e-7]. *)
Definition number_shape (s : string) : bool :=
  let body :=
    match s with
    | String c rest => if (nat_of_ascii c =? 45)%nat then rest else s
    | EmptyString => s
    end in
  let (mantissa, exponent) := split_at "e" body in
  let (whole, fraction) := split_at "." mantissa in
  integer_text whole
  && match fraction with
     | Some digits => fraction_text digits
     | None => true
     end
  && match exponent with
     | Some (String sign digits) =>
         ((nat_of_ascii sign =? 43)%nat || (nat_of_ascii sign =? 45)%nat)
         && integer_text digits && negb (digits =? "0")
         && (String.length whole =? 1)%nat && negb (whole =? "0")
     | Some EmptyString => false
     | None => true
     end
  && negb (s =? "-0").

(** The texts of the finite numbers: of that shape, which makes them start
    with a digit or the sign and consist of the characters of numbers. *)
Definition number_text (s : string) : bool :=
  match s with
  | EmptyString => false
  | String c _ =>
      (is_digit c || (nat_of_ascii c =? 45)%nat) && all_chars is_number_char s
      && number_shape s
  end.

(** A number literal: the characters of a number, when they are the text
    of one. *)
Definition read_number (s : string) : option (value * string) :=
  let (text, remaining) := span is_number_char s in
  if number_text text then Some (VNumber (Finite text), remaining) else None.

(** *** String literals *)

(** The character a one-letter escape stands for. *)
Definition unescape (e : ascii) : option ascii :=
  let n := nat_of_ascii e in
  if (n =? 98)%nat then Some "008"%char
  else if (n =? 116)%nat then Some "009"%char
  else if (n =? 110)%nat then Some "010"%char
  else if (n =? 118)%nat then Some "011"%char
  else if (n =? 102)%nat then Some "012"%char
  else if (n =? 114)%nat then Some "013"%char
  else if (n =? 34)%nat || (n =? 39)%nat || (n =? 47)%nat || (n =? 92)%nat then Some e
  else None.

Definition hex_value (c : ascii) : option nat :=
  let n := nat_of_ascii c in
  if is_digit c then Some (n - 48)
  else if (97 <=? n)%nat && (n <=? 102)%nat then Some (n - 87)
  else if (65 <=? n)%nat && (n <=? 70)%nat then Some (n - 55)
  else None.

(** The code unit of [\uXXXX], for the code units that a string holds
    here (those below 256). *)
Definition unicode_escape (h1 h2 h3 h4 : ascii) : option ascii :=
  match hex_value h1, hex_value h2, hex_value h3, hex_value h4 with
  | Some a, Some b, Some c, Some d =>
      let code := ((a * 16 + b) * 16 + c) * 16 + d in
      if (code <? 256)%nat then Some (ascii_of_nat code) else None
  | _, _, _, _ => None
  end.

Definition prepend (c : option ascii) (read : option (string * string))
  : option (string * string) :=
  match c, read with
  | Some c, Some (text, remaining) => Some (String c text, remaining)
  | _, _ => None
  end.

(** The characters of a string literal up to its closing double quote,
    and what follows the quote.  A backslash escapes the double quote, the
    single quote, the slash and itself, stands with one of the letters b,
    t, n, v, f, r for a control character, and with u and four hexadecimal
    digits for a code unit. *)
Fixpoint read_escaped (s : string) : option (string * string) :=
  match s with
  | EmptyString => None
  | String c rest =>
      if (nat_of_ascii c =? 34)%nat then Some ("", rest)
      else if (nat_of_ascii c =? 92)%nat then
        match rest with
        | EmptyString => None
        | String e rest' =>
            if (nat_of_ascii e =? 117)%nat then
              match rest' with
              | String h1 (String h2 (String h3 (String h4 rest''))) =>
                  prepend (unicode_escape h1 h2 h3 h4) (read_escaped rest'')
              | _ => None
              end
            else prepend (unescape e) (read_escaped rest')
        end
      else prepend (Some c) (read_escaped rest)
  end.

(** *** Literals *)

(** The entries of a props object under another key than [key]. *)
Definition without_key {V : Type} (key : string) (props : list (string * V))
  : list (string * V) :=
  filter (fun entry => negb (fst entry =? key)) props.

(** [null], [true], [false] or a number. *)
Definition read_atom (s : string) : option (value * string) :=
  match strip_prefix "null" s with
  | Some remaining => Some (VNull, remaining)
  | None =>
  match strip_prefix "true" s with
  | Some remaining => Some (VBool true, remaining)
  | None =>
  match strip_prefix "false" s with
  | Some remaining => Some (VBool false, remaining)
  | None => read_number s
  end end end.

(** A literal, the elements of an array literal after its bracket, and the
    members of an object literal after its brace; [fuel] bounds the nesting
    and the number of elements and members.  The object a literal
    evaluates to has its members defined in order; a member named
    [__proto__] names the prototype and is no property. *)
Fixpoint read_literal (fuel : nat) (s : string) {struct fuel} : option (value * string) :=
  match fuel with
  | 0 => None
  | S fuel' =>
      match s with
      | EmptyString => None
      | String c rest =>
          if (nat_of_ascii c =? 91)%nat then
            match strip_prefix "]" rest with
            | Some remaining => Some (VArray [], remaining)
            | None =>
                match read_elements fuel' rest with
                | Some (elems, remaining) => Some (VArray elems, remaining)
                | None => None
                end
            end
          else if (nat_of_ascii c =? 123)%nat then
            match strip_prefix "}" rest with
            | Some remaining => Some (VObject [], remaining)
            | None =>
                match read_members fuel' rest with
                | Some (members, remaining) =>
                    Some (VObject (object_literal (without_key "__proto__" members)),
                          remaining)
                | None => None
                end
            end
          else if (nat_of_ascii c =? 34)%nat then
            match read_escaped rest with
            | Some (text, remaining) => Some (VString text, remaining)
            | None => None
            end
          else read_atom s
      end
  end
with read_elements (fuel : nat) (s : string) {struct fuel} : option (list value * string) :=
  match fuel with
  | 0 => None
  | S fuel' =>
      match read_literal fuel' s with
      | Some (v, String c rest) =>
          if (nat_of_ascii c =? 44)%nat then
            match read_elements fuel' rest with
            | Some (elems, remaining) => Some (v :: elems, remaining)
            | None => None
            end
          else if (nat_of_ascii c =? 93)%nat then Some ([v], rest)
          else None
      | _ => None
      end
  end
with read_members (fuel : nat) (s : string) {struct fuel}
  : option (list (string * value) * string) :=
  match fuel with
  | 0 => None
  | S fuel' =>
      match strip_prefix dquote s with
      | None => None
      | Some after_quote =>
          match read_escaped after_quote with
          | None => None
          | Some (key, after_key) =>
              match strip_prefix ":" after_key with
              | None => None
              | Some after_colon =>
                  match read_literal fuel' after_colon with
                  | Some (v, String c rest) =>
                      if (nat_of_ascii c =? 44)%nat then
                        match read_members fuel' rest with
                        | Some (members, remaining) => Some ((key, v) :: members, remaining)
                        | None => None
                        end
                      else if (nat_of_ascii c =? 125)%nat then Some ([(key, v)], rest)
                      else None
                  | _ => None
                  end
              end
          end
      end
  end.

(** The expression between the braces of an attribute.  A literal takes no
    more nested readings than it has characters. *)
Definition read_expression (s : string) : option (value * string) :=
  match strip_prefix "undefined" s with
  | Some remaining => Some (VUndefined, remaining)
  | None =>
  match strip_prefix "<ReactElement />" s with
  | Some remaining => Some (react_element, remaining)
  | None => read_literal (S (String.length s)) s
  end end.

(** What follows the name of an attribute: its value, and the rest. *)
Definition read_value (s : string) : option (value * string) :=
  match s with
  | String c rest =>
      if (nat_of_ascii c =? 61)%nat then
        match rest with
        | String d rest' =>
            if (nat_of_ascii d =? 34)%nat then
              match read_string rest' with
              | Some (text, remaining) => Some (VString text, remaining)
              | None => None
              end
            else if (nat_of_ascii d =? 123)%nat then
              match read_expression rest' with
              | Some (v, remaining) =>
                  match strip_prefix "}" remaining with
                  | Some remaining' => Some (v, remaining')
                  | None => None
                  end
              | None => None
              end
            else None
        | EmptyString => None
        end
      else Some (VBool true, s)
  | EmptyString => Some (VBool true, s)
  end.

(** The attributes of an attribute list, in order; [fuel] bounds their
    number. *)
Fixpoint read_attributes (fuel : nat) (s : string) : option (list (string * value)) :=
  match fuel with
  | 0 => None
  | S fuel' =>
      match skip_spaces s with
      | EmptyString => Some []
      | String c rest =>
          match read_name (String c rest) with
          | Some (name, after_name) =>
              match read_value after_name with
              | Some (v, remaining) =>
                  match read_attributes fuel' remaining with
                  | Some attributes => Some ((name, v) :: attributes)
                  | None => None
                  end
              | None => None
              end
          | None => None
          end
      end
  end.

(** The props object an attribute list stands for: its attributes assigned
    in order to a fresh object.  Every attribute takes at least one
    character, so the length of the text is fuel enough. *)
Definition reparse (entries : string) : option object :=
  match read_attributes (S (String.length entries)) entries with
  | Some attributes => Some (spread [] attributes)
  | None => None
  end.

(** A text without its white space. *)
Fixpoint without_spaces (s : string) : string :=
  match s with
  | EmptyString => ""
  | String c rest => if is_space c then without_spaces rest else String c (without_spaces rest)
  end.

(** ** What [ComponentCombinationBrowser] renders *)

(** [array.slice(start, end)] for [start <= end]. *)
Definition slice {A : Type} (start end_ : nat) (l : list A) : list A :=
  firstn (end_ - start) (skipn start l).

(** [combinedProps], that is [{ ...staticProps, ...combo }]: the object
    that is passed to [formatJSX] and spread into the element of the
    component. *)
Definition combinedProps (staticProps combo : object) : object :=
  spread (spread [] staticProps) combo.

(** [jsxCode], that is [formatJSX(name, combinedProps)]. *)
Definition jsxCode (name : string) (staticProps combo : object) : completion string :=
  formatJSX name (combinedProps staticProps combo).




(** ** Auxiliary notions used in the statements *)

(** The candidate list an entry of [propOptions] carries. *)
Definition own_candidates (entry : string * option (list value)) : list value :=
  match snd entry with
  | Some values => values
  | None => []
  end.

Definition product (ns : list nat) : nat := fold_right Nat.mul 1 ns.

(** [combine] unfolded along the keys that are still to be assigned. *)
Fixpoint combine_rest (options : propOptions) (rest : list string) (current : object)
  : list object :=
  match rest with
  | [] => [current]
  | key :: rest' =>
      flat_map (fun value => combine_rest options rest' (set (spread [] current) key value))
               (candidates options key)
  end.

(** Lexicographic order on index tuples, first component most significant. *)
Inductive lex_lt : list nat -> list nat -> Prop :=
| lex_here (i j : nat) (t u : list nat) : i < j -> lex_lt (i :: t) (j :: u)
| lex_next (i : nat) (t u : list nat) : lex_lt t u -> lex_lt (i :: t) (i :: u).

(** The combination that picks, for each property in the order of the
    list, the candidate at the given position of its list. *)
Fixpoint assignment (options : propOptions) (t : list nat) : object :=
  match options, t with
  | entry :: options', i :: t' =>
      (fst entry, nth i (own_candidates entry) VUndefined) :: assignment options' t'
  | _, _ => []
  end.

(** All index tuples below the given bounds, in lexicographic order. *)
Fixpoint index_tuples (bounds : list nat) : list (list nat) :=
  match bounds with
  | [] => [[]]
  | n :: bounds' =>
      flat_map (fun i => map (cons i) (index_tuples bounds')) (seq 0 n)
  end.

(** The enumeration the specification describes for a mapping declared as
    [declared]: the assignments of the index tuples in lexicographic
    order, the property declared first most significant. *)
Definition declaration_order (declared : propOptions) : list (list (string * value)) :=
  map (assignment declared)
      (index_tuples (map (fun entry => length (own_candidates entry)) declared)).

(** An entry that is left after both filters: its value is not the empty
    string, not [undefined] and not [false]. *)
Definition is_emitted (value : value) : bool :=
  match value with
  | VString s => negb (s =? "")
  | VUndefined => false
  | VBool b => b
  | _ => true
  end.

Definition emitted (props : object) : list (string * value) :=
  filter (fun entry => is_emitted (snd entry)) props.

(** [attribute_of elements key value line]: [line] is how the entry
    [key: value] reads as an attribute.  [elements] tells whether React
    elements are given the placeholder. *)
Inductive attribute_of (elements : bool) (key : string) : value -> string -> Prop :=
| attribute_true :
    attribute_of elements key (VBool true) ("  " ++ key)
| attribute_string (s : string) :
    attribute_of elements key (VString s) ("  " ++ key ++ "=" ++ dquote ++ s ++ dquote)
| attribute_element (v : value) :
    elements = true ->
    is_react_element v = true ->
    attribute_of elements key v ("  " ++ key ++ "={<ReactElement />}")
| attribute_json (v : value) (json : option string) :
    typeof v <> TBoolean -> typeof v <> TString ->
    (elements = true -> is_react_element v = false) ->
    stringify v = Return json ->
    attribute_of elements key v ("  " ++ key ++ "={" ++ template json ++ "}").

(** [JSON.stringify] returns on the value. *)
Definition serializable (v : value) : Prop :=
  exists json, stringify v = Return json.

(** An attribute string the reader reads back as it is: no double quote
    and no ampersand in it. *)
Fixpoint plain_text (s : string) : bool :=
  match s with
  | EmptyString => true
  | String c rest =>
      negb (nat_of_ascii c =? 34)%nat && negb (nat_of_ascii c =? 38)%nat && plain_text rest
  end.

(** A property name that can stand as a JSX attribute name. *)
Definition jsx_name (key : string) : bool :=
  match key with
  | EmptyString => false
  | String c rest => is_name_start c && all_chars is_name_part rest
  end.

(** Whether a method [toJSON] is among the properties. *)
Definition has_toJSON (props : list (string * value)) : bool :=
  match lookup "toJSON" props with
  | Some VFunction => true
  | _ => false
  end.

(** The data [JSON.stringify] writes as [stringify] has it and a literal
    names again: no BigInt and no cycle in it, the finite numbers with the
    text of a number, and the objects with their properties in the order
    of [Object.keys], none of them named [__proto__] and none a method
    [toJSON].  (A function, a symbol or [undefined] inside an array is
    written [null] and inside an object is left out.) *)
Fixpoint json_data (v : value) : bool :=
  match v with
  | VNumber (Finite text) => number_text text
  | VBigInt _ | VCyclic _ => false
  | VArray elems => forallb json_data elems
  | VObject props =>
      is_object props
      && negb (existsb (String.eqb "__proto__") (keys props))
      && negb (has_toJSON props)
      && forallb (fun entry => json_data (snd entry)) props
  | _ => true
  end.

Section Back.
Variable back : value -> value.

(** An element of an array as it is read back: [null] where it had no
    text. *)
Definition back_element (x : value) : value :=
  match back x with
  | VUndefined => VNull
  | y => y
  end.

(** The members of an object as they are read back: without those that
    had no text. *)
Fixpoint back_members (props : list (string * value)) : list (string * value) :=
  match props with
  | [] => []
  | entry :: rest =>
      match back (snd entry) with
      | VUndefined => back_members rest
      | y => (fst entry, y) :: back_members rest
      end
  end.
End Back.

(** The value a literal names when it is the text [JSON.stringify] gives
    for [v]; [undefined] when there is no text. *)
Fixpoint json_back (v : value) : value :=
  match v with
  | VUndefined | VSymbol | VFunction => VUndefined
  | VNumber (Finite text) => VNumber (Finite text)
  | VNumber _ => VNull
  | VArray elems => VArray (map (back_element json_back) elems)
  | VObject props => VObject (back_members json_back props)
  | _ => v
  end.

(** The values among which the reader finds back what was written:
    [undefined], [null], booleans, attribute strings of plain text,
    numbers, arrays and objects of JSON data and, when [elements] says
    that they are written as the placeholder, React elements. *)
Definition rereadable (elements : bool) (v : value) : bool :=
  match v with
  | VUndefined | VNull | VBool _ => true
  | VString s => plain_text s
  | VSymbol | VFunction | VBigInt _ => false
  | VNumber _ | VArray _ => json_data v
  | VObject _ => if elements && is_react_element v then true else json_data v
  | VCyclic _ => elements && is_react_element v
  end.

(** The value read back for a rereadable value: the one written, but for
    [NaN] and the infinities, written [null], for what has no text inside
    an array or an object, and for a React element written as the
    placeholder. *)
Definition read_back (elements : bool) (v : value) : value :=
  match v with
  | VObject _ | VCyclic _ =>
      if elements && is_react_element v then react_element else json_back v
  | VNumber _ | VArray _ => json_back v
  | _ => v
  end.

(** What is written after the name for an emitted, rereadable value. *)
Definition value_text (elements : bool) (v : value) : string :=
  match v with
  | VBool _ => ""
  | VString s => "=" ++ dquote ++ s ++ dquote
  | _ =>
      if elements && is_react_element v then "={<ReactElement />}"
      else match stringify v with
           | Return json => "={" ++ template json ++ "}"
           | Throw _ => ""
           end
  end.

(** The attribute written for it. *)
Definition attribute_text (elements : bool) (entry : string * value) : string :=
  "  " ++ fst entry ++ value_text elements (snd entry).

(** The entry read back from it. *)
Definition entry_back (elements : bool) (entry : string * value) : string * value :=
  (fst entry, read_back elements (snd entry)).

(** What may follow a name: nothing, or a character that is not part of
    one. *)
Definition ends_name (tail : string) : Prop :=
  match tail with
  | EmptyString => True
  | String c _ => is_name_part c = false
  end.

(** Where an attribute ends in an attribute list: at the end of the text or
    at a line break. *)
Definition line_end (rest : string) : Prop :=
  rest = "" \/ exists rest', rest = newline ++ rest'.

(** What may follow a literal inside an expression: a comma, a closing
    bracket or a closing brace. *)
Definition ends_literal (rest : string) : Prop :=
  exists c rest', rest = String c rest'
                  /\ ((nat_of_ascii c =? 44)%nat || (nat_of_ascii c =? 93)%nat
                      || (nat_of_ascii c =? 125)%nat) = true.

(** What a literal of JSON data starts with. *)
Definition literal_start (c : ascii) : bool :=
  let n := nat_of_ascii c in
  is_digit c || (n =? 45)%nat || (n =? 91)%nat || (n =? 123)%nat || (n =? 34)%nat
  || (n =? 110)%nat || (n =? 116)%nat || (n =? 102)%nat.

(** [reads_back v]: the text [JSON.stringify] gives for [v], followed by
    what may follow a literal, is read back as a literal for what [v] is
    read back as, once the fuel exceeds the length of the text. *)
Definition reads_back (v : value) : Prop :=
  json_data v = true ->
  forall (t : string) (fuel : nat) (rest : string),
    stringify v = Return (Some t) ->
    String.length t < fuel -> ends_literal rest ->
    read_literal fuel (t ++ rest) = Some (json_back v, rest).

(** ** Paging through the combinations *)

(** [combinations.slice(start, start + itemsPerPage)] with
    [start = page * itemsPerPage], for a [page] and an [itemsPerPage] that
    are non-negative integers. *)
Definition visibleCombinations {A : Type} (combinations : list A)
           (itemsPerPage page : nat) : list A :=
  let start := page * itemsPerPage in
  slice start (start + itemsPerPage) combinations.

(** [Math.ceil(count / itemsPerPage)], for a positive integer
    [itemsPerPage] (for zero the quotient is [NaN] or [Infinity]; what is
    here for zero has no meaning). *)
Definition totalPages (count itemsPerPage : nat) : nat :=
  count / itemsPerPage + (if (count mod itemsPerPage =? 0)%nat then 0 else 1).

(** The updater of the "Previous" button, [p => Math.max(0, p - 1)]. *)
Definition previous_page (p : Z) : Z := Z.max 0 (p - 1).

(** The updater of the "Next" button,
    [p => Math.min(totalPages - 1, p + 1)]. *)
Definition next_page (pages : Z) (p : Z) : Z := Z.min (pages - 1) (p + 1).

(** [disabled={page === 0}] *)
Definition previous_disabled (page : Z) : bool := (page =? 0)%Z.

(** [disabled={page + 1 >= totalPages}] *)
Definition next_disabled (pages page : Z) : bool := (pages <=? page + 1)%Z.

Inductive button : Type :=
| Previous
| Next.

(** The page after a click: a disabled button does not fire. *)
Definition click (pages : Z) (page : Z) (b : button) : Z :=
  match b with
  | Previous => if previous_disabled page then page else previous_page page
  | Next => if next_disabled pages page then page else next_page pages page
  end.

(** The page after a series of clicks, from [useState(0)]. *)
Definition page_after (pages : Z) (clicks : list button) : Z :=
  fold_left (click pages) clicks 0%Z.

(** ** The state of the playground *)

Inductive PropType : Type :=
| PString
| PEnum
| PBoolean
| PNumber.

(** [ComponentPropConfig]; an absent [default] is [undefined]. *)
Record ComponentPropConfig : Type := {
  prop_type : PropType;
  prop_default : value;
  prop_options : option (list value)
}.

(** [config.props]: the mapped type is partial, so an entry may hold
    [undefined] ([None]). *)
Definition propConfig : Type := list (string * option ComponentPropConfig).

(** [a ?? b] *)
Definition nullish_or (a b : value) : value :=
  match a with
  | VUndefined | VNull => b
  | _ => a
  end.

(** [m.default ?? (m.type === "boolean" ? false : "")] *)
Definition initial_value (m : ComponentPropConfig) : value :=
  nullish_or (prop_default m)
             (match prop_type m with
              | PBoolean => VBool false
              | _ => VString ""
              end).

(** One step of the [reduce] that builds [initialState]: reading
    [m.default] of an [undefined] entry throws.  The assignment
    [acc[key] = ...] makes or updates a property, but for the key
    [__proto__]: that one is the accessor of [Object.prototype], whose
    setter makes no property (it changes the prototype of [acc] when the
    value is an object, which the property list does not record). *)
Definition initialState_step (acc : object) (entry : string * option ComponentPropConfig)
  : completion object :=
  match snd entry with
  | Some m =>
      if fst entry =? "__proto__" then Return acc
      else Return (set acc (fst entry) (initial_value m))
  | None => Throw TypeError
  end.

(** [array.reduce(f, acc)] for a callback that may throw. *)
Fixpoint reduce_completion {A B : Type} (f : B -> A -> completion B) (l : list A) (acc : B)
  : completion B :=
  match l with
  | [] => Return acc
  | x :: rest =>
      acc' <- f acc x ;;
      reduce_completion f rest acc'
  end.

(** [initialState] of [ComponentPlayground]. *)
Definition initialState (config : propConfig) : completion object :=
  reduce_completion initialState_step config [].

(** The updater of [handleChange], [prev => ({ ...prev, [key]: value })]. *)
Definition handleChange (prev : object) (key : string) (value : value) : object :=
  set (spread [] prev) key value.

(** The entries of a configuration that are there. *)
Definition configured (config : propConfig) : Prop :=
  Forall (fun entry => snd entry <> None) config.

(** The properties of a configuration with the value [f] gives for each
    (the [undefined] entries have none). *)
Definition config_values (f : ComponentPropConfig -> value) (config : propConfig) : object :=
  flat_map (fun entry =>
              match snd entry with
              | Some m => [(fst entry, f m)]
              | None => []
              end) config.

(** The array a serializer joins, for either callback. *)
Definition lines_with (entry_line : string * value -> completion (option string))
           (props : object) : completion (list string) :=
  ls <- map_completion entry_line (filter (fun entry => is_present (snd entry)) props) ;;
  Return (filter_Boolean ls).

(** ** Examples *)

(** The [propOptions] of the accordion preview. *)
Definition accordion_propOptions : propOptions :=
  [("variant", Some [VString "default"; VString "bordered"; VString "bottom-border"]);
   ("triggerPosition", Some [VString "left"; VString "right"]);
   ("disabled", Some [VBool true; VBool false]);
   ("defaultOpen", Some [VBool true; VBool false])].

(** The initial [currentProps] of the alert playground: the defaults of its
    configuration. *)
Definition alert_currentProps : object :=
  [("alertType", VString "info");
   ("variant", VString "outline");
   ("title", VString "Test Alert");
   ("description", VString "This is a generic component preview.");
   ("closeButton", VBool true);
   ("confirmationButtonText", VString "Confirm");
   ("iconType", VString "");
   ("actionVariant", VString "");
   ("icon", VString "");
   ("closeButtonTextType", VString "")].

(** The configuration of the alert playground. *)
Definition alert_config : propConfig :=
  [("alertType",
    Some {| prop_type := PEnum; prop_default := VString "info";
            prop_options := Some [VString "info"; VString "success";
                                  VString "warning"; VString "error"] |});
   ("variant",
    Some {| prop_type := PEnum; prop_default := VString "outline";
            prop_options := Some [VString "outline"; VString "soft";
                                  VString "solid"; VString "bordered"] |});
   ("title",
    Some {| prop_type := PString; prop_default := VString "Test Alert";
            prop_options := None |});
   ("description",
    Some {| prop_type := PString;
            prop_default := VString "This is a generic component preview.";
            prop_options := None |});
   ("closeButton",
    Some {| prop_type := PBoolean; prop_default := VBool true; prop_options := None |});
   ("confirmationButtonText",
    Some {| prop_type := PString; prop_default := VString "Confirm";
            prop_options := None |});
   ("iconType",
    Some {| prop_type := PString; prop_default := VString ""; prop_options := None |});
   ("actionVariant",
    Some {| prop_type := PString; prop_default := VString ""; prop_options := None |});
   ("icon",
    Some {| prop_type := PString; prop_default := VString ""; prop_options := None |});
   ("closeButtonTextType",
    Some {| prop_type := PString; prop_default := VString ""; prop_options := None |})].

(** What [generateJSXCode] shows for them. *)
Definition alert_code : string :=
  "<Alert" ++ newline
  ++ "  alertType=" ++ dquote ++ "info" ++ dquote ++ newline
  ++ "  variant=" ++ dquote ++ "outline" ++ dquote ++ newline
  ++ "  title=" ++ dquote ++ "Test Alert" ++ dquote ++ newline
  ++ "  description=" ++ dquote ++ "This is a generic component preview." ++ dquote ++ newline
  ++ "  closeButton" ++ newline
  ++ "  confirmationButtonText=" ++ dquote ++ "Confirm" ++ dquote ++ newline
  ++ "/>".

(** Props with numbers, an array and an object among their values. *)
Definition preview_props : object :=
  [("title", VString "Sample Alert");
   ("opacity", VNumber (Finite "0.5"));
   ("timeout", VNumber (Finite "1e+21"));
   ("items", VArray [VNumber (Finite "-1"); VFunction; VString "a b"]);
   ("style", VObject [("1", VNull); ("color", VString "red"); ("onHover", VFunction)]);
   ("closeButton", VBool true);
   ("disabled", VBool false)].

(** A browser whose [staticProps] and [propOptions] share the key
    [variant]. *)
Definition shared_staticProps : object :=
  [("variant", VString "solid"); ("title", VString "Sample Alert")].

Definition shared_propOptions : propOptions :=
  [("variant", Some [VString "outline"; VString "soft"])].

(** Its second combination. *)
Definition shared_combo : object := [("variant", VString "soft")].

(** One of its combinations. *)
Definition accordion_combo : object :=
  [("variant", VString "bordered"); ("triggerPosition", VString "left");
   ("disabled", VBool false); ("defaultOpen", VBool true)].

(** Its [staticProps]. *)
Definition accordion_staticProps : object :=
  [("title", VString "Accordion Title");
   ("content", VString "This is the accordion content.");
   ("titleIcon", VObject [("$$typeof", VSymbol); ("type", VFunction);
                          ("key", VNull); ("ref", VNull);
                          ("props", VObject [("className", VString "w-4 h-4")])]);
   ("onOpenChange", VFunction)].

Example alert_like :
  getAllCombinations
    [("variant", Some [VString "outline"; VString "soft"]);
     ("disabled", Some [VBool true; VBool false])]
  = [ [("variant", VString "outline"); ("disabled", VBool true)];
      [("variant", VString "outline"); ("disabled", VBool false)];
      [("variant", VString "soft"); ("disabled", VBool true)];
      [("variant", VString "soft"); ("disabled", VBool false)] ].
Proof. reflexivity. Qed.

Example stringify_nested :
  stringify (VObject [("a", VArray [VNumber (Finite "1"); VFunction; VString "x"]);
                      ("$$typeof", VSymbol); ("n", VNull)])
  = Return (Some ("{" ++ dquote ++ "a" ++ dquote ++ ":[1,null," ++ dquote ++ "x" ++ dquote
                  ++ "]," ++ dquote ++ "n" ++ dquote ++ ":null}")).
Proof. reflexivity. Qed.

Example formatJSX_accordion :
  formatJSX "Accordion"
    [("title", VString "Accordion Title");
     ("titleIcon", VObject [("$$typeof", VSymbol); ("type", VFunction)]);
     ("onOpenChange", VFunction);
     ("variant", VString "default");
     ("disabled", VBool true);
     ("defaultOpen", VBool false)]
  = Return ("<Accordion" ++ newline
            ++ "  title=" ++ dquote ++ "Accordion Title" ++ dquote ++ newline
            ++ "  titleIcon={<ReactElement />}" ++ newline
            ++ "  onOpenChange={undefined}" ++ newline
            ++ "  variant=" ++ dquote ++ "default" ++ dquote ++ newline
            ++ "  disabled" ++ newline
            ++ "/>").
Proof. reflexivity. Qed.

(** ** Properties of ordered property lists *)

Section PropertyLemmas.
Context {V : Type}.
Implicit Types (o a b : list (string * V)) (k : string) (v : V).

Lemma lookup_None_iff o k : lookup k o = None <-> ~ In k (keys o).
Proof.
  induction o as [| [k' v'] rest IH]; simpl.
  - tauto.
  - destruct (k' =? k) eqn:E.
    + apply String.eqb_eq in E. split; [discriminate | tauto].
    + apply String.eqb_neq in E. rewrite IH. tauto.
Qed.

Lemma lookup_In o k v : NoDup (keys o) -> In (k, v) o -> lookup k o = Some v.
Proof.
  induction o as [| [k' v'] rest IH]; simpl; intros Hnd Hin.
  - contradiction.
  - inversion Hnd as [| ? ? Hnotin Hnd']; subst.
    destruct Hin as [Heq | Hin].
    + injection Heq as -> ->. now rewrite String.eqb_refl.
    + destruct (k' =? k) eqn:E.
      * apply String.eqb_eq in E; subst k'.
        exfalso. apply Hnotin. change k with (fst (k, v)). now apply in_map.
      * now apply IH.
Qed.

Lemma lookup_Some_In o k v : lookup k o = Some v -> In (k, v) o.
Proof.
  induction o as [| [k' v'] rest IH]; simpl; intros H.
  - discriminate.
  - destruct (k' =? k) eqn:E.
    + apply String.eqb_eq in E. injection H as ->. subst. now left.
    + right. now apply IH.
Qed.

Lemma lookup_Some_keys o k v : lookup k o = Some v -> In k (keys o).
Proof.
  intros H. apply lookup_Some_In in H. change k with (fst (k, v)). now apply in_map.
Qed.

Lemma lookup_app_fresh o k k' v : k <> k' -> lookup k' (o ++ [(k, v)])%list = lookup k' o.
Proof.
  intros Hne. induction o as [| [k0 v0] o IH]; simpl.
  - destruct (String.eqb_spec k k'); [contradiction | reflexivity].
  - now rewrite IH.
Qed.

Lemma lookup_app_last o k v : lookup k o = None -> lookup k (o ++ [(k, v)])%list = Some v.
Proof.
  induction o as [| [k0 v0] o IH]; simpl.
  - now rewrite String.eqb_refl.
  - destruct (k0 =? k); [discriminate | exact IH].
Qed.

(** *** An existing property *)

Lemma lookup_replace_same o k v :
  lookup k o <> None -> lookup k (replace o k v) = Some v.
Proof.
  induction o as [| [k' v'] rest IH]; simpl; intros H.
  - contradiction.
  - destruct (k' =? k) eqn:E; simpl; rewrite E; [reflexivity | now apply IH].
Qed.

Lemma lookup_replace_other o k k' v : k <> k' -> lookup k' (replace o k v) = lookup k' o.
Proof.
  intros Hne.
  induction o as [| [k0 v0] rest IH]; simpl; [reflexivity |].
  destruct (String.eqb_spec k0 k) as [-> | Hk0]; simpl.
  - destruct (String.eqb_spec k k'); [contradiction | reflexivity].
  - now rewrite IH.
Qed.

Lemma keys_replace o k v : keys (replace o k v) = keys o.
Proof.
  induction o as [| [k' v'] rest IH]; simpl; [reflexivity |].
  destruct (k' =? k); simpl; [reflexivity | now rewrite IH].
Qed.

Lemma In_replace o k v (entry : string * V) :
  In entry (replace o k v) -> In entry o \/ entry = (k, v).
Proof.
  induction o as [| [k' v'] o IH]; simpl; [tauto |].
  destruct (String.eqb_spec k' k) as [-> | Hne]; simpl.
  - intros [<- | Hin]; auto.
  - intros [<- | Hin]; auto. destruct (IH Hin); auto.
Qed.

Lemma replace_replace o k v v' : replace (replace o k v) k v' = replace o k v'.
Proof.
  induction o as [| [k0 v0] o IH]; simpl; [reflexivity |].
  destruct (k0 =? k) eqn:E; simpl; rewrite E; [reflexivity | now rewrite IH].
Qed.

Lemma replace_commute o k k' v v' :
  k <> k' -> replace (replace o k v) k' v' = replace (replace o k' v') k v.
Proof.
  intros Hne. induction o as [| [k0 v0] o IH]; simpl; [reflexivity |].
  destruct (String.eqb_spec k0 k) as [-> | Hk0]; simpl.
  - destruct (String.eqb_spec k k') as [-> | _]; [contradiction |]. simpl.
    now rewrite String.eqb_refl.
  - destruct (String.eqb_spec k0 k') as [-> | Hk0']; simpl.
    + destruct (String.eqb_spec k' k) as [-> | _]; [contradiction | reflexivity].
    + destruct (String.eqb_spec k0 k) as [-> | _]; [contradiction |].
      now rewrite IH.
Qed.

(** *** A new array index *)

Lemma lookup_insert_same o k v (n : N) :
  lookup k o = None -> lookup k (insert_index n k v o) = Some v.
Proof.
  induction o as [| [k' v'] rest IH]; simpl; intros H.
  - now rewrite String.eqb_refl.
  - destruct (k' =? k) eqn:E; [discriminate |].
    destruct (array_index k') as [m |]; [destruct (m <=? n)%N |]; simpl;
      rewrite ?E, ?String.eqb_refl; auto.
Qed.

Lemma lookup_insert_other o k k' v (n : N) :
  k <> k' -> lookup k' (insert_index n k v o) = lookup k' o.
Proof.
  intros Hne. apply String.eqb_neq in Hne.
  induction o as [| [k0 v0] rest IH]; simpl.
  - now rewrite Hne.
  - destruct (array_index k0) as [m |]; [destruct (m <=? n)%N |]; simpl;
      rewrite ?Hne, ?IH; reflexivity.
Qed.

Lemma In_insert_index o k v (n : N) (entry : string * V) :
  In entry (insert_index n k v o) <-> entry = (k, v) \/ In entry o.
Proof.
  induction o as [| [k' v'] rest IH]; simpl.
  - intuition.
  - destruct (array_index k') as [m |]; [destruct (m <=? n)%N |]; simpl;
      rewrite ?IH; intuition.
Qed.

Lemma forallb_keys_insert (p : string -> bool) o k v (n : N) :
  forallb p (keys (insert_index n k v o)) = p k && forallb p (keys o).
Proof.
  induction o as [| [k' v'] rest IH]; simpl; [reflexivity |].
  destruct (array_index k') as [m |]; [destruct (m <=? n)%N |]; simpl;
    rewrite ?IH; try reflexivity.
  now rewrite !andb_assoc, (andb_comm (p k')).
Qed.

(** A new index that comes after every name of the object goes last. *)
Lemma insert_index_last o k v (n : N) :
  array_index k = Some n ->
  forallb (fun k' => key_before k' k) (keys o) = true ->
  insert_index n k v o = (o ++ [(k, v)])%list.
Proof.
  intros Hk.
  induction o as [| [k' v'] rest IH]; simpl; intros Hbefore; [reflexivity |].
  apply andb_true_iff in Hbefore as (Hhead & Hrest).
  unfold key_before in Hhead. rewrite Hk in Hhead.
  destruct (array_index k') as [m |]; [| discriminate].
  now rewrite Hhead, IH.
Qed.

Lemma key_before_trans_index k k' k'' (n : N) :
  array_index k = Some n -> key_before k' k'' = true ->
  (forall m, array_index k' = Some m -> (n <=? m)%N = true) ->
  key_before k k'' = true.
Proof.
  unfold key_before. intros -> Hbefore Hle.
  destruct (array_index k') as [m |], (array_index k'') as [m' |];
    try reflexivity; try discriminate.
  specialize (Hle m eq_refl).
  apply N.leb_le in Hle, Hbefore. apply N.leb_le. lia.
Qed.

Lemma own_property_order_insert o k v (n : N) :
  array_index k = Some n ->
  own_property_order (keys o) = true ->
  own_property_order (keys (insert_index n k v o)) = true.
Proof.
  intros Hk.
  induction o as [| [k' v'] rest IH]; simpl; intros Hordered; [reflexivity |].
  apply andb_true_iff in Hordered as (Hhead & Hrest).
  assert (Hstop : (forall m, array_index k' = Some m -> (n <=? m)%N = true) ->
                  forallb (key_before k) (k' :: keys rest) = true).
  { intros Hle. simpl. apply andb_true_iff. split.
    - unfold key_before. rewrite Hk.
      destruct (array_index k') as [m |]; [now apply Hle | reflexivity].
    - rewrite forallb_forall in *. intros k'' Hin.
      specialize (Hhead k'' Hin).
      now apply (key_before_trans_index k k' k'' n). }
  destruct (array_index k') as [m |] eqn:Hk'.
  - destruct (N.leb_spec m n) as [Hle | Hgt]; simpl.
    + rewrite forallb_keys_insert, Hhead, (IH Hrest), !andb_true_r.
      unfold key_before. rewrite Hk', Hk. now apply N.leb_le.
    + rewrite Hhead, Hrest, !andb_true_r.
      apply Hstop. intros m' [= <-]. apply N.leb_le. lia.
  - simpl. rewrite Hhead, Hrest, !andb_true_r.
    apply Hstop. discriminate.
Qed.

(** *** Assignment *)

Lemma lookup_set_same o k v : lookup k (set o k v) = Some v.
Proof.
  unfold set. destruct (lookup k o) as [v0 |] eqn:Hk.
  - apply lookup_replace_same. congruence.
  - destruct (array_index k) as [n |].
    + now apply lookup_insert_same.
    + now apply lookup_app_last.
Qed.

Lemma lookup_set_other o k k' v : k <> k' -> lookup k' (set o k v) = lookup k' o.
Proof.
  intros Hne. unfold set. destruct (lookup k o) as [v0 |].
  - now apply lookup_replace_other.
  - destruct (array_index k) as [n |].
    + now apply lookup_insert_other.
    + now apply lookup_app_fresh.
Qed.

Lemma set_present o k v : In k (keys o) -> set o k v = replace o k v.
Proof.
  intros Hin. unfold set. destruct (lookup k o) eqn:Hk; [reflexivity |].
  apply lookup_None_iff in Hk. contradiction.
Qed.

(** A new property whose name comes after every name of the object goes
    last. *)
Lemma set_last o k v :
  lookup k o = None ->
  forallb (fun k' => key_before k' k) (keys o) = true ->
  set o k v = (o ++ [(k, v)])%list.
Proof.
  intros Hfresh Hbefore. unfold set. rewrite Hfresh.
  destruct (array_index k) as [n |] eqn:Hk; [| reflexivity].
  now apply insert_index_last.
Qed.

(** A new property whose name is no array index goes last. *)
Lemma set_name o k v :
  lookup k o = None -> array_index k = None -> set o k v = (o ++ [(k, v)])%list.
Proof. intros Hfresh Hk. unfold set. now rewrite Hfresh, Hk. Qed.

Lemma keys_set_present o k v : In k (keys o) -> keys (set o k v) = keys o.
Proof. intros Hin. rewrite set_present by assumption. apply keys_replace. Qed.

Lemma In_set o k v (entry : string * V) :
  In entry (set o k v) -> In entry o \/ entry = (k, v).
Proof.
  unfold set. destruct (lookup k o).
  - apply In_replace.
  - destruct (array_index k) as [n |].
    + rewrite In_insert_index. tauto.
    + rewrite in_app_iff. simpl. intuition.
Qed.

Lemma In_spread a b (entry : string * V) :
  In entry (spread a b) -> In entry a \/ In entry b.
Proof.
  unfold spread. revert a.
  induction b as [| [k v] b IH]; intros a; simpl; [auto |].
  intros Hin. destruct (IH _ Hin) as [Ha | Hb]; [| auto].
  destruct (In_set _ _ _ _ Ha) as [Ha' | ->]; auto.
Qed.

Lemma set_values (P : V -> Prop) o k v :
  Forall (fun entry => P (snd entry)) o -> P v ->
  Forall (fun entry => P (snd entry)) (set o k v).
Proof.
  intros Ho Hv. rewrite Forall_forall in *.
  intros entry Hin. destruct (In_set _ _ _ _ Hin) as [Hin' | ->]; auto.
Qed.

Lemma replace_insert_index o k v v' (n : N) :
  lookup k o = None -> replace (insert_index n k v o) k v' = insert_index n k v' o.
Proof.
  induction o as [| [k' x] rest IH]; simpl; intros Hk.
  - now rewrite String.eqb_refl.
  - destruct (k' =? k) eqn:E; [discriminate |].
    destruct (array_index k') as [m |]; [destruct (m <=? n)%N |]; simpl;
      rewrite ?E, ?String.eqb_refl, ?IH; auto.
Qed.

Lemma replace_app_last o k v v' :
  lookup k o = None -> replace (o ++ [(k, v)])%list k v' = (o ++ [(k, v')])%list.
Proof.
  induction o as [| [k' x] rest IH]; simpl; intros Hk.
  - now rewrite String.eqb_refl.
  - destruct (k' =? k) eqn:E; [discriminate |]. now rewrite IH.
Qed.

Lemma set_set_same o k v v' : set (set o k v) k v' = set o k v'.
Proof.
  unfold set at 1. rewrite lookup_set_same.
  unfold set. destruct (lookup k o) as [v0 |] eqn:Hk.
  - apply replace_replace.
  - destruct (array_index k) as [n |].
    + now apply replace_insert_index.
    + now apply replace_app_last.
Qed.

Lemma set_set_other o k k' v v' :
  k <> k' -> In k (keys o) -> In k' (keys o) ->
  set (set o k v) k' v' = set (set o k' v') k v.
Proof.
  intros Hne Hk Hk'.
  rewrite (set_present o k), (set_present o k') by assumption.
  rewrite !set_present by (rewrite keys_replace; assumption).
  now apply replace_commute.
Qed.

(** *** The order of the names *)

Lemma own_property_order_app (l1 l2 : list string) :
  own_property_order (l1 ++ l2) = true ->
  own_property_order l1 = true /\ own_property_order l2 = true
  /\ forall k k', In k l1 -> In k' l2 -> key_before k k' = true.
Proof.
  induction l1 as [| k0 l1 IH]; simpl; intros H.
  - repeat split; [exact H | contradiction].
  - apply andb_true_iff in H as (Hhead & Hrest).
    rewrite forallb_app in Hhead. apply andb_true_iff in Hhead as (Hhead1 & Hhead2).
    destruct (IH Hrest) as (H1 & H2 & Hcross).
    rewrite Hhead1, H1. repeat split; [exact H2 |].
    intros k k' [<- | Hk] Hk'; [| now apply Hcross].
    rewrite forallb_forall in Hhead2. now apply Hhead2.
Qed.

Lemma own_property_order_filter (p : string -> bool) (l : list string) :
  own_property_order l = true -> own_property_order (filter p l) = true.
Proof.
  induction l as [| k l IH]; simpl; intros H; [reflexivity |].
  apply andb_true_iff in H as (Hhead & Hrest).
  destruct (p k); simpl; [| now apply IH].
  rewrite IH by assumption. rewrite andb_true_r.
  rewrite forallb_forall in *. intros k' Hk'.
  apply filter_In in Hk' as (Hk' & _). now apply Hhead.
Qed.

Lemma wf_object_check (o : list (string * V)) : is_object o = true -> wf_object o.
Proof.
  unfold is_object, wf_object. intros H.
  apply andb_true_iff in H as (Hdistinct & Hordered).
  split; [| exact Hordered].
  clear Hordered. induction (keys o) as [| k ks IH]; simpl in *; constructor.
  - apply andb_true_iff in Hdistinct as (Hk & _).
    apply negb_true_iff in Hk. intros Hin.
    assert (existsb (String.eqb k) ks = true); [| congruence].
    apply existsb_exists. exists k. split; [exact Hin | apply String.eqb_refl].
  - apply IH. now apply andb_true_iff in Hdistinct as (_ & Hks).
Qed.

Lemma wf_object_is_object (o : list (string * V)) : wf_object o -> is_object o = true.
Proof.
  unfold is_object, wf_object. intros (Hnodup & Hordered).
  rewrite Hordered, andb_true_r.
  clear Hordered. induction Hnodup as [| k ks Hnotin _ IH]; simpl; [reflexivity |].
  rewrite IH, andb_true_r. apply negb_true_iff.
  destruct (existsb (String.eqb k) ks) eqn:E; [| reflexivity].
  apply existsb_exists in E as (k' & Hin & Heq).
  apply String.eqb_eq in Heq. subst k'. contradiction.
Qed.

Lemma wf_object_nil : wf_object ([] : list (string * V)).
Proof. split; [constructor | reflexivity]. Qed.

Lemma wf_object_tail (entry : string * V) o : wf_object (entry :: o) -> wf_object o.
Proof.
  unfold wf_object. simpl. intros (Hnodup & Hordered).
  apply andb_true_iff in Hordered as (_ & Hordered).
  split; [now inversion Hnodup | exact Hordered].
Qed.

Lemma wf_object_filter (p : string * V -> bool) o :
  wf_object o -> wf_object (filter p o).
Proof.
  intros (Hnodup & Hordered).
  assert (Hkeys : keys (filter p o)
                  = filter (fun k => match lookup k o with
                                     | Some v => p (k, v)
                                     | None => false
                                     end) (keys o)).
  { clear Hordered.
    induction o as [| [k v] o IH]; simpl in *; [reflexivity |].
    inversion Hnodup as [| ? ? Hnotin Hnodup']; subst.
    rewrite String.eqb_refl.
    assert (Hrest : filter (fun k0 => match (if k =? k0 then Some v else lookup k0 o) with
                                      | Some v0 => p (k0, v0)
                                      | None => false
                                      end) (keys o)
                    = filter (fun k0 => match lookup k0 o with
                                        | Some v0 => p (k0, v0)
                                        | None => false
                                        end) (keys o)).
    { apply filter_ext_in. intros k0 Hk0.
      destruct (String.eqb_spec k k0) as [-> | _]; [contradiction | reflexivity]. }
    destruct (p (k, v)); simpl; rewrite Hrest; [f_equal |]; now apply IH. }
  split; rewrite Hkeys.
  - now apply NoDup_filter.
  - now apply own_property_order_filter.
Qed.

Lemma keys_set_wf o k v : wf_object o -> wf_object (set o k v).
Proof.
  intros (Hnodup & Hordered). unfold wf_object, set.
  destruct (lookup k o) as [v0 |] eqn:Hk.
  - rewrite keys_replace. now split.
  - assert (Hfresh : ~ In k (keys o)) by now apply lookup_None_iff.
    destruct (array_index k) as [n |] eqn:Hindex; split.
    + clear Hordered. unfold keys in *.
      induction o as [| [k' v'] rest IH]; simpl in *.
      * constructor; [tauto | constructor].
      * inversion Hnodup as [| ? ? Hnotin Hnodup']; subst.
        destruct (k' =? k) eqn:E; [discriminate |]. apply String.eqb_neq in E.
        assert (Hcons : NoDup (k :: k' :: map fst rest)).
        { constructor; [simpl; intuition | exact Hnodup]. }
        destruct (array_index k') as [m |]; [destruct (m <=? n)%N |]; simpl;
          try exact Hcons.
        constructor; [| apply IH; auto].
        intros Hin. apply in_map_iff in Hin as (entry & Hentry & Hin).
        apply In_insert_index in Hin as [-> | Hin]; [simpl in Hentry; congruence |].
        apply Hnotin. rewrite <- Hentry. now apply in_map.
    + now apply own_property_order_insert.
    + unfold keys in *. rewrite map_app. simpl.
      apply NoDup_app; [exact Hnodup | repeat constructor; auto |].
      intros k' Hk' [<- | []]. contradiction.
    + unfold keys in *. rewrite map_app. simpl.
      clear Hnodup Hk Hfresh.
      induction (map fst o) as [| k' ks IH]; simpl in *; [reflexivity |].
      apply andb_true_iff in Hordered as (Hhead & Hrest).
      rewrite forallb_app, Hhead, (IH Hrest). simpl.
      unfold key_before. rewrite Hindex. now destruct (array_index k').
Qed.

Lemma spread_wf a b : wf_object a -> wf_object (spread a b).
Proof.
  unfold spread. revert a.
  induction b as [| [k v] b IH]; intros a Hwf; simpl; [exact Hwf |].
  apply IH. now apply keys_set_wf.
Qed.

(** *** Spreading *)

(** Properties under new names that come in the order of [Object.keys]
    are added at the end. *)
Lemma spread_fresh a b :
  NoDup (keys a ++ keys b)%list -> own_property_order (keys a ++ keys b)%list = true ->
  spread a b = (a ++ b)%list.
Proof.
  unfold spread. revert a.
  induction b as [| [k v] rest IH]; intros a Hnd Hordered; simpl.
  - now rewrite app_nil_r.
  - rewrite set_last.
    + rewrite IH.
      * now rewrite <- app_assoc.
      * unfold keys in *. rewrite map_app. simpl. rewrite <- app_assoc. exact Hnd.
      * unfold keys in *. rewrite map_app. simpl. rewrite <- app_assoc. exact Hordered.
    + apply lookup_None_iff. simpl in Hnd.
      apply NoDup_remove_2 in Hnd. intros Hin. apply Hnd.
      apply in_or_app. now left.
    + apply own_property_order_app in Hordered as (_ & _ & Hcross).
      apply forallb_forall. intros k' Hk'. apply Hcross; [exact Hk' | now left].
Qed.

(** Copying an object into a fresh one gives it back. *)
Lemma spread_nil_wf o : wf_object o -> spread [] o = o.
Proof. intros (Hnodup & Hordered). now rewrite spread_fresh. Qed.

(** The value [{ ...a, ...b }] holds under [k]: that of [b] when [b] has
    the key, else that of [a]. *)
Lemma lookup_spread a b k :
  NoDup (keys b) ->
  lookup k (spread a b) = match lookup k b with
                          | Some v => Some v
                          | None => lookup k a
                          end.
Proof.
  unfold spread. intros Hnd. revert a.
  induction b as [| [k' v'] rest IH]; intros a; simpl.
  - reflexivity.
  - inversion Hnd as [| ? ? Hnotin Hnd']; subst.
    rewrite (IH Hnd'). simpl.
    destruct (k' =? k) eqn:E.
    + apply String.eqb_eq in E; subst k'.
      assert (lookup k rest = None) as -> by now apply lookup_None_iff.
      apply lookup_set_same.
    + apply String.eqb_neq in E.
      destruct (lookup k rest); [reflexivity | now apply lookup_set_other].
Qed.

Lemma keys_set_name o k v :
  lookup k o = None -> array_index k = None -> keys (set o k v) = (keys o ++ [k])%list.
Proof.
  intros Hfresh Hk. rewrite set_name by assumption.
  unfold keys. now rewrite map_app.
Qed.

(** The keys of [{ ...a, ...b }] when no name of [b] is an array index:
    those of [a], then those of [b] that [a] does not have. *)
Lemma keys_spread a b :
  NoDup (keys b) -> Forall (fun k => array_index k = None) (keys b) ->
  keys (spread a b)
  = (keys a ++ filter (fun k => match lookup k a with Some _ => false | None => true end)
                      (keys b))%list.
Proof.
  unfold spread. revert a.
  induction b as [| [k v] b IH]; intros a Hnodup Hnames; simpl.
  - now rewrite app_nil_r.
  - inversion Hnodup as [| ? ? Hnotin Hnodup']; subst.
    inversion Hnames as [| ? ? Hk Hnames']; subst. simpl in Hk.
    rewrite (IH _ Hnodup' Hnames').
    destruct (lookup k a) as [v0 |] eqn:Hlookup.
    + rewrite keys_set_present by (eapply lookup_Some_keys; eassumption).
      f_equal. apply filter_ext_in. intros k' Hk'.
      destruct (String.eqb_spec k k') as [-> | Hne]; [contradiction |].
      now rewrite lookup_set_other.
    + rewrite keys_set_name by assumption. rewrite <- app_assoc. simpl.
      do 2 f_equal. apply filter_ext_in. intros k' Hk'.
      destruct (String.eqb_spec k k') as [-> | Hne]; [contradiction |].
      now rewrite lookup_set_other.
Qed.

Lemma names_ordered (names : list string) :
  Forall (fun k => array_index k = None) names -> own_property_order names = true.
Proof.
  induction 1 as [| k names Hk Hnames IH]; simpl; [reflexivity |].
  rewrite IH, andb_true_r. apply forallb_forall. intros k' Hk'.
  rewrite Forall_forall in Hnames.
  unfold key_before. now rewrite Hk, (Hnames k' Hk').
Qed.

(** An object literal has the members it declares, listed in the order
    of [Object.keys]; that is the order of the declaration when no name
    is an array index. *)
Lemma object_literal_wf (declared : list (string * V)) :
  wf_object (object_literal declared).
Proof. apply spread_wf, wf_object_nil. Qed.

Lemma object_literal_In (declared : list (string * V)) (entry : string * V) :
  NoDup (keys declared) ->
  In entry (object_literal declared) <-> In entry declared.
Proof.
  intros Hnodup. destruct entry as [k v].
  assert (Hlookup : lookup k (object_literal declared) = lookup k declared).
  { unfold object_literal. rewrite lookup_spread by assumption.
    now destruct (lookup k declared). }
  split; intros Hin.
  - apply lookup_Some_In. rewrite <- Hlookup.
    apply lookup_In; [apply object_literal_wf | exact Hin].
  - apply lookup_Some_In. rewrite Hlookup. now apply lookup_In.
Qed.

Lemma object_literal_names (declared : list (string * V)) :
  NoDup (keys declared) -> Forall (fun k => array_index k = None) (keys declared) ->
  object_literal declared = declared.
Proof.
  intros Hnodup Hnames. apply spread_nil_wf.
  split; [exact Hnodup | now apply names_ordered].
Qed.

End PropertyLemmas.

(** Shows that a given property list is an object, by running the test. *)
Ltac wf_object_by_test := apply wf_object_check; reflexivity.

(** ** The combination enumerator: unfolding *)

Lemma combine_done (options : propOptions) (current : object) :
  combine options (length (keys options)) current = [current].
Proof.
  simp combine.
  destruct (Nat.eq_dec (length (keys options)) (length (keys options))) as [e | Hne];
    [reflexivity | contradiction].
Qed.

Lemma combine_step (options : propOptions) (index : nat) (key : string) (current : object) :
  nth_error (keys options) index = Some key ->
  combine options index current
  = flat_map (fun value => combine options (S index) (set (spread [] current) key value))
             (candidates options key).
Proof.
  intros Hkey.
  simp combine.
  destruct (Nat.eq_dec index (length (keys options))) as [Heq | Hne].
  - exfalso.
    assert (index < length (keys options)) by (apply nth_error_Some; congruence).
    lia.
  - simp combine.
    generalize (inspect (nth_error (keys options) index)).
    intros [[k |] Hk]; simp combine; [| congruence].
    replace k with key by congruence. reflexivity.
Qed.

(** From any index up to [keys.length], [combine] assigns the remaining
    keys one after the other. *)
Lemma combine_along (options : propOptions) (done rest : list string) (current : object) :
  keys options = (done ++ rest)%list ->
  combine options (length done) current = combine_rest options rest current.
Proof.
  revert done current.
  induction rest as [| key rest IH]; intros done current Hkeys.
  - rewrite app_nil_r in Hkeys. rewrite <- Hkeys. apply combine_done.
  - rewrite (combine_step options (length done) key).
    + simpl. apply flat_map_ext. intros value.
      replace (S (length done)) with (length (done ++ [key])%list)
        by (rewrite length_app; simpl; lia).
      apply IH. now rewrite <- app_assoc.
    + rewrite Hkeys, nth_error_app2, Nat.sub_diag by lia. reflexivity.
Qed.

Lemma getAllCombinations_unfold (options : propOptions) :
  options <> [] ->
  getAllCombinations options = combine_rest options (keys options) [].
Proof.
  intros Hne. unfold getAllCombinations.
  destruct (keys options) as [| k ks] eqn:E.
  - destruct options; [contradiction | discriminate].
  - rewrite <- E. now apply (combine_along options [] (keys options)).
Qed.

Lemma combine_rest_length (options : propOptions) (rest : list string) (current : object) :
  length (combine_rest options rest current)
  = product (map (fun key => length (candidates options key)) rest).
Proof.
  revert current. induction rest as [| key rest IH]; intros current; simpl.
  - reflexivity.
  - apply flat_map_constant_length. intros value _. apply IH.
Qed.

(** In a well-formed mapping, [options[key]] is the list declared with [key]. *)
Lemma candidates_own (options : propOptions) (entry : string * option (list value)) :
  wf_object options -> In entry options ->
  candidates options (fst entry) = own_candidates entry.
Proof.
  intros Hwf Hin. destruct entry as [k vs]. unfold candidates, own_candidates. simpl.
  now rewrite (lookup_In options k vs (proj1 Hwf) Hin).
Qed.

Lemma candidate_lengths (options : propOptions) :
  wf_object options ->
  map (fun key => length (candidates options key)) (keys options)
  = map (fun entry => length (own_candidates entry)) options.
Proof.
  intros Hwf. unfold keys. rewrite map_map. apply map_ext_in.
  intros entry Hin. now rewrite candidates_own.
Qed.

Lemma product_zero (ns : list nat) : In 0 ns -> product ns = 0.
Proof.
  induction ns as [| n ns IH]; simpl; intros H.
  - contradiction.
  - destruct H as [-> | H]; [reflexivity | rewrite IH by assumption; lia].
Qed.

(** C1: on a mapping of k >= 1 properties whose candidate lists have
    lengths n1..nk, [getAllCombinations] returns exactly n1 * ... * nk
    combinations; it returns the empty sequence when k = 0 and when some
    candidate list is empty. *)
Theorem getAllCombinations_count (options : propOptions) :
  wf_object options ->
  (options <> [] ->
   length (getAllCombinations options)
   = product (map (fun entry => length (own_candidates entry)) options))
  /\ (options = [] -> getAllCombinations options = [])
  /\ ((exists entry, In entry options /\ own_candidates entry = []) ->
      getAllCombinations options = []).
Proof.
  intros Hwf.
  assert (Hcount : options <> [] ->
            length (getAllCombinations options)
            = product (map (fun entry => length (own_candidates entry)) options)).
  { intros Hne.
    rewrite getAllCombinations_unfold, combine_rest_length by assumption.
    now rewrite candidate_lengths. }
  split; [exact Hcount | split].
  - intros ->. reflexivity.
  - intros (entry & Hin & Hempty).
    apply length_zero_iff_nil.
    rewrite Hcount by (intros ->; contradiction).
    apply product_zero.
    apply in_map_iff. exists entry. now rewrite Hempty.
Qed.

Lemma accordion_propOptions_wf : wf_object accordion_propOptions.
Proof. wf_object_by_test. Qed.

Lemma getAllCombinations_count_witness :
  wf_object accordion_propOptions
  /\ length (getAllCombinations accordion_propOptions) = 24
  /\ getAllCombinations
       [("variant", Some [VString "outline"; VString "soft"]); ("closeButtonType", Some [])]
     = [].
Proof.
  split; [exact accordion_propOptions_wf | split].
  - apply (proj1 (getAllCombinations_count accordion_propOptions accordion_propOptions_wf)).
    discriminate.
  - assert (Hwf : wf_object
                    [("variant", Some [VString "outline"; VString "soft"]);
                     ("closeButtonType", Some ([] : list value))]).
    { wf_object_by_test. }
    apply (proj2 (proj2 (getAllCombinations_count _ Hwf))).
    exists ("closeButtonType", Some []). split; [right; left |]; reflexivity.
Defined.

(** ** The combination enumerator: order and content *)

Lemma map_nth_seq {A : Type} (l : list A) (d : A) :
  map (fun i => nth i l d) (seq 0 (length l)) = l.
Proof.
  induction l as [| x l IH]; simpl.
  - reflexivity.
  - f_equal. rewrite <- seq_shift, map_map. exact IH.
Qed.

Lemma flat_map_map {A B C : Type} (g : A -> B) (f : B -> list C) (l : list A) :
  flat_map f (map g l) = flat_map (fun x => f (g x)) l.
Proof.
  induction l as [| x l IH]; simpl; [reflexivity | now rewrite IH].
Qed.

Lemma map_flat_map {A B C : Type} (f : A -> list B) (g : B -> C) (l : list A) :
  map g (flat_map f l) = flat_map (fun x => map g (f x)) l.
Proof.
  induction l as [| x l IH]; simpl; [reflexivity | now rewrite map_app, IH].
Qed.

(** Starting from [current], the remaining entries are assigned at the end
    of it, tuple by tuple. *)
Lemma combine_rest_tuples (options rest : propOptions) (current : object) :
  NoDup (keys current ++ keys rest)%list ->
  own_property_order (keys current ++ keys rest)%list = true ->
  (forall entry, In entry rest -> candidates options (fst entry) = own_candidates entry) ->
  combine_rest options (keys rest) current
  = map (fun t => (current ++ assignment rest t)%list)
        (index_tuples (map (fun entry => length (own_candidates entry)) rest)).
Proof.
  revert current.
  induction rest as [| entry rest IH]; intros current Hnd Hordered Hown; simpl.
  - now rewrite app_nil_r.
  - rewrite (Hown entry) by now left.
    rewrite map_flat_map.
    rewrite <- (map_nth_seq (own_candidates entry) VUndefined) at 1.
    rewrite flat_map_map.
    apply flat_map_ext. intros i.
    pose proof (own_property_order_app _ _ Hordered) as (Hcurrent & _ & Hcross).
    rewrite spread_nil_wf
      by (split; [eapply NoDup_app_remove_r; exact Hnd | exact Hcurrent]).
    rewrite set_last.
    + rewrite IH.
      * rewrite map_map. apply map_ext. intros t. simpl. now rewrite <- app_assoc.
      * unfold keys in *. rewrite map_app, <- app_assoc. exact Hnd.
      * unfold keys in *. rewrite map_app, <- app_assoc. exact Hordered.
      * intros e He. apply Hown. now right.
    + apply lookup_None_iff. simpl in Hnd. apply NoDup_remove_2 in Hnd.
      intros Hin. apply Hnd. apply in_or_app. now left.
    + apply forallb_forall. intros k Hk. apply Hcross; [exact Hk | now left].
Qed.

Lemma getAllCombinations_tuples (options : propOptions) :
  wf_object options -> options <> [] ->
  getAllCombinations options
  = map (assignment options)
        (index_tuples (map (fun entry => length (own_candidates entry)) options)).
Proof.
  intros Hwf Hne.
  rewrite getAllCombinations_unfold by assumption.
  rewrite combine_rest_tuples.
  - reflexivity.
  - exact (proj1 Hwf).
  - exact (proj2 Hwf).
  - intros entry Hin. now apply candidates_own.
Qed.

Lemma StronglySorted_app {A : Type} (R : A -> A -> Prop) (l1 l2 : list A) :
  StronglySorted R l1 -> StronglySorted R l2 ->
  (forall x y, In x l1 -> In y l2 -> R x y) ->
  StronglySorted R (l1 ++ l2).
Proof.
  induction l1 as [| a l1 IH]; simpl; intros H1 H2 Hcross.
  - exact H2.
  - inversion H1 as [| ? ? Hs Hall]; subst.
    constructor.
    + apply IH; auto.
    + apply Forall_app. split; [exact Hall |].
      apply Forall_forall. intros y Hy. apply Hcross; auto.
Qed.

Lemma StronglySorted_map_cons (i : nat) (tuples : list (list nat)) :
  StronglySorted lex_lt tuples -> StronglySorted lex_lt (map (cons i) tuples).
Proof.
  induction 1 as [| t tuples Hs IH Hall]; simpl; constructor.
  - exact IH.
  - apply Forall_map. eapply Forall_impl; [| exact Hall].
    intros u Hu. now apply lex_next.
Qed.

Lemma index_tuples_block_sorted (tuples : list (list nat)) (start len : nat) :
  StronglySorted lex_lt tuples ->
  StronglySorted lex_lt (flat_map (fun i => map (cons i) tuples) (seq start len)).
Proof.
  intros Hs. revert start.
  induction len as [| len IH]; intros start; simpl.
  - constructor.
  - apply StronglySorted_app.
    + now apply StronglySorted_map_cons.
    + apply IH.
    + intros x y Hx Hy.
      apply in_map_iff in Hx as (t & <- & _).
      apply in_flat_map in Hy as (j & Hj & Hy).
      apply in_map_iff in Hy as (u & <- & _).
      apply in_seq in Hj. apply lex_here. lia.
Qed.

Lemma index_tuples_sorted (bounds : list nat) :
  StronglySorted lex_lt (index_tuples bounds).
Proof.
  induction bounds as [| n bounds IH]; simpl.
  - repeat constructor.
  - now apply index_tuples_block_sorted.
Qed.

Lemma index_tuples_spec {A : Type} (size : A -> nat) (l : list A) (t : list nat) :
  In t (index_tuples (map size l)) <-> Forall2 (fun i x => i < size x) t l.
Proof.
  revert t. induction l as [| x l IH]; intros t; simpl.
  - split.
    + intros [<- | []]. constructor.
    + intros H. inversion H. now left.
  - rewrite in_flat_map. split.
    + intros (i & Hi & Ht).
      apply in_map_iff in Ht as (u & <- & Hu).
      apply in_seq in Hi. constructor; [lia | now apply IH].
    + intros H. inversion H as [| i ? u ? Hi Hu]; subst.
      exists i. split; [apply in_seq; lia |].
      apply in_map. now apply IH.
Qed.

Lemma getAllCombinations_sorted (options : propOptions) :
  wf_object options -> options <> [] ->
  exists tuples : list (list nat),
    getAllCombinations options = map (assignment options) tuples
    /\ StronglySorted lex_lt tuples
    /\ (forall t, In t tuples
                  <-> Forall2 (fun i entry => i < length (own_candidates entry)) t options).
Proof.
  intros Hwf Hne.
  exists (index_tuples (map (fun entry => length (own_candidates entry)) options)).
  split; [now apply getAllCombinations_tuples | split].
  - apply index_tuples_sorted.
  - intros t. apply index_tuples_spec.
Qed.

(** C2 as stated fails: where a property name is an array index, the
    order of the declaration is not the order of the enumeration.  For
    [{ b: [x, y], 1: [p, q] }] the property [b], declared first, changes
    from each combination to the next, where the order of the declaration
    keeps it at [x] for the first two. *)
Lemma getAllCombinations_not_declaration_order :
  let declared : propOptions :=
    [("b", Some [VString "x"; VString "y"]); ("1", Some [VString "p"; VString "q"])] in
  map (lookup "b") (getAllCombinations (object_literal declared))
  = [Some (VString "x"); Some (VString "y"); Some (VString "x"); Some (VString "y")]
  /\ map (lookup "b") (declaration_order declared)
     = [Some (VString "x"); Some (VString "x"); Some (VString "y"); Some (VString "y")].
Proof. split; reflexivity. Qed.

(** C2 (as amended): the combinations come in lexicographic order of the
    properties as [Object.keys] lists them.  For a mapping declared with
    distinct names, the object has the declared properties, the array
    indices among the names first, in ascending order, and the other
    names after them.  The combinations are the assignments of the index
    tuples (one position per property of the object, in its order, each
    below the length of its candidate list), every such tuple exactly
    once, listed in strictly increasing lexicographic order with the
    first property of the object most significant; a position stands for
    the candidate at that place of the list.  When no name is an array
    index the order of the object is the order of the declaration, and
    the enumeration is the one in declaration order. *)
Theorem getAllCombinations_lexicographic (declared : propOptions) :
  NoDup (keys declared) -> declared <> [] ->
  let options := object_literal declared in
  (forall entry, In entry options <-> In entry declared)
  /\ own_property_order (keys options) = true
  /\ (exists tuples : list (list nat),
        getAllCombinations options = map (assignment options) tuples
        /\ StronglySorted lex_lt tuples
        /\ (forall t, In t tuples
                      <-> Forall2 (fun i entry => i < length (own_candidates entry))
                                  t options))
  /\ (Forall (fun k => array_index k = None) (keys declared) ->
      options = declared /\ getAllCombinations options = declaration_order declared).
Proof.
  intros Hnodup Hne options.
  assert (Hwf : wf_object options) by apply object_literal_wf.
  assert (Hne' : options <> []).
  { destruct declared as [| entry declared]; [contradiction |].
    intros Hnil.
    assert (Hin : In entry options) by (apply object_literal_In; [assumption | now left]).
    rewrite Hnil in Hin. contradiction. }
  split; [intros entry; now apply object_literal_In |].
  split; [exact (proj2 Hwf) |].
  split; [now apply getAllCombinations_sorted |].
  intros Hnames.
  assert (Hsame : options = declared) by now apply object_literal_names.
  split; [exact Hsame |].
  rewrite Hsame in *. now apply getAllCombinations_tuples.
Qed.

Lemma getAllCombinations_lexicographic_witness :
  NoDup (keys accordion_propOptions)
  /\ accordion_propOptions <> []
  /\ object_literal accordion_propOptions = accordion_propOptions
  /\ getAllCombinations (object_literal accordion_propOptions)
     = declaration_order accordion_propOptions.
Proof.
  assert (Hnodup : NoDup (keys accordion_propOptions)) by exact (proj1 accordion_propOptions_wf).
  assert (Hne : accordion_propOptions <> []) by discriminate.
  split; [exact Hnodup | split; [exact Hne |]].
  apply (getAllCombinations_lexicographic accordion_propOptions Hnodup Hne).
  repeat constructor.
Defined.

Lemma assignment_keys (options : propOptions) (t : list nat) :
  Forall2 (fun i entry => i < length (own_candidates entry)) t options ->
  keys (assignment options t) = keys options.
Proof.
  induction 1 as [| i entry t options Hi Hrest IH]; simpl; [reflexivity | now rewrite IH].
Qed.

Lemma assignment_In (options : propOptions) (t : list nat) (entry : string * option (list value)) :
  Forall2 (fun i entry => i < length (own_candidates entry)) t options ->
  In entry options ->
  exists v, In (fst entry, v) (assignment options t) /\ In v (own_candidates entry).
Proof.
  induction 1 as [| i e t options Hi Hrest IH]; simpl; intros Hin.
  - contradiction.
  - destruct Hin as [-> | Hin].
    + exists (nth i (own_candidates entry) VUndefined). split; [now left | now apply nth_In].
    + destruct (IH Hin) as (v & Hv & Hc). exists v. split; [now right | exact Hc].
Qed.

Lemma combination_assigns (options : propOptions) (combo : object) :
  wf_object options ->
  In combo (getAllCombinations options) ->
  keys combo = keys options
  /\ forall entry, In entry options ->
       exists v, lookup (fst entry) combo = Some v /\ In v (own_candidates entry).
Proof.
  intros Hwf Hin.
  assert (Hne : options <> []) by (intros ->; contradiction).
  rewrite getAllCombinations_tuples in Hin by assumption.
  apply in_map_iff in Hin as (t & <- & Ht).
  apply index_tuples_spec in Ht.
  pose proof (assignment_keys options t Ht) as Hkeys.
  split; [exact Hkeys |].
  intros entry Hentry.
  destruct (assignment_In options t entry Ht Hentry) as (v & Hv & Hc).
  exists v. split; [| exact Hc].
  apply lookup_In; [| exact Hv].
  rewrite Hkeys. exact (proj1 Hwf).
Qed.

(** C3: every combination is a full assignment.  Its property names are
    those of the mapping, in the same order, and under each of them it
    holds an element of that property's candidate list. *)
Theorem getAllCombinations_full_assignment (options : propOptions) (combo : object) :
  wf_object options -> options <> [] ->
  In combo (getAllCombinations options) ->
  keys combo = keys options
  /\ forall entry, In entry options ->
       exists v, lookup (fst entry) combo = Some v /\ In v (own_candidates entry).
Proof.
  intros Hwf _. now apply combination_assigns.
Qed.

Lemma getAllCombinations_full_assignment_witness :
  wf_object accordion_propOptions
  /\ accordion_propOptions <> []
  /\ In accordion_combo (getAllCombinations accordion_propOptions)
  /\ keys accordion_combo = keys accordion_propOptions
  /\ forall entry, In entry accordion_propOptions ->
       exists v, lookup (fst entry) accordion_combo = Some v /\ In v (own_candidates entry).
Proof.
  assert (Hin : In accordion_combo (getAllCombinations accordion_propOptions)).
  { vm_compute. do 10 right. left. reflexivity. }
  split; [exact accordion_propOptions_wf | split; [discriminate | split; [exact Hin |]]].
  apply (getAllCombinations_full_assignment accordion_propOptions accordion_combo
           accordion_propOptions_wf).
  - discriminate.
  - exact Hin.
Defined.

(** ** The combination enumerator: termination *)

Lemma flatMap_fuel_Some {A B : Type} (f : A -> option (list B)) (g : A -> list B)
      (values : list A) :
  (forall value, In value values -> f value = Some (g value)) ->
  flatMap_fuel f values = Some (flat_map g values).
Proof.
  induction values as [| value rest IH]; simpl; intros H.
  - reflexivity.
  - rewrite H, IH by auto. reflexivity.
Qed.

Lemma flatMap_fuel_inv {A B : Type} (f : A -> option (list B)) (g : A -> list B)
      (values : list A) (result : list B) :
  (forall value r, In value values -> f value = Some r -> r = g value) ->
  flatMap_fuel f values = Some result ->
  result = flat_map g values.
Proof.
  revert result.
  induction values as [| value rest IH]; simpl; intros result H Hres.
  - now injection Hres as <-.
  - destruct (f value) as [here |] eqn:Ehere; [| discriminate].
    destruct (flatMap_fuel f rest) as [there |] eqn:Ethere; [| discriminate].
    injection Hres as <-.
    rewrite (H value here), (IH there); auto.
Qed.

Lemma nth_error_keys (options : propOptions) (index : nat) :
  index < length (keys options) ->
  exists key, nth_error (keys options) index = Some key.
Proof.
  intros Hlt. destruct (nth_error (keys options) index) as [key |] eqn:E.
  - now exists key.
  - apply nth_error_None in E. lia.
Qed.

(** A budget above the distance from [index] to [keys.length] is enough:
    each nested call is one index closer to the end. *)
Lemma combine_fuel_enough (options : propOptions) (fuel index : nat) (current : object) :
  index <= length (keys options) ->
  length (keys options) - index < fuel ->
  combine_fuel options fuel index current = Some (combine options index current).
Proof.
  revert index current.
  induction fuel as [| fuel IH]; intros index current Hle Hfuel; [lia |].
  simpl. destruct (Nat.eqb_spec index (length (keys options))) as [-> | Hne].
  - now rewrite combine_done.
  - destruct (nth_error_keys options index) as (key & Hkey); [lia |].
    rewrite Hkey, (combine_step options index key) by assumption.
    apply flatMap_fuel_Some. intros value _. apply IH; lia.
Qed.

(** Whatever budget a run returns within, it returns the same thing. *)
Lemma combine_fuel_result (options : propOptions) (fuel index : nat) (current : object)
      (result : list object) :
  index <= length (keys options) ->
  combine_fuel options fuel index current = Some result ->
  result = combine options index current.
Proof.
  revert index current result.
  induction fuel as [| fuel IH]; intros index current result Hle Hres; [discriminate |].
  simpl in Hres. destruct (Nat.eqb_spec index (length (keys options))) as [-> | Hne].
  - injection Hres as <-. now rewrite combine_done.
  - destruct (nth_error_keys options index) as (key & Hkey); [lia |].
    rewrite Hkey in Hres. rewrite (combine_step options index key) by assumption.
    eapply flatMap_fuel_inv; [| exact Hres].
    intros value r _ Hr. apply (IH (S index)); [lia | exact Hr].
Qed.

(** C7: the enumerator is total and deterministic.  Read call by call,
    with nothing presupposed about termination, [combine] started at an
    index within the keys returns once the nesting budget exceeds the
    distance from that index to the number of keys, so
    [getAllCombinations] returns on every mapping; and runs on the same
    mapping agree on what they return. *)
Theorem getAllCombinations_total (options : propOptions) :
  (forall index current fuel,
      index <= length (keys options) ->
      length (keys options) - index < fuel ->
      combine_fuel options fuel index current = Some (combine options index current))
  /\ (forall fuel,
         length (keys options) < fuel ->
         getAllCombinations_fuel fuel options = Some (getAllCombinations options))
  /\ (forall fuel fuel' result result',
         getAllCombinations_fuel fuel options = Some result ->
         getAllCombinations_fuel fuel' options = Some result' ->
         result = result').
Proof.
  split; [| split].
  - intros index current fuel. apply combine_fuel_enough.
  - intros fuel Hfuel. unfold getAllCombinations_fuel, getAllCombinations.
    destruct (keys options) as [| k ks] eqn:E; [reflexivity |].
    rewrite <- E in Hfuel. apply combine_fuel_enough; lia.
  - assert (Hres : forall fuel result,
               getAllCombinations_fuel fuel options = Some result ->
               result = getAllCombinations options).
    { intros fuel result. unfold getAllCombinations_fuel, getAllCombinations.
      destruct (keys options) as [| k ks] eqn:E.
      - now intros [= <-].
      - apply combine_fuel_result. lia. }
    intros fuel fuel' result result' H H'.
    now rewrite (Hres _ _ H), (Hres _ _ H').
Qed.

Lemma getAllCombinations_total_witness :
  combine_fuel accordion_propOptions 3 2 accordion_combo
  = Some (combine accordion_propOptions 2 accordion_combo)
  /\ getAllCombinations_fuel 5 accordion_propOptions
     = Some (getAllCombinations accordion_propOptions).
Proof.
  pose proof (getAllCombinations_total accordion_propOptions) as (Hcombine & Hall & _).
  split.
  - apply Hcombine; simpl; lia.
  - apply Hall. simpl. lia.
Defined.

(** ** The serializers: which entries are emitted, and how *)

Lemma is_emitted_present (v : value) :
  is_emitted v = true -> is_present v = true.
Proof. destruct v; simpl; congruence. Qed.

Lemma present_not_emitted (v : value) :
  is_present v = true -> is_emitted v = false -> v = VBool false.
Proof.
  destruct v as [| | [|] | | | | | | | |]; simpl; congruence.
Qed.

Section Lines.
(** The two serializers differ in the callback only. *)
Variable entry_line : string * value -> completion (option string).
Variable reads_as : string -> value -> string -> Prop.

Hypothesis entry_line_false :
  forall key, entry_line (key, VBool false) = Return None.
Hypothesis entry_line_emitted :
  forall key v r,
    is_emitted v = true -> entry_line (key, v) = Return r ->
    exists line, r = Some line /\ Boolean (Some line) = true /\ reads_as key v line.

Lemma lines_emitted (props : object) (lines : list string) :
  (ls <- map_completion entry_line (filter (fun entry => is_present (snd entry)) props) ;;
   Return (filter_Boolean ls)) = Return lines ->
  Forall2 (fun line entry => reads_as (fst entry) (snd entry) line) lines (emitted props).
Proof.
  revert lines.
  induction props as [| [key v] props IH]; intros lines; simpl.
  - intros [= <-]. constructor.
  - destruct (is_present v) eqn:Hpresent.
    + destruct (is_emitted v) eqn:Hemitted.
      * simpl.
        destruct (entry_line (key, v)) as [r | e] eqn:Hline; simpl; [| discriminate].
        destruct (entry_line_emitted key v r Hemitted Hline) as (line & -> & Hnonempty & Hreads).
        destruct (map_completion entry_line
                    (filter (fun entry => is_present (snd entry)) props))
          as [ls | e] eqn:Hrest; simpl; [| discriminate].
        rewrite Hnonempty. intros [= <-].
        constructor; [exact Hreads |].
        apply IH. reflexivity.
      * rewrite (present_not_emitted v Hpresent Hemitted) in *.
        simpl. rewrite entry_line_false. simpl.
        destruct (map_completion entry_line
                    (filter (fun entry => is_present (snd entry)) props))
          as [ls | e] eqn:Hrest; simpl; [| discriminate].
        intros [= <-]. apply IH. reflexivity.
    + assert (is_emitted v = false) as ->.
      { destruct (is_emitted v) eqn:E; [| reflexivity].
        apply is_emitted_present in E. congruence. }
      apply IH.
Qed.
End Lines.

Lemma line_nonempty (key rest : string) : Boolean (Some ("  " ++ key ++ rest)) = true.
Proof. reflexivity. Qed.

Lemma formatJSX_entry_other (key : string) (v : value) :
  typeof v <> TBoolean -> typeof v <> TString ->
  formatJSX_entry (key, v)
  = if is_react_element v then Return (Some ("  " ++ key ++ "={<ReactElement />}"))
    else json <- stringify v ;;
         Return (Some ("  " ++ key ++ "={" ++ template json ++ "}")).
Proof. destruct v; simpl; intros; congruence || reflexivity. Qed.

Lemma generateJSXCode_entry_other (key : string) (v : value) :
  typeof v <> TBoolean -> typeof v <> TString ->
  generateJSXCode_entry (key, v)
  = (json <- stringify v ;;
     Return (Some ("  " ++ key ++ "={" ++ template json ++ "}"))).
Proof. destruct v; simpl; intros; congruence || reflexivity. Qed.

Lemma typeof_cases (v : value) :
  (exists b, v = VBool b) \/ (exists s, v = VString s)
  \/ (typeof v <> TBoolean /\ typeof v <> TString).
Proof.
  destruct v; simpl; eauto; right; right; split; discriminate.
Qed.

Lemma formatJSX_entry_emitted (key : string) (v : value) (r : option string) :
  is_emitted v = true -> formatJSX_entry (key, v) = Return r ->
  exists line, r = Some line /\ Boolean (Some line) = true /\ attribute_of true key v line.
Proof.
  intros Hemitted Hentry.
  destruct (typeof_cases v) as [(b & ->) | [(s & ->) | (Hb & Hs)]].
  - simpl in Hemitted. subst b. injection Hentry as <-.
    eexists. repeat split. constructor.
  - injection Hentry as <-. eexists. repeat split. constructor.
  - rewrite formatJSX_entry_other in Hentry by assumption.
    destruct (is_react_element v) eqn:Helement.
    + injection Hentry as <-. eexists. repeat split. now constructor.
    + destruct (stringify v) as [json | e] eqn:Hjson; simpl in Hentry; [| discriminate].
      injection Hentry as <-. eexists. split; [reflexivity | split].
      * apply (line_nonempty key).
      * now apply attribute_json.
Qed.

Lemma generateJSXCode_entry_emitted (key : string) (v : value) (r : option string) :
  is_emitted v = true -> generateJSXCode_entry (key, v) = Return r ->
  exists line, r = Some line /\ Boolean (Some line) = true /\ attribute_of false key v line.
Proof.
  intros Hemitted Hentry.
  destruct (typeof_cases v) as [(b & ->) | [(s & ->) | (Hb & Hs)]].
  - simpl in Hemitted. subst b. injection Hentry as <-.
    eexists. repeat split. constructor.
  - injection Hentry as <-. eexists. repeat split. constructor.
  - rewrite generateJSXCode_entry_other in Hentry by assumption.
    destruct (stringify v) as [json | e] eqn:Hjson; simpl in Hentry; [| discriminate].
    injection Hentry as <-. eexists. split; [reflexivity | split].
    + apply (line_nonempty key).
    + apply attribute_json; (assumption || discriminate).
Qed.

(** The lines [formatJSX] joins are the emitted entries, one line each, in
    the order of the object. *)
Lemma formatJSX_lines_emitted (props : object) (lines : list string) :
  formatJSX_lines props = Return lines ->
  Forall2 (fun line entry => attribute_of true (fst entry) (snd entry) line)
          lines (emitted props).
Proof.
  apply lines_emitted.
  - reflexivity.
  - apply formatJSX_entry_emitted.
Qed.

Lemma generateJSXCode_lines_emitted (currentProps : object) (lines : list string) :
  generateJSXCode_lines currentProps = Return lines ->
  Forall2 (fun line entry => attribute_of false (fst entry) (snd entry) line)
          lines (emitted currentProps).
Proof.
  apply lines_emitted.
  - reflexivity.
  - apply generateJSXCode_entry_emitted.
Qed.

Lemma formatJSX_inv (name : string) (props : object) (out : string) :
  formatJSX name props = Return out ->
  exists lines,
    formatJSX_lines props = Return lines /\ out = tag name (String.concat newline lines).
Proof.
  unfold formatJSX. destruct (formatJSX_lines props) as [lines | e]; simpl; [| discriminate].
  intros [= <-]. now exists lines.
Qed.

Lemma generateJSXCode_inv (name : string) (currentProps : object) (out : string) :
  generateJSXCode name currentProps = Return out ->
  exists lines,
    generateJSXCode_lines currentProps = Return lines
    /\ out = tag name (String.concat newline lines).
Proof.
  unfold generateJSXCode.
  destruct (generateJSXCode_lines currentProps) as [lines | e]; simpl; [| discriminate].
  intros [= <-]. now exists lines.
Qed.

Lemma formatJSX_attributes (name : string) (props : object) (out : string) :
  formatJSX name props = Return out ->
  exists lines,
    out = tag name (String.concat newline lines)
    /\ Forall2 (fun line entry => attribute_of true (fst entry) (snd entry) line)
               lines (emitted props).
Proof.
  intros Hout. apply formatJSX_inv in Hout as (lines & Hlines & ->).
  exists lines. split; [reflexivity | now apply formatJSX_lines_emitted].
Qed.

Lemma generateJSXCode_attributes (name : string) (currentProps : object) (out : string) :
  generateJSXCode name currentProps = Return out ->
  exists lines,
    out = tag name (String.concat newline lines)
    /\ Forall2 (fun line entry => attribute_of false (fst entry) (snd entry) line)
               lines (emitted currentProps).
Proof.
  intros Hout. apply generateJSXCode_inv in Hout as (lines & Hlines & ->).
  exists lines. split; [reflexivity | now apply generateJSXCode_lines_emitted].
Qed.

Lemma append_empty_r (s : string) : s ++ "" = s.
Proof. induction s as [| c s IH]; simpl; [reflexivity | now rewrite IH]. Qed.

(** C4 (as amended): what each emitted entry reads as.  In the output of
    either serializer the attributes are the emitted entries, in order: a
    [true] reads as the bare name, a string as the name with the string in
    double quotes, and any other value as the name with the text of
    [JSON.stringify] in braces, except that [formatJSX] writes the
    placeholder [{<ReactElement />}] for a React element. *)
Theorem serializer_attributes (name : string) (props : object) (out : string) :
  (formatJSX name props = Return out ->
   exists lines,
     out = tag name (String.concat newline lines)
     /\ Forall2 (fun line entry => attribute_of true (fst entry) (snd entry) line)
                lines (emitted props))
  /\ (generateJSXCode name props = Return out ->
      exists lines,
        out = tag name (String.concat newline lines)
        /\ Forall2 (fun line entry => attribute_of false (fst entry) (snd entry) line)
                   lines (emitted props)).
Proof.
  split; [apply formatJSX_attributes | apply generateJSXCode_attributes].
Qed.

Lemma serializer_attributes_witness :
  formatJSX "Accordion" accordion_staticProps
  = Return ("<Accordion" ++ newline
            ++ "  title=" ++ dquote ++ "Accordion Title" ++ dquote ++ newline
            ++ "  content=" ++ dquote ++ "This is the accordion content." ++ dquote ++ newline
            ++ "  titleIcon={<ReactElement />}" ++ newline
            ++ "  onOpenChange={undefined}" ++ newline
            ++ "/>")
  /\ exists lines,
       "<Accordion" ++ newline
       ++ "  title=" ++ dquote ++ "Accordion Title" ++ dquote ++ newline
       ++ "  content=" ++ dquote ++ "This is the accordion content." ++ dquote ++ newline
       ++ "  titleIcon={<ReactElement />}" ++ newline
       ++ "  onOpenChange={undefined}" ++ newline
       ++ "/>"
       = tag "Accordion" (String.concat newline lines)
       /\ Forall2 (fun line entry => attribute_of true (fst entry) (snd entry) line)
                  lines (emitted accordion_staticProps).
Proof.
  split; [reflexivity |].
  apply (proj1 (serializer_attributes "Accordion" accordion_staticProps _)).
  reflexivity.
Defined.

(** C4 as stated fails for [formatJSX]: a React element is not rendered as
    its JSON text in braces. *)
Lemma formatJSX_element_not_json :
  ~ (forall name props out,
        formatJSX name props = Return out ->
        exists lines,
          out = tag name (String.concat newline lines)
          /\ Forall2 (fun line entry => attribute_of false (fst entry) (snd entry) line)
                     lines (emitted props)).
Proof.
  intros Hclaim.
  destruct (Hclaim "Accordion" [("titleIcon", VObject [("$$typeof", VSymbol)])] _ eq_refl)
    as (lines & Hout & Hlines).
  simpl in Hlines.
  inversion Hlines as [| line entry lines' rest Hline Hrest]; subst.
  inversion Hrest; subst.
  simpl in Hline.
  inversion Hline as [| | v He | v json _ _ _ Hjson]; subst.
  - discriminate.
  - injection Hjson as <-. discriminate.
Qed.


Lemma attribute_of_named (elements : bool) (key : string) (v : value) (line : string) :
  attribute_of elements key v line -> exists rest, line = "  " ++ key ++ rest.
Proof.
  intros [| s | v' _ _ | v' json _ _ _ _]; eexists; try reflexivity.
  instantiate (1 := ""). now rewrite append_empty_r.
Qed.

(** ** The serializers: when they return *)

Lemma map_completion_returns {A B : Type} (f : A -> completion B) (l : list A) :
  (forall x, In x l -> exists y, f x = Return y) ->
  exists ys, map_completion f l = Return ys.
Proof.
  induction l as [| x l IH]; simpl; intros H; [eauto |].
  destruct (H x) as (y & ->); [now left |].
  destruct IH as (ys & ->); [auto |].
  simpl. eauto.
Qed.

Lemma formatJSX_entry_returns (key : string) (v : value) :
  serializable v -> exists line, formatJSX_entry (key, v) = Return line.
Proof.
  intros (json & Hjson).
  destruct (typeof_cases v) as [(b & ->) | [(s & ->) | (Hb & Hs)]];
    [simpl; eauto | simpl; eauto |].
  rewrite formatJSX_entry_other by assumption.
  destruct (is_react_element v); [eauto |].
  rewrite Hjson. simpl. eauto.
Qed.

Lemma generateJSXCode_entry_returns (key : string) (v : value) :
  serializable v -> exists line, generateJSXCode_entry (key, v) = Return line.
Proof.
  intros (json & Hjson).
  destruct (typeof_cases v) as [(b & ->) | [(s & ->) | (Hb & Hs)]];
    [simpl; eauto | simpl; eauto |].
  rewrite generateJSXCode_entry_other by assumption.
  rewrite Hjson. simpl. eauto.
Qed.

(** Both serializers return when [JSON.stringify] returns on every
    value. *)
Lemma serializers_return (name : string) (props : object) :
  Forall (fun entry => serializable (snd entry)) props ->
  exists lines lines',
    formatJSX_lines props = Return lines
    /\ generateJSXCode_lines props = Return lines'
    /\ formatJSX name props = Return (tag name (String.concat newline lines))
    /\ generateJSXCode name props = Return (tag name (String.concat newline lines')).
Proof.
  intros Hfree. rewrite Forall_forall in Hfree.
  assert (Hfree' : forall entry,
             In entry (filter (fun entry => is_present (snd entry)) props) ->
             serializable (snd entry)).
  { intros entry Hentry. apply filter_In in Hentry as (Hentry & _). auto. }
  destruct (map_completion_returns formatJSX_entry
              (filter (fun entry => is_present (snd entry)) props)) as (ls & Hls).
  { intros [key v] Hentry. apply formatJSX_entry_returns. exact (Hfree' _ Hentry). }
  destruct (map_completion_returns generateJSXCode_entry
              (filter (fun entry => is_present (snd entry)) props)) as (ls' & Hls').
  { intros [key v] Hentry. apply generateJSXCode_entry_returns. exact (Hfree' _ Hentry). }
  exists (filter_Boolean ls), (filter_Boolean ls').
  unfold formatJSX, generateJSXCode, formatJSX_lines, generateJSXCode_lines.
  rewrite Hls, Hls'. repeat split.
Qed.





(** ** The serializers: the shape of the tag *)

Lemma no_attributes_formatJSX (props : object) :
  emitted props = [] -> formatJSX_lines props = Return [].
Proof.
  unfold formatJSX_lines, emitted.
  induction props as [| [key v] props IH]; simpl; intros Hnone; [reflexivity |].
  destruct (is_emitted v) eqn:Hemitted; [discriminate |].
  destruct (is_present v) eqn:Hpresent; [| now apply IH].
  rewrite (present_not_emitted v Hpresent Hemitted). simpl.
  specialize (IH Hnone).
  destruct (map_completion formatJSX_entry
              (filter (fun entry => is_present (snd entry)) props)) as [ls | e];
    simpl in *; [exact IH | discriminate].
Qed.

Lemma no_attributes_generateJSXCode (currentProps : object) :
  emitted currentProps = [] -> generateJSXCode_lines currentProps = Return [].
Proof.
  unfold generateJSXCode_lines, emitted.
  induction currentProps as [| [key v] props IH]; simpl; intros Hnone; [reflexivity |].
  destruct (is_emitted v) eqn:Hemitted; [discriminate |].
  destruct (is_present v) eqn:Hpresent; [| now apply IH].
  rewrite (present_not_emitted v Hpresent Hemitted). simpl.
  specialize (IH Hnone).
  destruct (map_completion generateJSXCode_entry
              (filter (fun entry => is_present (snd entry)) props)) as [ls | e];
    simpl in *; [exact IH | discriminate].
Qed.

(** C10: the shape of the tag.  Whenever a serializer returns, the output
    is [<], the name, a newline, the attributes joined by newlines, a
    newline and [/>]; there is one attribute per emitted entry and each
    starts with two spaces.  With no emitted entry the serializer returns
    the name and [/>] with an empty line between them. *)
Theorem serializer_layout (name : string) (props : object) :
  (forall out,
      formatJSX name props = Return out \/ generateJSXCode name props = Return out ->
      exists lines,
        out = "<" ++ name ++ newline ++ String.concat newline lines ++ newline ++ "/>"
        /\ length lines = length (emitted props)
        /\ Forall (fun line => exists attribute, line = "  " ++ attribute) lines)
  /\ (emitted props = [] ->
      formatJSX name props = Return ("<" ++ name ++ newline ++ newline ++ "/>")
      /\ generateJSXCode name props = Return ("<" ++ name ++ newline ++ newline ++ "/>")).
Proof.
  split.
  - assert (Hshape : forall elements lines,
               Forall2 (fun line entry => attribute_of elements (fst entry) (snd entry) line)
                       lines (emitted props) ->
               length lines = length (emitted props)
               /\ Forall (fun line => exists attribute, line = "  " ++ attribute) lines).
    { intros elements lines Hlines. split; [now apply Forall2_length in Hlines |].
      induction Hlines as [| line entry lines entries Hline _ IH]; constructor; [| exact IH].
      apply attribute_of_named in Hline as (rest & ->). now eexists. }
    intros out [Hout | Hout].
    + apply formatJSX_attributes in Hout as (lines & -> & Hlines).
      exists lines. split; [reflexivity | now apply (Hshape true)].
    + apply generateJSXCode_attributes in Hout as (lines & -> & Hlines).
      exists lines. split; [reflexivity | now apply (Hshape false)].
  - intros Hnone. unfold formatJSX, generateJSXCode.
    rewrite no_attributes_formatJSX, no_attributes_generateJSXCode by assumption.
    split; reflexivity.
Qed.

Lemma serializer_layout_witness :
  (generateJSXCode "Alert" alert_currentProps = Return alert_code
   /\ exists lines,
        alert_code
        = "<" ++ "Alert" ++ newline ++ String.concat newline lines ++ newline ++ "/>"
        /\ length lines = length (emitted alert_currentProps)
        /\ Forall (fun line => exists attribute, line = "  " ++ attribute) lines)
  /\ (emitted [("disabled", VBool false); ("title", VString ""); ("icon", VUndefined)] = []
      /\ formatJSX "Accordion"
           [("disabled", VBool false); ("title", VString ""); ("icon", VUndefined)]
         = Return ("<Accordion" ++ newline ++ newline ++ "/>")
      /\ generateJSXCode "Accordion"
           [("disabled", VBool false); ("title", VString ""); ("icon", VUndefined)]
         = Return ("<Accordion" ++ newline ++ newline ++ "/>")).
Proof.
  split.
  - split; [reflexivity |].
    apply (proj1 (serializer_layout "Alert" alert_currentProps) alert_code).
    right. reflexivity.
  - split; [reflexivity |].
    apply (proj2 (serializer_layout "Accordion"
                    [("disabled", VBool false); ("title", VString ""); ("icon", VUndefined)])).
    reflexivity.
Defined.

(** ** The serializers: what has no JSON text *)

(** Induction over values, through the lists inside arrays and objects. *)
Lemma value_induction (P : value -> Prop) :
  P VUndefined -> P VNull -> (forall b, P (VBool b)) -> (forall n, P (VNumber n)) ->
  (forall s, P (VString s)) -> P VSymbol -> (forall z, P (VBigInt z)) -> P VFunction ->
  (forall elems, Forall P elems -> P (VArray elems)) ->
  (forall props, Forall (fun entry => P (snd entry)) props -> P (VObject props)) ->
  (forall props, P (VCyclic props)) ->
  forall v, P v.
Proof.
  intros Hundefined Hnull Hbool Hnumber Hstring Hsymbol Hbigint Hfunction Harray Hobject
         Hcyclic.
  fix IH 1.
  intros [| | b | n | s | | z | | elems | props | props];
    [ exact Hundefined | exact Hnull | apply Hbool | apply Hnumber | apply Hstring
    | exact Hsymbol | apply Hbigint | exact Hfunction | | | apply Hcyclic ].
  - apply Harray. induction elems as [| x elems IHelems]; constructor; [apply IH | exact IHelems].
  - apply Hobject.
    induction props as [| [k x] props IHprops]; constructor; [apply IH | exact IHprops].
Qed.






(** ** The props of a combination in the browser *)






Lemma shared_staticProps_wf : wf_object shared_staticProps.
Proof. wf_object_by_test. Qed.

Lemma shared_propOptions_wf : wf_object shared_propOptions.
Proof. wf_object_by_test. Qed.

Lemma shared_combo_In : In shared_combo (getAllCombinations shared_propOptions).
Proof. vm_compute. right. left. reflexivity. Qed.



(** ** Reading back what the serializers write *)

(** *** Lines, entry by entry *)

Section OnlyEmitted.
(** Once more the two serializers differ in the callback only. *)
Variable entry_line : string * value -> completion (option string).
Hypothesis entry_line_false :
  forall key, entry_line (key, VBool false) = Return None.

Lemma lines_with_cons (entry : string * value) (props : object) :
  lines_with entry_line (entry :: props)
  = if is_emitted (snd entry)
    then line <- entry_line entry ;;
         ls <- map_completion entry_line
                 (filter (fun entry => is_present (snd entry)) props) ;;
         Return (filter_Boolean (line :: ls))
    else lines_with entry_line props.
Proof.
  destruct entry as [key v]. unfold lines_with. simpl.
  destruct (is_emitted v) eqn:Hemitted.
  - rewrite (is_emitted_present v Hemitted). simpl.
    destruct (entry_line (key, v)); simpl; [| reflexivity].
    now destruct (map_completion entry_line _).
  - destruct (is_present v) eqn:Hpresent; [| reflexivity].
    rewrite (present_not_emitted v Hpresent Hemitted). simpl.
    rewrite entry_line_false. simpl.
    now destruct (map_completion entry_line _).
Qed.

Lemma lines_with_emitted (props : object) :
  lines_with entry_line props = lines_with entry_line (emitted props).
Proof.
  induction props as [| [key v] props IH]; [reflexivity |].
  rewrite lines_with_cons. unfold emitted in *. simpl.
  destruct (is_emitted v) eqn:Hemitted; [| exact IH].
  rewrite lines_with_cons. simpl. rewrite Hemitted.
  destruct (entry_line (key, v)) as [line | e]; simpl; [| reflexivity].
  unfold lines_with in IH.
  destruct (map_completion entry_line (filter (fun entry => is_present (snd entry)) props))
    as [ls | e];
    destruct (map_completion entry_line
                (filter (fun entry => is_present (snd entry))
                        (filter (fun entry => is_emitted (snd entry)) props)))
    as [ls' | e']; simpl in *; try discriminate; try congruence.
  injection IH as IH. destruct line as [text |]; simpl; [| now rewrite IH].
  now rewrite IH.
Qed.

Lemma lines_with_app (a b : object) :
  lines_with entry_line (a ++ b)%list
  = (la <- lines_with entry_line a ;;
     lb <- lines_with entry_line b ;;
     Return (la ++ lb)%list).
Proof.
  induction a as [| [key v] a IH].
  - simpl. now destruct (lines_with entry_line b).
  - change (((key, v) :: a) ++ b)%list with ((key, v) :: (a ++ b))%list.
    rewrite !lines_with_cons. simpl.
    destruct (is_emitted v); [| exact IH].
    destruct (entry_line (key, v)) as [line | e]; simpl; [| reflexivity].
    unfold lines_with in *.
    destruct (map_completion entry_line
                (filter (fun entry => is_present (snd entry)) (a ++ b)%list)) as [ls | e];
      destruct (map_completion entry_line
                  (filter (fun entry => is_present (snd entry)) a)) as [la | ea];
      simpl in *;
      try (destruct (map_completion entry_line
                       (filter (fun entry => is_present (snd entry)) b)) as [lb | eb];
           simpl in *);
      try discriminate; try congruence.
    injection IH as IH.
    destruct line as [text |]; simpl; [| now rewrite IH].
    destruct (Boolean (Some text)); now rewrite IH.
Qed.
End OnlyEmitted.

Section Given.
(** The lines of entries that are all emitted, from the line of each. *)
Variable entry_line : string * value -> completion (option string).

Lemma lines_given (entries : list (string * value)) (lines : list string) :
  Forall2 (fun entry line =>
             is_emitted (snd entry) = true
             /\ entry_line entry = Return (Some line)
             /\ Boolean (Some line) = true) entries lines ->
  lines_with entry_line entries = Return lines.
Proof.
  unfold lines_with.
  induction 1 as [| [key v] line entries lines (Hemitted & Hline & Hnonempty) _ IH];
    [reflexivity |].
  simpl in *. rewrite (is_emitted_present v Hemitted). simpl. rewrite Hline. simpl.
  destruct (map_completion entry_line
              (filter (fun entry => is_present (snd entry)) entries)) as [ls | e];
    simpl in *; [| discriminate].
  rewrite Hnonempty. now injection IH as ->.
Qed.
End Given.

(** *** Names and attribute strings *)

Lemma name_start_not_space (c : ascii) : is_name_start c = true -> is_space c = false.
Proof.
  destruct c as [[|] [|] [|] [|] [|] [|] [|] [|]]; vm_compute; congruence.
Qed.

Lemma name_start_part (c : ascii) : is_name_start c = true -> is_name_part c = true.
Proof. unfold is_name_part. now intros ->. Qed.

Lemma line_end_ends_name (rest : string) : line_end rest -> ends_name rest.
Proof. intros [-> | (rest' & ->)]; reflexivity. Qed.

Lemma span_all (p : ascii -> bool) (text tail : string) :
  all_chars p text = true ->
  match tail with
  | EmptyString => True
  | String c _ => p c = false
  end ->
  span p (text ++ tail) = (text, tail).
Proof.
  intros Htext Htail.
  induction text as [| c text IH]; simpl in *.
  - destruct tail as [| c tail]; [reflexivity |]. simpl. now rewrite Htail.
  - apply andb_true_iff in Htext as (Hc & Htext).
    now rewrite Hc, IH.
Qed.

Lemma read_name_key (key tail : string) :
  jsx_name key = true -> ends_name tail ->
  read_name (key ++ tail) = Some (key, tail).
Proof.
  intros Hkey Htail.
  destruct key as [| c key]; [discriminate |].
  simpl in Hkey. apply andb_true_iff in Hkey as (Hc & Hkey).
  change (String c key ++ tail) with (String c (key ++ tail)).
  unfold read_name. rewrite Hc.
  change (String c (key ++ tail)) with (String c key ++ tail).
  rewrite span_all; [reflexivity | | exact Htail].
  simpl. now rewrite (name_start_part c Hc).
Qed.

Lemma skip_spaces_indent (key tail : string) :
  jsx_name key = true ->
  skip_spaces ("  " ++ key ++ tail) = key ++ tail.
Proof.
  intros Hkey.
  destruct key as [| c key]; [discriminate |].
  simpl in Hkey. apply andb_true_iff in Hkey as (Hc & _).
  simpl. now rewrite (name_start_not_space c Hc).
Qed.

Lemma read_string_plain (s rest : string) :
  plain_text s = true -> read_string (s ++ dquote ++ rest) = Some (s, rest).
Proof.
  induction s as [| c s IH]; simpl in *; intros Hplain.
  - reflexivity.
  - apply andb_true_iff in Hplain as (Hc & Hplain).
    apply andb_true_iff in Hc as (Hquote & Hamp).
    apply negb_true_iff in Hquote, Hamp.
    now rewrite Hquote, Hamp, IH.
Qed.

Lemma append_assoc (a b c : string) : (a ++ b) ++ c = a ++ b ++ c.
Proof. induction a as [| x a IH]; simpl; [reflexivity | now rewrite IH]. Qed.

Lemma length_append (a b : string) :
  String.length (a ++ b) = String.length a + String.length b.
Proof. induction a as [| c a IH]; simpl; [reflexivity | now rewrite IH]. Qed.

(** *** Numbers and strings inside expressions *)

Lemma ends_literal_stops (rest : string) :
  ends_literal rest ->
  match rest with
  | EmptyString => True
  | String c _ => is_number_char c = false
  end.
Proof.
  intros (c & rest' & -> & Hc).
  destruct c as [[|] [|] [|] [|] [|] [|] [|] [|]]; vm_compute in Hc; try discriminate;
    reflexivity.
Qed.

Lemma literal_not_keyword (c : ascii) (tail : string) :
  literal_start c = true ->
  strip_prefix "undefined" (String c tail) = None
  /\ strip_prefix "<ReactElement />" (String c tail) = None.
Proof.
  destruct c as [[|] [|] [|] [|] [|] [|] [|] [|]]; vm_compute; intros H;
    try discriminate; split; reflexivity.
Qed.

Lemma number_text_start (text : string) :
  number_text text = true ->
  exists c tail, text = String c tail
                 /\ (is_digit c || (nat_of_ascii c =? 45)%nat) = true
                 /\ all_chars is_number_char text = true.
Proof.
  destruct text as [| c tail]; [discriminate |].
  unfold number_text. intros H.
  apply andb_true_iff in H as (H & _). apply andb_true_iff in H as (Hc & Hall).
  now exists c, tail.
Qed.

Lemma number_start_atom (c : ascii) (tail : string) :
  (is_digit c || (nat_of_ascii c =? 45)%nat) = true ->
  literal_start c = true
  /\ (nat_of_ascii c =? 91)%nat = false
  /\ (nat_of_ascii c =? 123)%nat = false
  /\ (nat_of_ascii c =? 34)%nat = false
  /\ strip_prefix "null" (String c tail) = None
  /\ strip_prefix "true" (String c tail) = None
  /\ strip_prefix "false" (String c tail) = None.
Proof.
  destruct c as [[|] [|] [|] [|] [|] [|] [|] [|]]; vm_compute; intros H;
    try discriminate; repeat split.
Qed.

Lemma literal_not_closing (c : ascii) :
  literal_start c = true ->
  Ascii.eqb "]" c = false /\ Ascii.eqb "}" c = false.
Proof.
  destruct c as [[|] [|] [|] [|] [|] [|] [|] [|]]; vm_compute; intros H;
    try discriminate; split; reflexivity.
Qed.

(** The text of a number is read back as that number. *)
Lemma read_number_back (text rest : string) :
  number_text text = true -> ends_literal rest ->
  read_number (text ++ rest) = Some (VNumber (Finite text), rest).
Proof.
  intros Htext Hrest.
  destruct (number_text_start text Htext) as (c & tail & _ & _ & Hall).
  unfold read_number.
  rewrite span_all by (assumption || now apply ends_literal_stops).
  now rewrite Htext.
Qed.

Lemma read_escaped_char (c : ascii) (rest : string) :
  read_escaped (quote_json_char c ++ rest) = prepend (Some c) (read_escaped rest).
Proof.
  destruct c as [[|] [|] [|] [|] [|] [|] [|] [|]]; reflexivity.
Qed.

(** A quoted string is read back as the string. *)
Lemma read_escaped_back (s rest : string) :
  read_escaped (quote_json_chars s ++ dquote ++ rest) = Some (s, rest).
Proof.
  induction s as [| c s IH]; [reflexivity |].
  simpl quote_json_chars. rewrite append_assoc, read_escaped_char, IH. reflexivity.
Qed.

(** *** What [JSON.stringify] writes, and what is read back from it *)

Lemma stringify_none (v : value) :
  stringify v = Return None <-> json_back v = VUndefined.
Proof.
  destruct v as [| | [|] | [text | | negative] | s | | z | | elems | props | props];
    simpl; try (split; congruence).
  - destruct (serialize_elements stringify elems); simpl; split; congruence.
  - destruct (serialize_members stringify props); simpl; split; congruence.
Qed.

Lemma back_element_text (x : value) :
  json_back x <> VUndefined -> back_element json_back x = json_back x.
Proof. unfold back_element. destruct (json_back x); congruence. Qed.

Lemma back_element_none (x : value) :
  json_back x = VUndefined -> back_element json_back x = VNull.
Proof. unfold back_element. now intros ->. Qed.

Lemma back_members_text (entry : string * value) (props : list (string * value)) :
  json_back (snd entry) <> VUndefined ->
  back_members json_back (entry :: props)
  = (fst entry, json_back (snd entry)) :: back_members json_back props.
Proof. simpl. destruct (json_back (snd entry)); congruence. Qed.

Lemma back_members_none (entry : string * value) (props : list (string * value)) :
  json_back (snd entry) = VUndefined ->
  back_members json_back (entry :: props) = back_members json_back props.
Proof. simpl. now intros ->. Qed.

Lemma serialize_elements_inv (x : value) (elems : list value) (parts : list string) :
  serialize_elements stringify (x :: elems) = Return parts ->
  exists text texts,
    stringify x = Return text
    /\ serialize_elements stringify elems = Return texts
    /\ parts = match text with Some t => t | None => "null" end :: texts.
Proof.
  simpl. destruct (stringify x) as [text | e]; simpl; [| discriminate].
  destruct (serialize_elements stringify elems) as [texts | e]; simpl; [| discriminate].
  intros [= <-]. eauto.
Qed.

Lemma serialize_members_inv (entry : string * value) (props : list (string * value))
      (parts : list string) :
  serialize_members stringify (entry :: props) = Return parts ->
  exists text texts,
    stringify (snd entry) = Return text
    /\ serialize_members stringify props = Return texts
    /\ parts = match text with
               | Some t => (quote_json_string (fst entry) ++ ":" ++ t) :: texts
               | None => texts
               end.
Proof.
  simpl. destruct (stringify (snd entry)) as [text | e]; simpl; [| discriminate].
  destruct (serialize_members stringify props) as [texts | e]; simpl; [| discriminate].
  intros [= <-]. eauto.
Qed.

Lemma serialize_elements_nil (elems : list value) :
  serialize_elements stringify elems = Return [] -> elems = [].
Proof.
  destruct elems as [| x elems]; [reflexivity |].
  intros H. apply serialize_elements_inv in H as (text & texts & _ & _ & H). discriminate.
Qed.

(** An object without a member that has a text is read back empty. *)
Lemma serialize_members_nil (props : list (string * value)) :
  serialize_members stringify props = Return [] -> back_members json_back props = [].
Proof.
  induction props as [| entry props IH]; [reflexivity |].
  intros H. apply serialize_members_inv in H as (text & texts & Htext & Htexts & H).
  destruct text as [t |]; [discriminate |]. subst texts.
  rewrite back_members_none by now apply stringify_none.
  now apply IH.
Qed.

Lemma stringify_array_inv (elems : list value) (t : string) :
  stringify (VArray elems) = Return (Some t) ->
  exists parts,
    serialize_elements stringify elems = Return parts
    /\ t = "[" ++ String.concat "," parts ++ "]".
Proof.
  simpl. destruct (serialize_elements stringify elems) as [parts | e]; simpl; [| discriminate].
  intros [= <-]. eauto.
Qed.

Lemma stringify_object_inv (props : list (string * value)) (t : string) :
  stringify (VObject props) = Return (Some t) ->
  exists parts,
    serialize_members stringify props = Return parts
    /\ t = "{" ++ String.concat "," parts ++ "}".
Proof.
  simpl. destruct (serialize_members stringify props) as [parts | e]; simpl; [| discriminate].
  intros [= <-]. eauto.
Qed.

(** The text of JSON data starts as a literal does. *)
Lemma stringify_start (v : value) (t : string) :
  json_data v = true -> stringify v = Return (Some t) ->
  exists c tail, t = String c tail /\ literal_start c = true.
Proof.
  destruct v as [| | [|] | [text | | negative] | s | | z | | elems | props | props];
    simpl; intros Hdata Ht; try discriminate;
    try (injection Ht as <-; eexists; eexists; split; reflexivity).
  - injection Ht as <-.
    destruct (number_text_start text Hdata) as (c & tail & -> & Hc & _).
    exists c, tail. split; [reflexivity |].
    now destruct (number_start_atom c tail Hc).
  - destruct (serialize_elements stringify elems); simpl in Ht; [| discriminate].
    injection Ht as <-. eexists; eexists; split; reflexivity.
  - destruct (serialize_members stringify props); simpl in Ht; [| discriminate].
    injection Ht as <-. eexists; eexists; split; reflexivity.
Qed.

Lemma concat_cons (sep part : string) (parts : list string) :
  parts <> [] ->
  String.concat sep (part :: parts) = part ++ sep ++ String.concat sep parts.
Proof. destruct parts; [contradiction | reflexivity]. Qed.

Lemma read_literal_unfold (fuel : nat) (c : ascii) (rest : string) :
  read_literal (S fuel) (String c rest)
  = if (nat_of_ascii c =? 91)%nat then
      match strip_prefix "]" rest with
      | Some remaining => Some (VArray [], remaining)
      | None =>
          match read_elements fuel rest with
          | Some (elems, remaining) => Some (VArray elems, remaining)
          | None => None
          end
      end
    else if (nat_of_ascii c =? 123)%nat then
      match strip_prefix "}" rest with
      | Some remaining => Some (VObject [], remaining)
      | None =>
          match read_members fuel rest with
          | Some (members, remaining) =>
              Some (VObject (object_literal (without_key "__proto__" members)), remaining)
          | None => None
          end
      end
    else if (nat_of_ascii c =? 34)%nat then
      match read_escaped rest with
      | Some (text, remaining) => Some (VString text, remaining)
      | None => None
      end
    else read_atom (String c rest).
Proof. reflexivity. Qed.

Lemma read_elements_unfold (fuel : nat) (s : string) :
  read_elements (S fuel) s
  = match read_literal fuel s with
    | Some (v, String c rest) =>
        if (nat_of_ascii c =? 44)%nat then
          match read_elements fuel rest with
          | Some (elems, remaining) => Some (v :: elems, remaining)
          | None => None
          end
        else if (nat_of_ascii c =? 93)%nat then Some ([v], rest)
        else None
    | _ => None
    end.
Proof. reflexivity. Qed.

Lemma read_members_unfold (fuel : nat) (s : string) :
  read_members (S fuel) s
  = match strip_prefix dquote s with
    | None => None
    | Some after_quote =>
        match read_escaped after_quote with
        | None => None
        | Some (key, after_key) =>
            match strip_prefix ":" after_key with
            | None => None
            | Some after_colon =>
                match read_literal fuel after_colon with
                | Some (v, String c rest) =>
                    if (nat_of_ascii c =? 44)%nat then
                      match read_members fuel rest with
                      | Some (members, remaining) => Some ((key, v) :: members, remaining)
                      | None => None
                      end
                    else if (nat_of_ascii c =? 125)%nat then Some ([(key, v)], rest)
                    else None
                | _ => None
                end
            end
        end
    end.
Proof. reflexivity. Qed.

Lemma ends_literal_comma (rest : string) : ends_literal ("," ++ rest).
Proof. now exists ","%char, rest. Qed.

Lemma ends_literal_bracket (rest : string) : ends_literal ("]" ++ rest).
Proof. now exists "]"%char, rest. Qed.

Lemma ends_literal_brace (rest : string) : ends_literal ("}" ++ rest).
Proof. now exists "}"%char, rest. Qed.

(** An element of an array: its text, or [null] when it has none. *)
Lemma read_element_back (x : value) (text : option string) (fuel : nat) (rest : string) :
  reads_back x -> json_data x = true -> stringify x = Return text ->
  String.length (match text with Some t => t | None => "null" end) < fuel ->
  ends_literal rest ->
  read_literal fuel (match text with Some t => t | None => "null" end ++ rest)
  = Some (back_element json_back x, rest).
Proof.
  intros Hx Hdata Htext Hfuel Hrest.
  destruct text as [t |].
  - rewrite (Hx Hdata t fuel rest Htext Hfuel Hrest).
    rewrite back_element_text; [reflexivity |].
    intros Hnone. apply stringify_none in Hnone. congruence.
  - rewrite back_element_none by now apply stringify_none.
    destruct fuel as [| fuel]; [inversion Hfuel | reflexivity].
Qed.

Lemma strip_prefix_append (prefix s : string) : strip_prefix prefix (prefix ++ s) = Some s.
Proof.
  induction prefix as [| c prefix IH]; simpl; [now destruct s |].
  now rewrite Ascii.eqb_refl.
Qed.

Lemma read_elements_step (fuel : nat) (s : string) (v : value) (rest : string) :
  read_literal fuel s = Some (v, "," ++ rest) ->
  read_elements (S fuel) s
  = match read_elements fuel rest with
    | Some (elems, remaining) => Some (v :: elems, remaining)
    | None => None
    end.
Proof. intros H. rewrite read_elements_unfold, H. reflexivity. Qed.

Lemma read_elements_last (fuel : nat) (s : string) (v : value) (rest : string) :
  read_literal fuel s = Some (v, "]" ++ rest) ->
  read_elements (S fuel) s = Some ([v], rest).
Proof. intros H. rewrite read_elements_unfold, H. reflexivity. Qed.

Lemma read_members_key (fuel : nat) (k text : string) :
  read_members (S fuel) (quote_json_string k ++ ":" ++ text)
  = match read_literal fuel text with
    | Some (v, String c rest) =>
        if (nat_of_ascii c =? 44)%nat then
          match read_members fuel rest with
          | Some (members, remaining) => Some ((k, v) :: members, remaining)
          | None => None
          end
        else if (nat_of_ascii c =? 125)%nat then Some ([(k, v)], rest)
        else None
    | _ => None
    end.
Proof.
  rewrite read_members_unfold. unfold quote_json_string.
  rewrite !append_assoc, strip_prefix_append, read_escaped_back, strip_prefix_append.
  reflexivity.
Qed.

Lemma read_members_step (fuel : nat) (k text : string) (v : value) (rest : string) :
  read_literal fuel text = Some (v, "," ++ rest) ->
  read_members (S fuel) (quote_json_string k ++ ":" ++ text)
  = match read_members fuel rest with
    | Some (members, remaining) => Some ((k, v) :: members, remaining)
    | None => None
    end.
Proof. intros H. rewrite read_members_key, H. reflexivity. Qed.

Lemma read_members_last (fuel : nat) (k text : string) (v : value) (rest : string) :
  read_literal fuel text = Some (v, "}" ++ rest) ->
  read_members (S fuel) (quote_json_string k ++ ":" ++ text) = Some ([(k, v)], rest).
Proof. intros H. rewrite read_members_key, H. reflexivity. Qed.

Lemma read_elements_back (elems : list value) :
  Forall reads_back elems -> forallb json_data elems = true ->
  forall (parts : list string) (fuel : nat) (rest : string),
    elems <> [] ->
    serialize_elements stringify elems = Return parts ->
    String.length (String.concat "," parts) + 1 < fuel ->
    read_elements fuel (String.concat "," parts ++ "]" ++ rest)
    = Some (map (back_element json_back) elems, rest).
Proof.
  induction 1 as [| x elems Hx _ IH]; intros Hdata parts fuel rest Hne Hparts Hfuel;
    [contradiction |].
  simpl in Hdata. apply andb_true_iff in Hdata as (Hdata & Hrest).
  apply serialize_elements_inv in Hparts as (text & texts & Htext & Htexts & ->).
  destruct fuel as [| fuel]; [inversion Hfuel |].
  destruct texts as [| part texts].
  - apply serialize_elements_nil in Htexts. subst elems.
    cbn [String.concat] in *.
    apply read_elements_last.
    apply read_element_back; try assumption; [lia | apply ends_literal_bracket].
  - rewrite concat_cons in * by discriminate.
    rewrite !length_append in Hfuel. change (String.length ",") with 1 in Hfuel.
    rewrite !append_assoc.
    rewrite (read_elements_step fuel _ (back_element json_back x)
               (String.concat "," (part :: texts) ++ "]" ++ rest)).
    + rewrite (IH Hrest (part :: texts) fuel rest).
      * reflexivity.
      * intros ->. discriminate.
      * exact Htexts.
      * lia.
    + apply read_element_back; try assumption; [lia | apply ends_literal_comma].
Qed.

Lemma read_members_back (props : list (string * value)) :
  Forall (fun entry => reads_back (snd entry)) props ->
  forallb (fun entry => json_data (snd entry)) props = true ->
  forall (parts : list string) (fuel : nat) (rest : string),
    parts <> [] ->
    serialize_members stringify props = Return parts ->
    String.length (String.concat "," parts) + 1 < fuel ->
    read_members fuel (String.concat "," parts ++ "}" ++ rest)
    = Some (back_members json_back props, rest).
Proof.
  induction 1 as [| [k x] props Hx _ IH]; intros Hdata parts fuel rest Hne Hparts Hfuel.
  - injection Hparts as <-. contradiction.
  - simpl in Hdata. apply andb_true_iff in Hdata as (Hdata & Hrest).
    apply serialize_members_inv in Hparts as (text & texts & Htext & Htexts & ->).
    simpl in Hx, Htext.
    destruct text as [t |].
    + rewrite back_members_text
        by (simpl; intros Hnone; apply stringify_none in Hnone; congruence).
      simpl fst. simpl snd.
      destruct fuel as [| fuel]; [inversion Hfuel |].
      destruct texts as [| part texts].
      * apply serialize_members_nil in Htexts. rewrite Htexts.
        cbn [String.concat] in *.
        rewrite !length_append in Hfuel.
        rewrite !append_assoc.
        apply read_members_last.
        apply (Hx Hdata); [exact Htext | lia | apply ends_literal_brace].
      * rewrite concat_cons in * by discriminate.
        rewrite !length_append in Hfuel. change (String.length ",") with 1 in Hfuel.
        rewrite !append_assoc.
        rewrite (read_members_step fuel k _ (json_back x)
                   (String.concat "," (part :: texts) ++ "}" ++ rest)).
        -- rewrite (IH Hrest (part :: texts) fuel rest).
           ++ reflexivity.
           ++ discriminate.
           ++ exact Htexts.
           ++ lia.
        -- apply (Hx Hdata); [exact Htext | lia | apply ends_literal_comma].
    + rewrite back_members_none by now apply stringify_none.
      now apply IH.
Qed.

(** The members that are read back are among those of the object, in
    their order. *)
Lemma back_members_keys (props : list (string * value)) :
  exists p, keys (back_members json_back props)
            = keys (filter p props).
Proof.
  exists (fun entry => match json_back (snd entry) with VUndefined => false | _ => true end).
  induction props as [| entry props IH]; [reflexivity |].
  simpl. destruct (json_back (snd entry)); simpl; now rewrite IH.
Qed.

Lemma back_members_wf (props : list (string * value)) :
  wf_object props -> wf_object (back_members json_back props).
Proof.
  intros Hwf. destruct (back_members_keys props) as (p & Hkeys).
  unfold wf_object. rewrite Hkeys. now apply wf_object_filter.
Qed.

Lemma back_members_In_keys (props : list (string * value)) (k : string) :
  In k (keys (back_members json_back props)) -> In k (keys props).
Proof.
  destruct (back_members_keys props) as (p & ->).
  unfold keys. intros Hin. apply in_map_iff in Hin as (entry & <- & Hentry).
  apply filter_In in Hentry as (Hentry & _). now apply in_map.
Qed.

Lemma without_key_fresh {V : Type} (key : string) (props : list (string * V)) :
  ~ In key (keys props) -> without_key key props = props.
Proof.
  unfold without_key. induction props as [| [k v] props IH]; simpl; intros Hfresh.
  - reflexivity.
  - destruct (String.eqb_spec k key) as [-> | _]; [tauto |]. simpl.
    rewrite IH; tauto.
Qed.

Lemma existsb_eqb_In (k : string) (names : list string) :
  existsb (String.eqb k) names = false -> ~ In k names.
Proof.
  intros H Hin.
  assert (existsb (String.eqb k) names = true); [| congruence].
  apply existsb_exists. exists k. split; [exact Hin | apply String.eqb_refl].
Qed.

(** The object that a literal with the members read back evaluates to has
    these members as they stand. *)
Lemma object_literal_back (props : list (string * value)) :
  is_object props = true ->
  existsb (String.eqb "__proto__") (keys props) = false ->
  object_literal (without_key "__proto__" (back_members json_back props))
  = back_members json_back props.
Proof.
  intros Hobject Hproto.
  rewrite without_key_fresh.
  - apply spread_nil_wf, back_members_wf. now apply wf_object_check.
  - intros Hin. apply back_members_In_keys in Hin.
    now apply existsb_eqb_In in Hproto.
Qed.

Lemma json_data_object (props : list (string * value)) :
  json_data (VObject props) = true ->
  is_object props = true
  /\ existsb (String.eqb "__proto__") (keys props) = false
  /\ has_toJSON props = false
  /\ forallb (fun entry => json_data (snd entry)) props = true.
Proof.
  simpl. intros H.
  apply andb_true_iff in H as (H & Hmembers).
  apply andb_true_iff in H as (H & HtoJSON).
  apply andb_true_iff in H as (Hobject & Hproto).
  apply negb_true_iff in Hproto, HtoJSON. auto.
Qed.

(** The text [JSON.stringify] gives for JSON data is read back, as a
    literal, as the data it stands for. *)
Lemma read_literal_back (v : value) : reads_back v.
Proof.
  induction v as [| | [|] | [text | | negative] | s | | z | | elems IH | props IH | props]
    using value_induction;
    intros Hdata t fuel rest Ht Hfuel Hrest;
    try discriminate;
    try (injection Ht as <-; destruct fuel as [| fuel]; [inversion Hfuel | reflexivity]).
  - injection Ht as <-. simpl in Hdata.
    destruct fuel as [| fuel]; [inversion Hfuel |].
    destruct (number_text_start text Hdata) as (c & tail & Htext & Hc & _).
    destruct (number_start_atom c (tail ++ rest) Hc) as (_ & H1 & H2 & H3 & H4 & H5 & H6).
    pose proof (read_number_back text rest Hdata Hrest) as Hread.
    rewrite Htext in *.
    change (String c tail ++ rest) with (String c (tail ++ rest)) in *.
    rewrite read_literal_unfold, H1, H2, H3.
    unfold read_atom. rewrite H4, H5, H6. exact Hread.
  - injection Ht as <-.
    destruct fuel as [| fuel]; [inversion Hfuel |].
    unfold quote_json_string. rewrite !append_assoc.
    change (dquote ++ quote_json_chars s ++ dquote ++ rest)
      with (String "034" (quote_json_chars s ++ dquote ++ rest)).
    rewrite read_literal_unfold.
    change (nat_of_ascii "034" =? 91)%nat with false.
    change (nat_of_ascii "034" =? 123)%nat with false.
    change (nat_of_ascii "034" =? 34)%nat with true.
    cbv iota. now rewrite read_escaped_back.
  - apply stringify_array_inv in Ht as (parts & Hparts & ->).
    destruct fuel as [| fuel]; [inversion Hfuel |].
    rewrite !append_assoc.
    change ("[" ++ String.concat "," parts ++ "]" ++ rest)
      with (String "[" (String.concat "," parts ++ "]" ++ rest)).
    rewrite read_literal_unfold.
    change (nat_of_ascii "[" =? 91)%nat with true. cbv iota.
    destruct elems as [| x elems].
    + injection Hparts as <-. reflexivity.
    + rewrite !length_append in Hfuel.
      change (String.length "[") with 1 in Hfuel.
      change (String.length "]") with 1 in Hfuel.
      simpl in Hdata.
      assert (Hstart : strip_prefix "]" (String.concat "," parts ++ "]" ++ rest) = None).
      { apply serialize_elements_inv in Hparts as (text & texts & Htext & _ & ->).
        assert (Hfirst : exists c tail,
                   match text with Some t => t | None => "null" end = String c tail
                   /\ literal_start c = true).
        { destruct text as [t |]; [| now exists "n"%char, "ull"].
          apply (stringify_start x); [| exact Htext].
          now apply andb_true_iff in Hdata as (Hx & _). }
        destruct Hfirst as (c & tail & Hpart & Hc). rewrite Hpart.
        destruct (literal_not_closing c Hc) as (Hclosing & _).
        destruct texts as [| part texts]; cbn [String.concat append strip_prefix];
          now rewrite Hclosing. }
      rewrite Hstart.
      rewrite (read_elements_back (x :: elems) IH Hdata parts fuel rest)
        by (discriminate || assumption || lia).
      reflexivity.
  - apply stringify_object_inv in Ht as (parts & Hparts & ->).
    destruct (json_data_object props Hdata) as (Hobject & Hproto & _ & Hmembers).
    destruct fuel as [| fuel]; [inversion Hfuel |].
    rewrite !append_assoc.
    change ("{" ++ String.concat "," parts ++ "}" ++ rest)
      with (String "{" (String.concat "," parts ++ "}" ++ rest)).
    rewrite read_literal_unfold.
    change (nat_of_ascii "{" =? 91)%nat with false.
    change (nat_of_ascii "{" =? 123)%nat with true. cbv iota.
    destruct parts as [| part parts].
    + cbn [String.concat append strip_prefix]. rewrite Ascii.eqb_refl.
      cbn [json_back]. now rewrite (serialize_members_nil props Hparts).
    + rewrite !length_append in Hfuel.
      change (String.length "{") with 1 in Hfuel.
      change (String.length "}") with 1 in Hfuel.
      assert (Hstart : strip_prefix "}" (String.concat "," (part :: parts) ++ "}" ++ rest)
                       = None).
      { assert (Hfirst : exists tail, part = String "034" tail).
        { clear - Hparts. revert part parts Hparts.
          induction props as [| entry props IHprops]; intros part parts Hparts;
            [discriminate |].
          apply serialize_members_inv in Hparts as (text & texts & _ & Htexts & Hparts).
          destruct text as [t |].
          - injection Hparts as -> _. unfold quote_json_string. now eexists.
          - subst texts. now apply (IHprops part parts). }
        destruct Hfirst as (tail & ->).
        destruct parts; reflexivity. }
      rewrite Hstart.
      rewrite (read_members_back props IH Hmembers (part :: parts) fuel rest)
        by (discriminate || assumption || lia).
      cbn [json_back]. now rewrite object_literal_back.
Qed.

(** *** Writing again what was read back *)

(** What is read back has the text it was read from. *)
Lemma stringify_back (v : value) (t : string) :
  stringify v = Return (Some t) -> stringify (json_back v) = Return (Some t).
Proof.
  revert t.
  induction v as [| | [|] | [text | | negative] | s | | z | | elems IH | props IH | props]
    using value_induction;
    intros t Ht; try discriminate; try exact Ht.
  - apply stringify_array_inv in Ht as (parts & Hparts & ->).
    cbn [json_back stringify].
    enough (serialize_elements stringify (map (back_element json_back) elems) = Return parts)
      as -> by reflexivity.
    revert parts Hparts.
    induction IH as [| x elems Hx _ IHelems]; intros parts Hparts; [exact Hparts |].
    apply serialize_elements_inv in Hparts as (text & texts & Htext & Htexts & ->).
    simpl. rewrite (IHelems texts Htexts).
    destruct text as [t |].
    + rewrite back_element_text
        by (intros Hnone; apply stringify_none in Hnone; congruence).
      now rewrite (Hx t Htext).
    + rewrite back_element_none by now apply stringify_none.
      reflexivity.
  - apply stringify_object_inv in Ht as (parts & Hparts & ->).
    cbn [json_back stringify].
    enough (serialize_members stringify (back_members json_back props) = Return parts)
      as -> by reflexivity.
    revert parts Hparts.
    induction IH as [| [k x] props Hx _ IHprops]; intros parts Hparts; [exact Hparts |].
    apply serialize_members_inv in Hparts as (text & texts & Htext & Htexts & ->).
    simpl in Hx, Htext.
    destruct text as [t |].
    + rewrite back_members_text
        by (simpl; intros Hnone; apply stringify_none in Hnone; congruence).
      simpl. rewrite (Hx t Htext). simpl. now rewrite (IHprops texts Htexts).
    + rewrite back_members_none by now apply stringify_none.
      now apply IHprops.
Qed.

Lemma truthy_back (x : value) : truthy (json_back x) = true -> truthy x = true.
Proof.
  destruct x as [| | b | [text | | negative] | s | | z | | elems | props | props];
    simpl; congruence.
Qed.

Lemma lookup_back_members (props : list (string * value)) (k : string) :
  NoDup (keys props) ->
  lookup k (back_members json_back props)
  = match lookup k props with
    | Some x => match json_back x with
                | VUndefined => None
                | y => Some y
                end
    | None => None
    end.
Proof.
  induction props as [| [k' x] props IH]; intros Hnodup; [reflexivity |].
  inversion Hnodup as [| ? ? Hnotin Hnodup']; subst.
  specialize (IH Hnodup').
  assert (Hskip : k' = k -> lookup k (back_members json_back props) = None).
  { intros ->. apply lookup_None_iff. intros Hin.
    apply back_members_In_keys in Hin. contradiction. }
  assert (Hcases : json_back x = VUndefined \/ json_back x <> VUndefined)
    by (destruct (json_back x); auto; right; discriminate).
  destruct Hcases as [Hnone | Htext].
  - rewrite back_members_none by exact Hnone.
    cbn [lookup]. destruct (String.eqb_spec k' k) as [Heq | Hne].
    + rewrite Hnone. now apply Hskip.
    + exact IH.
  - rewrite back_members_text by exact Htext.
    cbn [lookup fst snd]. destruct (String.eqb_spec k' k) as [Heq | Hne].
    + destruct (json_back x); congruence || reflexivity.
    + exact IH.
Qed.

(** An object that is no React element is none when read back. *)
Lemma is_react_element_back (props : list (string * value)) :
  NoDup (keys props) ->
  is_react_element (VObject props) = false ->
  is_react_element (json_back (VObject props)) = false.
Proof.
  intros Hnodup. cbn [json_back]. unfold is_react_element. simpl.
  rewrite lookup_back_members by assumption.
  destruct (lookup "$$typeof" props) as [x |]; [| reflexivity].
  intros Hfalsy.
  destruct (truthy (json_back x)) eqn:Htruthy.
  - apply truthy_back in Htruthy. congruence.
  - destruct (json_back x); try exact Htruthy; reflexivity.
Qed.

(** [JSON.stringify] returns on JSON data. *)
Lemma stringify_data (v : value) : json_data v = true -> serializable v.
Proof.
  unfold serializable.
  induction v as [| | [|] | [text | | negative] | s | | z | | elems IH | props IH | props]
    using value_induction;
    intros Hdata; try discriminate; try (eexists; reflexivity).
  - simpl in Hdata. cbn [stringify].
    enough (exists parts, serialize_elements stringify elems = Return parts)
      as (parts & ->) by (simpl; eauto).
    induction IH as [| x elems Hx _ IHelems]; simpl in *; [eauto |].
    apply andb_true_iff in Hdata as (Hdata & Hrest).
    destruct (Hx Hdata) as (text & ->).
    destruct (IHelems Hrest) as (texts & ->).
    simpl. eauto.
  - destruct (json_data_object props Hdata) as (_ & _ & _ & Hmembers).
    cbn [stringify].
    enough (exists parts, serialize_members stringify props = Return parts)
      as (parts & ->) by (simpl; eauto).
    clear Hdata.
    induction IH as [| [k x] props Hx _ IHprops]; simpl in *; [eauto |].
    apply andb_true_iff in Hmembers as (Hdata & Hrest).
    destruct (Hx Hdata) as (text & ->).
    destruct (IHprops Hrest) as (texts & ->).
    simpl. eauto.
Qed.

(** *** Attributes *)

Lemma value_text_other (elements : bool) (v : value) :
  typeof v <> TBoolean -> typeof v <> TString ->
  value_text elements v
  = if elements && is_react_element v then "={<ReactElement />}"
    else match stringify v with
         | Return json => "={" ++ template json ++ "}"
         | Throw _ => ""
         end.
Proof. destruct v; simpl; intros; congruence || reflexivity. Qed.

(** Among the rereadable values, those that are written as the text of
    [JSON.stringify] are JSON data with a text. *)
Lemma rereadable_data (elements : bool) (v : value) :
  is_emitted v = true -> rereadable elements v = true ->
  typeof v <> TBoolean -> typeof v <> TString ->
  elements && is_react_element v = false ->
  json_data v = true
  /\ read_back elements v = json_back v
  /\ exists t, stringify v = Return (Some t).
Proof.
  intros Hemitted Hreadable Hb Hs Helement.
  assert (Hdata : json_data v = true /\ read_back elements v = json_back v
                  /\ json_back v <> VUndefined).
  { destruct v as [| | b | [text | | negative] | s | | z | | elems | props | props];
      simpl in *; try congruence; try rewrite Helement in *;
      repeat split; (assumption || discriminate || reflexivity). }
  destruct Hdata as (Hdata & Hback & Htext).
  split; [exact Hdata | split; [exact Hback |]].
  destruct (stringify_data v Hdata) as ([t |] & Ht); [eauto |].
  apply stringify_none in Ht. contradiction.
Qed.

Lemma react_element_object (v : value) :
  is_react_element v = true -> exists props, v = VObject props \/ v = VCyclic props.
Proof. destruct v; try discriminate; eauto. Qed.

Lemma formatJSX_entry_text (key : string) (v : value) :
  is_emitted v = true -> rereadable true v = true ->
  formatJSX_entry (key, v) = Return (Some (attribute_text true (key, v))).
Proof.
  intros Hemitted Hreadable. unfold attribute_text. cbn [fst snd].
  destruct (typeof_cases v) as [(b & ->) | [(s & ->) | (Hb & Hs)]].
  - simpl in Hemitted. subst b. simpl. now rewrite append_empty_r.
  - reflexivity.
  - rewrite formatJSX_entry_other, value_text_other by assumption.
    destruct (is_react_element v) eqn:Helement; [reflexivity |].
    destruct (rereadable_data true v Hemitted Hreadable Hb Hs) as (_ & _ & t & ->);
      [now rewrite Helement | reflexivity].
Qed.

Lemma generateJSXCode_entry_text (key : string) (v : value) :
  is_emitted v = true -> rereadable false v = true ->
  generateJSXCode_entry (key, v) = Return (Some (attribute_text false (key, v))).
Proof.
  intros Hemitted Hreadable. unfold attribute_text. cbn [fst snd].
  destruct (typeof_cases v) as [(b & ->) | [(s & ->) | (Hb & Hs)]].
  - simpl in Hemitted. subst b. simpl. now rewrite append_empty_r.
  - reflexivity.
  - rewrite generateJSXCode_entry_other, value_text_other by assumption.
    destruct (rereadable_data false v Hemitted Hreadable Hb Hs) as (_ & _ & t & ->);
      reflexivity.
Qed.

Lemma json_back_typeof (v : value) (t : string) :
  typeof v <> TBoolean -> typeof v <> TString -> stringify v = Return (Some t) ->
  typeof (json_back v) <> TBoolean /\ typeof (json_back v) <> TString
  /\ is_emitted (json_back v) = true.
Proof.
  destruct v as [| | b | [text | | negative] | s | | z | | elems | props | props];
    simpl; intros Hb Hs Ht; try congruence; repeat split; discriminate.
Qed.

Lemma json_back_no_element (v : value) :
  json_data v = true -> is_react_element v = false ->
  is_react_element (json_back v) = false.
Proof.
  intros Hdata Helement.
  destruct v as [| | b | [text | | negative] | s | | z | | elems | props | props];
    try reflexivity; try exact Helement.
  apply is_react_element_back; [| exact Helement].
  destruct (json_data_object props Hdata) as (Hobject & _).
  exact (proj1 (wf_object_check props Hobject)).
Qed.

(** What is read back for an entry is written as the entry was. *)
Lemma formatJSX_entry_back (key : string) (v : value) :
  is_emitted v = true -> rereadable true v = true ->
  is_emitted (read_back true v) = true
  /\ formatJSX_entry (key, read_back true v) = Return (Some (attribute_text true (key, v))).
Proof.
  intros Hemitted Hreadable.
  destruct (typeof_cases v) as [(b & ->) | [(s & ->) | (Hb & Hs)]].
  - split; [exact Hemitted | now apply formatJSX_entry_text].
  - split; [exact Hemitted | now apply formatJSX_entry_text].
  - unfold attribute_text. cbn [fst snd]. rewrite value_text_other by assumption.
    destruct (is_react_element v) eqn:Helement.
    + destruct (react_element_object v Helement) as (props & [-> | ->]);
        simpl; rewrite Helement; split; reflexivity.
    + destruct (rereadable_data true v Hemitted Hreadable Hb Hs)
        as (Hdata & -> & t & Ht); [now rewrite Helement |].
      destruct (json_back_typeof v t Hb Hs Ht) as (Hb' & Hs' & Hemitted').
      split; [exact Hemitted' |].
      rewrite formatJSX_entry_other by assumption.
      rewrite (json_back_no_element v Hdata Helement).
      now rewrite (stringify_back v t Ht), Ht.
Qed.

Lemma generateJSXCode_entry_back (key : string) (v : value) :
  is_emitted v = true -> rereadable false v = true ->
  is_emitted (read_back false v) = true
  /\ generateJSXCode_entry (key, read_back false v)
     = Return (Some (attribute_text false (key, v))).
Proof.
  intros Hemitted Hreadable.
  destruct (typeof_cases v) as [(b & ->) | [(s & ->) | (Hb & Hs)]].
  - split; [exact Hemitted | now apply generateJSXCode_entry_text].
  - split; [exact Hemitted | now apply generateJSXCode_entry_text].
  - unfold attribute_text. cbn [fst snd]. rewrite value_text_other by assumption.
    destruct (rereadable_data false v Hemitted Hreadable Hb Hs)
      as (Hdata & -> & t & Ht); [reflexivity |].
    destruct (json_back_typeof v t Hb Hs Ht) as (Hb' & Hs' & Hemitted').
    split; [exact Hemitted' |].
    rewrite generateJSXCode_entry_other by assumption.
    now rewrite (stringify_back v t Ht), Ht.
Qed.

Lemma read_value_braces (text : string) :
  read_value ("={" ++ text)
  = match read_expression text with
    | Some (v, remaining) =>
        match strip_prefix "}" remaining with
        | Some remaining' => Some (v, remaining')
        | None => None
        end
    | None => None
    end.
Proof. reflexivity. Qed.

Lemma read_value_quoted (text : string) :
  read_value ("=" ++ dquote ++ text)
  = match read_string text with
    | Some (s, remaining) => Some (VString s, remaining)
    | None => None
    end.
Proof. reflexivity. Qed.

(** The text of JSON data between braces is read back as an expression. *)
Lemma read_expression_back (v : value) (t rest : string) :
  json_data v = true -> stringify v = Return (Some t) ->
  read_expression (t ++ "}" ++ rest) = Some (json_back v, "}" ++ rest).
Proof.
  intros Hdata Ht.
  destruct (stringify_start v t Hdata Ht) as (c & tail & Htext & Hc).
  destruct (literal_not_keyword c (tail ++ "}" ++ rest) Hc) as (H1 & H2).
  unfold read_expression.
  rewrite Htext in *.
  change (String c tail ++ "}" ++ rest) with (String c (tail ++ "}" ++ rest)) in *.
  rewrite H1, H2.
  change (String c (tail ++ "}" ++ rest)) with (String c tail ++ "}" ++ rest).
  apply (read_literal_back v Hdata); [exact Ht | | apply ends_literal_brace].
  rewrite length_append. lia.
Qed.

(** The value of an attribute is read back, up to where the attribute
    ends. *)
Lemma read_value_back (elements : bool) (v : value) (rest : string) :
  is_emitted v = true -> rereadable elements v = true -> line_end rest ->
  read_value (value_text elements v ++ rest) = Some (read_back elements v, rest).
Proof.
  intros Hemitted Hreadable Hend.
  destruct (typeof_cases v) as [(b & ->) | [(s & ->) | (Hb & Hs)]].
  - simpl in Hemitted. subst b.
    destruct Hend as [-> | (rest' & ->)]; reflexivity.
  - simpl in Hreadable. unfold value_text. rewrite !append_assoc.
    now rewrite read_value_quoted, read_string_plain.
  - rewrite value_text_other by assumption.
    destruct (elements && is_react_element v) eqn:Helement.
    + apply andb_true_iff in Helement as (-> & Helement).
      destruct (react_element_object v Helement) as (props & [-> | ->]);
        simpl; rewrite Helement; reflexivity.
    + destruct (rereadable_data elements v Hemitted Hreadable Hb Hs Helement)
        as (Hdata & -> & t & Ht).
      rewrite Ht. cbn [template]. rewrite !append_assoc.
      rewrite read_value_braces, (read_expression_back v t rest Hdata Ht).
      now rewrite strip_prefix_append.
Qed.

Lemma value_text_ends_name (elements : bool) (v : value) (rest : string) :
  line_end rest -> ends_name (value_text elements v ++ rest).
Proof.
  intros Hend.
  assert (Hshape : value_text elements v = ""
                   \/ exists tail, value_text elements v = "=" ++ tail).
  { destruct (typeof_cases v) as [(b & ->) | [(s & ->) | (Hb & Hs)]].
    - now left.
    - right. now eexists.
    - rewrite value_text_other by assumption.
      destruct (elements && is_react_element v); [right; now eexists |].
      destruct (stringify v); [right; now eexists | now left]. }
  destruct Hshape as [-> | (tail & ->)]; [| reflexivity].
  now apply line_end_ends_name.
Qed.

Lemma read_attributes_unfold (fuel : nat) (s : string) :
  read_attributes (S fuel) s
  = match skip_spaces s with
    | EmptyString => Some []
    | String c rest =>
        match read_name (String c rest) with
        | Some (name, after_name) =>
            match read_value after_name with
            | Some (v, remaining) =>
                match read_attributes fuel remaining with
                | Some attributes => Some ((name, v) :: attributes)
                | None => None
                end
            | None => None
            end
        | None => None
        end
    end.
Proof. reflexivity. Qed.

(** One attribute read from the front of an attribute list. *)
Lemma read_attributes_step (elements : bool) (fuel : nat) (entry : string * value)
      (rest : string) :
  jsx_name (fst entry) = true -> is_emitted (snd entry) = true ->
  rereadable elements (snd entry) = true -> line_end rest ->
  read_attributes (S fuel) (attribute_text elements entry ++ rest)
  = match read_attributes fuel rest with
    | Some attributes => Some (entry_back elements entry :: attributes)
    | None => None
    end.
Proof.
  destruct entry as [key v]. cbn [fst snd]. intros Hkey Hemitted Hreadable Hend.
  unfold attribute_text, entry_back. cbn [fst snd].
  rewrite !append_assoc, read_attributes_unfold.
  rewrite skip_spaces_indent by assumption.
  pose proof (read_name_key key (value_text elements v ++ rest) Hkey
                (value_text_ends_name elements v rest Hend)) as Hname.
  destruct key as [| c key]; [discriminate |].
  change (String c key ++ value_text elements v ++ rest)
    with (String c (key ++ value_text elements v ++ rest)) in *.
  cbv beta iota. rewrite Hname.
  now rewrite (read_value_back elements).
Qed.

Lemma read_attributes_newline (fuel : nat) (text : string) :
  read_attributes fuel (newline ++ text) = read_attributes fuel text.
Proof. destruct fuel; reflexivity. Qed.

(** A whole attribute list is read back, attribute by attribute. *)
Lemma read_attributes_back (elements : bool) (entries : list (string * value)) (fuel : nat) :
  Forall (fun entry => jsx_name (fst entry) = true) entries ->
  Forall (fun entry => is_emitted (snd entry) = true) entries ->
  Forall (fun entry => rereadable elements (snd entry) = true) entries ->
  length entries < fuel ->
  read_attributes fuel (String.concat newline (map (attribute_text elements) entries))
  = Some (map (entry_back elements) entries).
Proof.
  revert fuel.
  induction entries as [| entry entries IH]; intros fuel Hnames Hemitted Hreadable Hfuel.
  - destruct fuel; [inversion Hfuel | reflexivity].
  - destruct fuel as [| fuel]; [inversion Hfuel |].
    inversion Hnames; inversion Hemitted; inversion Hreadable; subst.
    simpl in Hfuel.
    destruct entries as [| entry' entries].
    + simpl map. cbn [String.concat].
      rewrite <- (append_empty_r (attribute_text elements entry)).
      rewrite (read_attributes_step elements) by (assumption || now left).
      destruct fuel; [lia | reflexivity].
    + change (String.concat newline (map (attribute_text elements) (entry :: entry' :: entries)))
        with (attribute_text elements entry ++ newline
              ++ String.concat newline (map (attribute_text elements) (entry' :: entries))).
      rewrite (read_attributes_step elements) by (assumption || (right; eauto)).
      rewrite read_attributes_newline, IH by (assumption || lia).
      reflexivity.
Qed.

Lemma emitted_Forall (props : object) :
  Forall (fun entry => is_emitted (snd entry) = true) (emitted props).
Proof.
  apply Forall_forall. intros entry Hin. unfold emitted in Hin.
  now apply filter_In in Hin.
Qed.

Lemma emitted_incl (P : string * value -> Prop) (props : object) :
  Forall P props -> Forall P (emitted props).
Proof.
  rewrite !Forall_forall. intros H entry Hin. apply H.
  unfold emitted in Hin. now apply filter_In in Hin.
Qed.

Lemma emitted_wf (props : object) : wf_object props -> wf_object (emitted props).
Proof. apply wf_object_filter. Qed.

(** An attribute list is at least as long as the number of its
    attributes. *)
Lemma attributes_length (elements : bool) (entries : list (string * value)) :
  length entries
  <= String.length (String.concat newline (map (attribute_text elements) entries)).
Proof.
  induction entries as [| entry entries IH]; [simpl; lia |].
  destruct entries as [| entry' entries].
  - simpl. lia.
  - change (String.concat newline (map (attribute_text elements) (entry :: entry' :: entries)))
      with (attribute_text elements entry ++ newline
            ++ String.concat newline (map (attribute_text elements) (entry' :: entries))).
    rewrite !length_append. simpl in *. lia.
Qed.

(** The attribute list written for rereadable props is read back as the
    emitted entries, each with the value read back for it. *)
Lemma reparse_back (elements : bool) (props : object) :
  wf_object props ->
  Forall (fun entry => jsx_name (fst entry) = true) props ->
  Forall (fun entry => rereadable elements (snd entry) = true) props ->
  reparse (String.concat newline (map (attribute_text elements) (emitted props)))
  = Some (map (entry_back elements) (emitted props)).
Proof.
  intros Hwf Hnames Hreadable. unfold reparse.
  rewrite (read_attributes_back elements).
  - f_equal. apply spread_nil_wf.
    unfold wf_object, keys. rewrite map_map. simpl.
    now apply emitted_wf.
  - now apply emitted_incl.
  - apply emitted_Forall.
  - now apply emitted_incl.
  - pose proof (attributes_length elements (emitted props)). lia.
Qed.

Section Rereadable.
(** Again the two serializers differ in the callback only. *)
Variable entry_line : string * value -> completion (option string).
Variable elements : bool.

Hypothesis entry_line_false :
  forall key, entry_line (key, VBool false) = Return None.
Hypothesis entry_line_text :
  forall key v,
    is_emitted v = true -> rereadable elements v = true ->
    entry_line (key, v) = Return (Some (attribute_text elements (key, v))).
Hypothesis entry_line_back :
  forall key v,
    is_emitted v = true -> rereadable elements v = true ->
    is_emitted (read_back elements v) = true
    /\ entry_line (key, read_back elements v)
       = Return (Some (attribute_text elements (key, v))).

(** The lines written for rereadable props, and for what is read back
    from them. *)
Lemma lines_text (props : object) :
  Forall (fun entry => rereadable elements (snd entry) = true) props ->
  lines_with entry_line props = Return (map (attribute_text elements) (emitted props))
  /\ lines_with entry_line (map (entry_back elements) (emitted props))
     = Return (map (attribute_text elements) (emitted props)).
Proof.
  intros Hreadable.
  rewrite (lines_with_emitted entry_line entry_line_false props).
  apply (emitted_incl _ props) in Hreadable.
  pose proof (emitted_Forall props) as Hemitted.
  split; apply lines_given.
  - induction (emitted props) as [| [key v] entries IH]; [constructor |].
    inversion Hreadable; inversion Hemitted; subst.
    constructor; [| now apply IH].
    cbn [fst snd] in *. repeat split; [assumption | now apply entry_line_text].
  - induction (emitted props) as [| [key v] entries IH]; [constructor |].
    inversion Hreadable; inversion Hemitted; subst.
    constructor; [| now apply IH].
    cbn [fst snd] in *. unfold entry_back. cbn [fst snd].
    destruct (entry_line_back key v) as (Hback & Hline); try assumption.
    repeat split; assumption.
Qed.
End Rereadable.

(** C8 (as amended): serializing, reading back and serializing again.
    Take a props object whose names can stand as JSX attribute names and
    whose values are [undefined], [null], booleans, numbers, strings
    without double quote and ampersand, arrays and objects of JSON data
    and, for [formatJSX], React elements.  The attribute list the
    serializer writes for it is read back as a props object for which the
    serializer writes the same attribute list. *)
Theorem serializer_reparse (props : object) :
  wf_object props ->
  Forall (fun entry => jsx_name (fst entry) = true) props ->
  (Forall (fun entry => rereadable true (snd entry) = true) props ->
   exists lines props',
     formatJSX_lines props = Return lines
     /\ reparse (String.concat newline lines) = Some props'
     /\ formatJSX_lines props' = Return lines)
  /\ (Forall (fun entry => rereadable false (snd entry) = true) props ->
      exists lines props',
        generateJSXCode_lines props = Return lines
        /\ reparse (String.concat newline lines) = Some props'
        /\ generateJSXCode_lines props' = Return lines).
Proof.
  intros Hwf Hnames. split; intros Hreadable.
  - exists (map (attribute_text true) (emitted props)),
           (map (entry_back true) (emitted props)).
    destruct (lines_text formatJSX_entry true (fun _ => eq_refl) formatJSX_entry_text
                formatJSX_entry_back props Hreadable) as (Hlines & Hagain).
    split; [exact Hlines | split; [now apply (reparse_back true) | exact Hagain]].
  - exists (map (attribute_text false) (emitted props)),
           (map (entry_back false) (emitted props)).
    destruct (lines_text generateJSXCode_entry false (fun _ => eq_refl)
                generateJSXCode_entry_text generateJSXCode_entry_back props Hreadable)
      as (Hlines & Hagain).
    split; [exact Hlines | split; [now apply (reparse_back false) | exact Hagain]].
Qed.


Lemma alert_currentProps_wf : wf_object alert_currentProps.
Proof. wf_object_by_test. Qed.

Lemma serializer_reparse_witness :
  wf_object preview_props
  /\ Forall (fun entry => jsx_name (fst entry) = true) preview_props
  /\ Forall (fun entry => rereadable false (snd entry) = true) preview_props
  /\ exists lines props',
       generateJSXCode_lines preview_props = Return lines
       /\ reparse (String.concat newline lines) = Some props'
       /\ generateJSXCode_lines props' = Return lines.
Proof.
  assert (Hwf : wf_object preview_props) by wf_object_by_test.
  assert (Hnames : Forall (fun entry => jsx_name (fst entry) = true) preview_props)
    by (repeat constructor).
  assert (Hreadable : Forall (fun entry => rereadable false (snd entry) = true)
                             preview_props)
    by (repeat constructor).
  split; [exact Hwf | split; [exact Hnames | split; [exact Hreadable |]]].
  exact (proj2 (serializer_reparse preview_props Hwf Hnames) Hreadable).
Defined.

(** What is read back from the code of [preview_props]: the function among
    the items has become [null] and the numbers are the ones written. *)
Example reparse_preview_props :
  (lines <- generateJSXCode_lines preview_props ;;
   Return (reparse (String.concat newline lines)))
  = Return (Some [("title", VString "Sample Alert");
                  ("opacity", VNumber (Finite "0.5"));
                  ("timeout", VNumber (Finite "1e+21"));
                  ("items", VArray [VNumber (Finite "-1"); VNull; VString "a b"]);
                  ("style", VObject [("1", VNull); ("color", VString "red")]);
                  ("closeButton", VBool true)]).
Proof. reflexivity. Qed.

(** C8 as stated fails: a function among the props is written
    [{undefined}], which is read back as [undefined] and left out when the
    props are serialized again; the [staticProps] of the accordion preview
    have one. *)
Lemma reparse_drops_function :
  ~ (forall props lines props' lines',
        formatJSX_lines props = Return lines ->
        reparse (String.concat newline lines) = Some props' ->
        formatJSX_lines props' = Return lines' ->
        without_spaces (String.concat newline lines')
        = without_spaces (String.concat newline lines)).
Proof.
  intros Hclaim.
  pose proof (Hclaim accordion_staticProps _ _ _ eq_refl eq_refl eq_refl) as Hsame.
  vm_compute in Hsame. discriminate.
Qed.

(** ** Paging through the combinations *)

Lemma visibleCombinations_firstn {A : Type} (l : list A) (size page : nat) :
  visibleCombinations l size page = firstn size (skipn (page * size) l).
Proof.
  unfold visibleCombinations, slice. f_equal. lia.
Qed.

Lemma firstn_plus {A : Type} (a b : nat) (l : list A) :
  firstn (a + b) l = (firstn a l ++ firstn b (skipn a l))%list.
Proof.
  revert l. induction a as [| a IH]; intros l; simpl; [reflexivity |].
  destruct l as [| x l]; simpl.
  - now rewrite firstn_nil.
  - now rewrite IH.
Qed.

(** The first [n] pages together are the first [n * size] items. *)
Lemma pages_firstn {A : Type} (l : list A) (size n : nat) :
  concat (map (visibleCombinations l size) (seq 0 n)) = firstn (n * size) l.
Proof.
  induction n as [| n IH]; [reflexivity |].
  rewrite seq_S, map_app, concat_app, IH. simpl.
  rewrite app_nil_r, visibleCombinations_firstn.
  rewrite <- firstn_plus. f_equal. lia.
Qed.

Lemma totalPages_enough (count size : nat) :
  0 < size -> count <= totalPages count size * size.
Proof.
  intros Hsize. unfold totalPages.
  pose proof (Nat.div_mod_eq count size) as Hdiv.
  pose proof (Nat.mod_upper_bound count size) as Hmod.
  destruct (Nat.eqb_spec (count mod size) 0) as [Hzero | Hpos]; nia.
Qed.

Lemma totalPages_tight (count size : nat) :
  0 < size -> forall page, page < totalPages count size <-> page * size < count.
Proof.
  intros Hsize page. unfold totalPages.
  pose proof (Nat.div_mod_eq count size) as Hdiv.
  pose proof (Nat.mod_upper_bound count size) as Hmod.
  destruct (Nat.eqb_spec (count mod size) 0) as [Hzero | Hpos]; split; intros H; nia.
Qed.

(** X1: for an [itemsPerPage] that is a positive integer, the slices
    [visibleCombinations] of the pages, from the first to the last, put one
    after the other, are all the combinations, each once and in the order
    of the enumeration. *)
Theorem pages_show_every_combination (options : propOptions) (itemsPerPage : nat) :
  0 < itemsPerPage ->
  concat (map (visibleCombinations (getAllCombinations options) itemsPerPage)
              (seq 0 (totalPages (length (getAllCombinations options)) itemsPerPage)))
  = getAllCombinations options.
Proof.
  intros Hsize.
  rewrite pages_firstn, firstn_all2; [reflexivity |].
  now apply totalPages_enough.
Qed.

Lemma pages_show_every_combination_witness :
  0 < 9
  /\ concat (map (visibleCombinations (getAllCombinations accordion_propOptions) 9)
                 (seq 0 (totalPages (length (getAllCombinations accordion_propOptions)) 9)))
     = getAllCombinations accordion_propOptions.
Proof.
  assert (H : 0 < 9) by lia.
  split; [exact H |].
  exact (pages_show_every_combination accordion_propOptions 9 H).
Defined.

Lemma visibleCombinations_length {A : Type} (l : list A) (size page : nat) :
  length (visibleCombinations l size page) = Nat.min size (length l - page * size).
Proof.
  now rewrite visibleCombinations_firstn, length_firstn, length_skipn.
Qed.

(** X2: the size of a page, for an [itemsPerPage] that is a positive
    integer.  The slice of a page holds [itemsPerPage] combinations or
    what is left of them from its start, whichever is less; so every page
    before the last is full, and a page has a combination exactly when it
    is one of the [totalPages] pages. *)
Theorem page_size (options : propOptions) (itemsPerPage page : nat) :
  let combinations := getAllCombinations options in
  let count := length combinations in
  0 < itemsPerPage ->
  length (visibleCombinations combinations itemsPerPage page)
  = Nat.min itemsPerPage (count - page * itemsPerPage)
  /\ (S page < totalPages count itemsPerPage ->
      length (visibleCombinations combinations itemsPerPage page) = itemsPerPage)
  /\ (page < totalPages count itemsPerPage
      <-> visibleCombinations combinations itemsPerPage page <> []).
Proof.
  intros combinations count Hsize.
  pose proof (visibleCombinations_length combinations itemsPerPage page) as Hlength.
  fold count in Hlength.
  split; [exact Hlength | split].
  - intros Hbefore. rewrite Hlength.
    apply (totalPages_tight count itemsPerPage Hsize) in Hbefore. simpl in Hbefore. lia.
  - rewrite (totalPages_tight count itemsPerPage Hsize).
    rewrite <- length_zero_iff_nil, Hlength. lia.
Qed.

Lemma page_size_witness :
  0 < 9
  /\ length (visibleCombinations (getAllCombinations accordion_propOptions) 9 2)
     = Nat.min 9 (24 - 2 * 9).
Proof.
  assert (H : 0 < 9) by lia.
  split; [exact H |].
  exact (proj1 (page_size accordion_propOptions 9 2 H)).
Defined.

(** ** The page buttons *)

Lemma click_in_range (pages page : Z) (b : button) :
  (0 <= page <= Z.max 0 (pages - 1))%Z ->
  (0 <= click pages page b <= Z.max 0 (pages - 1))%Z.
Proof.
  intros Hpage.
  destruct b; unfold click, previous_disabled, next_disabled, previous_page, next_page.
  - destruct (Z.eqb_spec page 0); lia.
  - destruct (Z.leb_spec pages (page + 1)); lia.
Qed.

Lemma clicks_in_range (pages page : Z) (clicks : list button) :
  (0 <= page <= Z.max 0 (pages - 1))%Z ->
  (0 <= fold_left (click pages) clicks page <= Z.max 0 (pages - 1))%Z.
Proof.
  revert page. induction clicks as [| b clicks IH]; intros page Hpage; simpl.
  - exact Hpage.
  - apply IH. now apply click_in_range.
Qed.

(** X3: for an [itemsPerPage] that is a positive integer, whatever series
    of clicks on the two buttons, the page stays between the first and the
    last one (and at 0 when there is no page at all). *)
Theorem page_stays_in_range (count itemsPerPage : nat) (clicks : list button) :
  0 < itemsPerPage ->
  let pages := Z.of_nat (totalPages count itemsPerPage) in
  (0 <= page_after pages clicks <= Z.max 0 (pages - 1))%Z.
Proof.
  intros _ pages. unfold page_after. apply clicks_in_range. lia.
Qed.

Lemma page_stays_in_range_witness :
  0 < 9
  /\ (0 <= page_after (Z.of_nat (totalPages 24 9)) [Next; Next; Next; Next; Previous]
       <= Z.max 0 (Z.of_nat (totalPages 24 9) - 1))%Z.
Proof.
  assert (H : 0 < 9) by lia.
  split; [exact H |].
  exact (page_stays_in_range 24 9 [Next; Next; Next; Next; Previous] H).
Defined.

Lemma next_clicks (pages : Z) (k : nat) :
  (Z.of_nat k < pages)%Z ->
  fold_left (click pages) (repeat Next k) 0%Z = Z.of_nat k.
Proof.
  induction k as [| k IH]; intros Hk; [reflexivity |].
  replace (repeat Next (S k)) with (repeat Next k ++ [Next])%list
    by (rewrite <- repeat_cons; reflexivity).
  rewrite fold_left_app, IH by lia. simpl.
  unfold next_disabled, next_page.
  destruct (Z.leb_spec pages (Z.of_nat k + 1)); lia.
Qed.

(** X4: every page can be reached and left again.  [k] clicks on "Next"
    from the start lead to page [k], for every [k] below the number of
    pages; and at a page that has a next one, "Next" followed by "Previous"
    leads back to it. *)
Theorem pages_reachable (pages : Z) :
  (forall k : nat, (Z.of_nat k < pages)%Z ->
                   page_after pages (repeat Next k) = Z.of_nat k)
  /\ (forall page, (0 <= page)%Z -> (page + 1 < pages)%Z ->
                   click pages (click pages page Next) Previous = page).
Proof.
  split.
  - intros k Hk. now apply next_clicks.
  - intros page Hpage Hnext.
    unfold click, previous_disabled, next_disabled, previous_page, next_page.
    destruct (Z.leb_spec pages (page + 1)); [lia |].
    destruct (Z.eqb_spec (Z.min (pages - 1) (page + 1)) 0); lia.
Qed.

Lemma pages_reachable_witness :
  page_after 3 (repeat Next 2) = 2%Z
  /\ click 3 (click 3 1 Next) Previous = 1%Z.
Proof.
  split.
  - apply (proj1 (pages_reachable 3%Z) 2). simpl. lia.
  - apply (proj2 (pages_reachable 3%Z) 1%Z); lia.
Defined.

(** ** The combination enumerator: exactly the full assignments, each once *)

Lemma assignment_drawn (options : propOptions) (t : list nat) :
  Forall2 (fun i entry => i < length (own_candidates entry)) t options ->
  Forall2 (fun assigned entry =>
             fst assigned = fst entry /\ In (snd assigned) (own_candidates entry))
          (assignment options t) options.
Proof.
  induction 1 as [| i entry t options Hi _ IH]; simpl; constructor.
  - split; [reflexivity | now apply nth_In].
  - exact IH.
Qed.

Lemma drawn_assignment (options : propOptions) (combo : object) :
  Forall2 (fun assigned entry =>
             fst assigned = fst entry /\ In (snd assigned) (own_candidates entry))
          combo options ->
  exists t,
    Forall2 (fun i entry => i < length (own_candidates entry)) t options
    /\ assignment options t = combo.
Proof.
  induction 1 as [| [key v] entry combo options (Hkey & Hv) _ (t & Ht & Hcombo)].
  - exists []. split; [constructor | reflexivity].
  - simpl in Hkey, Hv.
    destruct (In_nth _ _ VUndefined Hv) as (i & Hi & Hnth).
    exists (i :: t). split; [now constructor |].
    simpl. now rewrite Hnth, Hcombo, Hkey.
Qed.

(** X5: the enumerator returns exactly the full assignments.  An object is
    among the combinations if and only if it has the properties of the
    mapping, in the order in which [Object.keys] lists them, each with one
    of its candidates. *)
Theorem getAllCombinations_exactly (options : propOptions) (combo : object) :
  wf_object options -> options <> [] ->
  (In combo (getAllCombinations options)
   <-> Forall2 (fun assigned entry =>
                  fst assigned = fst entry /\ In (snd assigned) (own_candidates entry))
               combo options).
Proof.
  intros Hwf Hne. rewrite getAllCombinations_tuples by assumption. split.
  - intros Hin. apply in_map_iff in Hin as (t & <- & Ht).
    apply index_tuples_spec in Ht. now apply assignment_drawn.
  - intros Hdrawn. destruct (drawn_assignment options combo Hdrawn) as (t & Ht & <-).
    apply in_map. now apply index_tuples_spec.
Qed.

Lemma getAllCombinations_exactly_witness :
  wf_object accordion_propOptions
  /\ accordion_propOptions <> []
  /\ In accordion_combo (getAllCombinations accordion_propOptions).
Proof.
  split; [exact accordion_propOptions_wf | split; [discriminate |]].
  apply (getAllCombinations_exactly accordion_propOptions accordion_combo
           accordion_propOptions_wf).
  - discriminate.
  - unfold accordion_combo, accordion_propOptions.
    repeat (apply Forall2_cons; [split; [reflexivity | simpl; auto 6] |]).
    apply Forall2_nil.
Defined.

Lemma lex_lt_irrefl (t : list nat) : ~ lex_lt t t.
Proof.
  induction t as [| i t IH]; intros H; inversion H; subst; [lia | auto].
Qed.

Lemma index_tuples_NoDup (bounds : list nat) : NoDup (index_tuples bounds).
Proof.
  pose proof (index_tuples_sorted bounds) as Hsorted.
  induction Hsorted as [| t tuples _ IH Hall]; constructor; [| exact IH].
  intros Hin. rewrite Forall_forall in Hall.
  exact (lex_lt_irrefl t (Hall t Hin)).
Qed.

Lemma assignment_injective (options : propOptions) (t t' : list nat) :
  Forall (fun entry => NoDup (own_candidates entry)) options ->
  Forall2 (fun i entry => i < length (own_candidates entry)) t options ->
  Forall2 (fun i entry => i < length (own_candidates entry)) t' options ->
  assignment options t = assignment options t' -> t = t'.
Proof.
  intros Hnodup Ht. revert t'.
  induction Ht as [| i entry t options Hi _ IH]; intros t' Ht' Hsame;
    inversion Ht' as [| i' ? t'' ? Hi' Hrest]; subst; [reflexivity |].
  inversion Hnodup as [| ? ? Hentry Hoptions]; subst.
  simpl in Hsame. injection Hsame as Hvalue Htail.
  f_equal.
  - exact (proj1 (NoDup_nth (own_candidates entry) VUndefined) Hentry i i' Hi Hi' Hvalue).
  - now apply IH.
Qed.

Lemma NoDup_map_injective {A B : Type} (f : A -> B) (l : list A) :
  (forall x y, In x l -> In y l -> f x = f y -> x = y) ->
  NoDup l -> NoDup (map f l).
Proof.
  intros Hinj. induction 1 as [| x l Hnotin _ IH]; simpl; constructor.
  - intros Hin. apply in_map_iff in Hin as (y & Hy & Hin).
    apply Hnotin. rewrite (Hinj x y); auto using in_eq, in_cons.
  - apply IH. intros y z Hy Hz. apply Hinj; now right.
Qed.

(** X6: no combination comes twice, when no candidate list names a value
    twice. *)
Theorem getAllCombinations_distinct (options : propOptions) :
  wf_object options ->
  Forall (fun entry => NoDup (own_candidates entry)) options ->
  NoDup (getAllCombinations options).
Proof.
  intros Hwf Hnodup.
  destruct options as [| entry options]; [constructor |].
  rewrite getAllCombinations_tuples by (assumption || discriminate).
  apply NoDup_map_injective; [| apply index_tuples_NoDup].
  intros t t' Ht Ht'. apply index_tuples_spec in Ht, Ht'.
  now apply assignment_injective.
Qed.

Lemma getAllCombinations_distinct_witness :
  wf_object accordion_propOptions
  /\ Forall (fun entry => NoDup (own_candidates entry)) accordion_propOptions
  /\ NoDup (getAllCombinations accordion_propOptions).
Proof.
  assert (Hnodup : Forall (fun entry => NoDup (own_candidates entry)) accordion_propOptions).
  { unfold accordion_propOptions.
    repeat (apply Forall_cons; [simpl; repeat constructor; simpl; intuition discriminate |]).
    apply Forall_nil. }
  split; [exact accordion_propOptions_wf | split; [exact Hnodup |]].
  exact (getAllCombinations_distinct accordion_propOptions accordion_propOptions_wf Hnodup).
Defined.

(** ** The props of a combination: their order and their code *)

(** X7: the order of the merged props, when no name of [propOptions] is
    an array index.  For every combination, [combinedProps] has the
    properties of [staticProps], in their order, followed by the
    properties of [propOptions] that [staticProps] does not have, in
    their order; so the attributes come in the same order for all
    combinations. *)
Theorem combinedProps_order (staticProps : object) (options : propOptions) (combo : object) :
  wf_object staticProps -> wf_object options ->
  Forall (fun k => array_index k = None) (keys options) ->
  In combo (getAllCombinations options) ->
  keys (combinedProps staticProps combo)
  = (keys staticProps
     ++ filter (fun k => match lookup k staticProps with
                         | Some _ => false
                         | None => true
                         end)
               (keys options))%list.
Proof.
  intros Hstatic Hoptions Hnames Hcombo.
  destruct (combination_assigns options combo Hoptions Hcombo) as (Hkeys & _).
  unfold combinedProps.
  rewrite (spread_nil_wf staticProps) by assumption.
  rewrite keys_spread; rewrite Hkeys; [reflexivity | exact (proj1 Hoptions) | exact Hnames].
Qed.

Lemma combinedProps_order_witness :
  wf_object shared_staticProps
  /\ wf_object shared_propOptions
  /\ Forall (fun k => array_index k = None) (keys shared_propOptions)
  /\ In shared_combo (getAllCombinations shared_propOptions)
  /\ keys (combinedProps shared_staticProps shared_combo) = ["variant"; "title"].
Proof.
  assert (Hnames : Forall (fun k => array_index k = None) (keys shared_propOptions))
    by (repeat constructor).
  split; [exact shared_staticProps_wf | split; [exact shared_propOptions_wf |]].
  split; [exact Hnames | split; [exact shared_combo_In |]].
  exact (combinedProps_order shared_staticProps shared_propOptions shared_combo
           shared_staticProps_wf shared_propOptions_wf Hnames shared_combo_In).
Defined.

(** X8: the call [formatJSX(name, combinedProps)] returns for every
    combination, when [JSON.stringify] throws on no value of
    [staticProps] and on no candidate. *)
Theorem jsxCode_returns
    (name : string) (staticProps : object) (options : propOptions) (combo : object) :
  wf_object options ->
  Forall (fun entry => serializable (snd entry)) staticProps ->
  Forall (fun entry => Forall serializable (own_candidates entry)) options ->
  In combo (getAllCombinations options) ->
  exists out, jsxCode name staticProps combo = Return out.
Proof.
  intros Hoptions Hstatic Hcandidates Hcombo.
  assert (Hne : options <> []) by (intros ->; contradiction).
  rewrite getAllCombinations_tuples in Hcombo by assumption.
  apply in_map_iff in Hcombo as (t & <- & Ht).
  apply index_tuples_spec, assignment_drawn in Ht.
  destruct (serializers_return name (combinedProps staticProps (assignment options t)))
    as (lines & _ & _ & _ & Hout & _); [| unfold jsxCode; eauto].
  apply Forall_forall. intros entry Hentry.
  apply In_spread in Hentry as [Hentry | Hentry].
  - apply In_spread in Hentry as [[] | Hentry].
    rewrite Forall_forall in Hstatic. now apply Hstatic.
  - clear Hoptions Hne.
    induction Ht as [| assigned option_entry combo options (_ & Hdrawn) _ IH];
      [contradiction |].
    inversion Hcandidates as [| ? ? Hhere Hrest]; subst.
    destruct Hentry as [<- | Hentry]; [| now apply IH].
    rewrite Forall_forall in Hhere. now apply Hhere.
Qed.

Lemma jsxCode_returns_witness :
  wf_object shared_propOptions
  /\ In shared_combo (getAllCombinations shared_propOptions)
  /\ exists out, jsxCode "Alert" shared_staticProps shared_combo = Return out.
Proof.
  split; [exact shared_propOptions_wf | split; [exact shared_combo_In |]].
  apply (jsxCode_returns "Alert" shared_staticProps shared_propOptions shared_combo
           shared_propOptions_wf); [| | exact shared_combo_In];
    repeat constructor; eexists; reflexivity.
Defined.

(** ** The two serializers side by side *)

Lemma map_completion_ext_in {A B : Type} (f g : A -> completion B) (l : list A) :
  (forall x, In x l -> f x = g x) -> map_completion f l = map_completion g l.
Proof.
  induction l as [| x l IH]; simpl; intros H; [reflexivity |].
  rewrite H, IH by auto. reflexivity.
Qed.

(** X9: the two serializers write the same tag for props without a React
    element among their values (and throw alike). *)
Theorem serializers_agree (name : string) (props : object) :
  Forall (fun entry => is_react_element (snd entry) = false) props ->
  formatJSX name props = generateJSXCode name props.
Proof.
  intros Hplain. rewrite Forall_forall in Hplain.
  unfold formatJSX, generateJSXCode, formatJSX_lines, generateJSXCode_lines.
  rewrite (map_completion_ext_in formatJSX_entry generateJSXCode_entry); [reflexivity |].
  intros [key v] Hentry. apply filter_In in Hentry as (Hentry & _).
  specialize (Hplain _ Hentry). simpl in Hplain.
  destruct (typeof_cases v) as [(b & ->) | [(s & ->) | (Hb & Hs)]]; try reflexivity.
  rewrite formatJSX_entry_other, generateJSXCode_entry_other by assumption.
  now rewrite Hplain.
Qed.

Lemma serializers_agree_witness :
  Forall (fun entry => is_react_element (snd entry) = false) alert_currentProps
  /\ formatJSX "Alert" alert_currentProps = generateJSXCode "Alert" alert_currentProps.
Proof.
  assert (H : Forall (fun entry => is_react_element (snd entry) = false) alert_currentProps)
    by (repeat constructor).
  split; [exact H | exact (serializers_agree "Alert" alert_currentProps H)].
Defined.



(** X10: the entries that are not emitted leave no trace.  Either
    serializer returns (or throws) the same on a props object and on that
    object without its entries of value [""], [undefined] or [false]. *)
Theorem serializer_ignores_dropped (name : string) (props : object) :
  formatJSX name props = formatJSX name (emitted props)
  /\ generateJSXCode name props = generateJSXCode name (emitted props).
Proof.
  split.
  - unfold formatJSX.
    change (formatJSX_lines props) with (lines_with formatJSX_entry props).
    change (formatJSX_lines (emitted props))
      with (lines_with formatJSX_entry (emitted props)).
    now rewrite <- (lines_with_emitted formatJSX_entry (fun _ => eq_refl)).
  - unfold generateJSXCode.
    change (generateJSXCode_lines props) with (lines_with generateJSXCode_entry props).
    change (generateJSXCode_lines (emitted props))
      with (lines_with generateJSXCode_entry (emitted props)).
    now rewrite <- (lines_with_emitted generateJSXCode_entry (fun _ => eq_refl)).
Qed.

(** X11: the attributes of two lists of entries put one after the other
    are the attributes of the first followed by those of the second; the
    whole throws when one of the two does. *)
Theorem serializer_lines_app (a b : object) :
  formatJSX_lines (a ++ b)%list
  = (la <- formatJSX_lines a ;; lb <- formatJSX_lines b ;; Return (la ++ lb)%list)
  /\ generateJSXCode_lines (a ++ b)%list
     = (la <- generateJSXCode_lines a ;;
        lb <- generateJSXCode_lines b ;;
        Return (la ++ lb)%list).
Proof.
  split.
  - exact (lines_with_app formatJSX_entry (fun _ => eq_refl) a b).
  - exact (lines_with_app generateJSXCode_entry (fun _ => eq_refl) a b).
Qed.

(** ** The state of the playground: theorems *)

Lemma config_values_keys (f : ComponentPropConfig -> value) (config : propConfig) :
  configured config -> keys (config_values f config) = keys config.
Proof.
  induction 1 as [| [key [m |]] config Hm _ IH]; simpl; [reflexivity | | contradiction].
  now rewrite <- IH.
Qed.

Lemma initialState_from (config : propConfig) (acc : object) :
  NoDup (keys acc ++ keys config)%list ->
  own_property_order (keys acc ++ keys config)%list = true ->
  configured config -> ~ In "__proto__" (keys config) ->
  reduce_completion initialState_step config acc
  = Return (acc ++ config_values initial_value config)%list.
Proof.
  revert acc.
  induction config as [| [key [m |]] config IH];
    intros acc Hnodup Hordered Hconfigured Hproto; simpl.
  - now rewrite app_nil_r.
  - inversion Hconfigured; subst.
    unfold initialState_step at 1. simpl.
    destruct (String.eqb_spec key "__proto__") as [-> | Hne];
      [exfalso; apply Hproto; now left |].
    simpl.
    assert (Hfresh : lookup key acc = None).
    { apply lookup_None_iff. simpl in Hnodup. apply NoDup_remove_2 in Hnodup.
      intros Hin. apply Hnodup. apply in_or_app. now left. }
    rewrite set_last.
    + rewrite IH.
      * now rewrite <- app_assoc.
      * unfold keys in *. rewrite map_app, <- app_assoc. exact Hnodup.
      * unfold keys in *. rewrite map_app, <- app_assoc. exact Hordered.
      * assumption.
      * intros Hin. apply Hproto. now right.
    + exact Hfresh.
    + apply own_property_order_app in Hordered as (_ & _ & Hcross).
      apply forallb_forall. intros k Hk. apply Hcross; [exact Hk | now left].
  - inversion Hconfigured as [| ? ? Hm _]; subst. now contradiction Hm.
Qed.

(** The state that [reduce] builds. *)
Lemma initialState_value (config : propConfig) :
  wf_object config -> configured config -> ~ In "__proto__" (keys config) ->
  initialState config = Return (config_values initial_value config).
Proof.
  intros (Hnodup & Hordered) Hconfigured Hproto. unfold initialState.
  now rewrite initialState_from.
Qed.

(** X12: the initial state of the playground.  For a configuration whose
    entries are all there and none of which is named [__proto__], the state
    has the properties of the configuration, in its order, each with its
    default, or, when the default is absent or [null], with [false] for a
    boolean property and the empty string for any other. *)
Theorem initialState_defaults (config : propConfig) :
  wf_object config -> configured config -> ~ In "__proto__" (keys config) ->
  exists state,
    initialState config = Return state
    /\ keys state = keys config
    /\ forall key m, In (key, Some m) config ->
         lookup key state
         = Some (match prop_default m with
                 | VUndefined | VNull =>
                     match prop_type m with
                     | PBoolean => VBool false
                     | _ => VString ""
                     end
                 | given => given
                 end).
Proof.
  intros Hwf Hconfigured Hproto.
  exists (config_values initial_value config).
  assert (Hkeys : keys (config_values initial_value config) = keys config)
    by now apply config_values_keys.
  split; [now apply initialState_value | split; [exact Hkeys |]].
  intros key m Hin.
  apply lookup_In.
  - rewrite Hkeys. exact (proj1 Hwf).
  - unfold config_values. apply in_flat_map.
    exists (key, Some m). split; [exact Hin |]. simpl. left.
    unfold initial_value, nullish_or. now destruct (prop_default m).
Qed.

(** An entry named [__proto__] makes no property. *)
Example initialState_proto :
  initialState [("title", Some {| prop_type := PString; prop_default := VString "Test Alert";
                                  prop_options := None |});
                ("__proto__", Some {| prop_type := PString; prop_default := VString "x";
                                      prop_options := None |})]
  = Return [("title", VString "Test Alert")].
Proof. reflexivity. Qed.

Lemma reduce_throws (config : propConfig) (acc : object) :
  Exists (fun entry => snd entry = None) config ->
  reduce_completion initialState_step config acc = Throw TypeError.
Proof.
  intros Hmissing. revert acc.
  induction Hmissing as [[key m] config Hm | [key [m |]] config _ IH]; intros acc; simpl.
  - simpl in Hm. subst m. reflexivity.
  - unfold initialState_step at 1. simpl.
    destruct (key =? "__proto__"); simpl; apply IH.
  - reflexivity.
Qed.

Lemma reduce_returns (config : propConfig) (acc : object) :
  configured config -> exists state, reduce_completion initialState_step config acc = Return state.
Proof.
  intros Hconfigured. revert acc.
  induction Hconfigured as [| [key [m |]] config Hm _ IH]; intros acc; simpl.
  - eauto.
  - unfold initialState_step at 1. simpl.
    destruct (key =? "__proto__"); simpl; apply IH.
  - now contradiction Hm.
Qed.

(** X13: the one way the playground fails to start.  Building the initial
    state throws a [TypeError] exactly when some entry of the configuration
    holds [undefined]. *)
Theorem initialState_throws (config : propConfig) :
  initialState config = Throw TypeError
  <-> Exists (fun entry => snd entry = None) config.
Proof.
  split.
  - intros Hthrow.
    destruct (Exists_dec (fun entry : string * option ComponentPropConfig => snd entry = None)
                config) as [Hmissing | Hnone].
    + intros [key [m |]]; simpl; [right; discriminate | now left].
    + exact Hmissing.
    + exfalso.
      assert (Hconfigured : configured config).
      { apply Forall_forall. intros entry Hentry Hm.
        apply Hnone. apply Exists_exists. eauto. }
      destruct (reduce_returns config [] Hconfigured) as (state & Hstate).
      unfold initialState in Hthrow. congruence.
  - apply reduce_throws.
Qed.

Lemma initial_value_given (m : ComponentPropConfig) :
  initial_value m <> VUndefined /\ initial_value m <> VNull.
Proof.
  unfold initial_value, nullish_or.
  destruct (prop_default m), (prop_type m); split; discriminate.
Qed.

(** X14: every property of the initial state has a value: none is
    [undefined] or [null], whatever the configuration. *)
Theorem initialState_no_nullish (config : propConfig) (state : object) :
  initialState config = Return state ->
  Forall (fun entry => snd entry <> VUndefined /\ snd entry <> VNull) state.
Proof.
  unfold initialState.
  assert (Hfrom : forall acc,
             Forall (fun entry => snd entry <> VUndefined /\ snd entry <> VNull) acc ->
             reduce_completion initialState_step config acc = Return state ->
             Forall (fun entry => snd entry <> VUndefined /\ snd entry <> VNull) state).
  { induction config as [| [key [m |]] config IH]; intros acc Hacc; simpl.
    - now intros [= <-].
    - unfold initialState_step at 1. simpl.
      destruct (key =? "__proto__"); simpl; apply IH; [exact Hacc |].
      apply (set_values (fun v => v <> VUndefined /\ v <> VNull)); [exact Hacc |].
      apply initial_value_given.
    - discriminate. }
  apply Hfrom. constructor.
Qed.

Lemma alert_config_wf : wf_object alert_config.
Proof. wf_object_by_test. Qed.

Lemma alert_config_configured : configured alert_config.
Proof. unfold configured, alert_config. repeat constructor; discriminate. Qed.

Lemma alert_config_no_proto : ~ In "__proto__" (keys alert_config).
Proof. simpl. intuition discriminate. Qed.

Lemma initialState_defaults_witness :
  wf_object alert_config /\ configured alert_config
  /\ ~ In "__proto__" (keys alert_config)
  /\ exists state,
       initialState alert_config = Return state
       /\ keys state = keys alert_config
       /\ forall key m, In (key, Some m) alert_config ->
            lookup key state
            = Some (match prop_default m with
                    | VUndefined | VNull =>
                        match prop_type m with
                        | PBoolean => VBool false
                        | _ => VString ""
                        end
                    | given => given
                    end).
Proof.
  split; [exact alert_config_wf | split; [exact alert_config_configured |]].
  split; [exact alert_config_no_proto |].
  exact (initialState_defaults alert_config alert_config_wf alert_config_configured
           alert_config_no_proto).
Defined.

Lemma initialState_no_nullish_witness :
  initialState alert_config = Return alert_currentProps
  /\ Forall (fun entry => snd entry <> VUndefined /\ snd entry <> VNull) alert_currentProps.
Proof.
  split; [reflexivity |].
  apply (initialState_no_nullish alert_config alert_currentProps). reflexivity.
Defined.

Lemma initialState_configured (config : propConfig) (state : object) :
  initialState config = Return state -> configured config.
Proof.
  intros Hstate. apply Forall_forall. intros entry Hentry Hm.
  assert (Hthrow : initialState config = Throw TypeError).
  { apply reduce_throws. apply Exists_exists. eauto. }
  congruence.
Qed.

Lemma emitted_initial_value (config : propConfig) :
  emitted (config_values initial_value config)
  = emitted (config_values (fun m => nullish_or (prop_default m) VUndefined) config).
Proof.
  unfold emitted.
  induction config as [| [key [m |]] config IH]; simpl; [reflexivity | | exact IH].
  unfold initial_value at 1 2, nullish_or.
  destruct (prop_default m) as [| | b | n | s | | z | | elems | props | props];
    destruct (prop_type m); simpl; rewrite IH; reflexivity.
Qed.

(** X15: the code of a fresh playground, for a configuration without an
    entry named [__proto__], is the code of the defaults as they are
    given, a [null] default counting as none: a property without a
    default, which the state holds as [false] or the empty string, has no
    attribute. *)
Theorem initial_code_of_defaults (name : string) (config : propConfig) (state : object) :
  wf_object config -> ~ In "__proto__" (keys config) ->
  initialState config = Return state ->
  generateJSXCode name state
  = generateJSXCode name
      (config_values (fun m => nullish_or (prop_default m) VUndefined) config).
Proof.
  intros Hwf Hproto Hstate.
  pose proof (initialState_configured config state Hstate) as Hconfigured.
  rewrite initialState_value in Hstate by assumption.
  injection Hstate as <-.
  unfold generateJSXCode.
  change (generateJSXCode_lines (config_values initial_value config))
    with (lines_with generateJSXCode_entry (config_values initial_value config)).
  change (generateJSXCode_lines
            (config_values (fun m => nullish_or (prop_default m) VUndefined) config))
    with (lines_with generateJSXCode_entry
            (config_values (fun m => nullish_or (prop_default m) VUndefined) config)).
  rewrite (lines_with_emitted generateJSXCode_entry (fun _ => eq_refl)
             (config_values initial_value config)).
  rewrite (lines_with_emitted generateJSXCode_entry (fun _ => eq_refl)
             (config_values (fun m => nullish_or (prop_default m) VUndefined) config)).
  now rewrite emitted_initial_value.
Qed.

Lemma initial_code_of_defaults_witness :
  wf_object alert_config
  /\ ~ In "__proto__" (keys alert_config)
  /\ initialState alert_config = Return alert_currentProps
  /\ generateJSXCode "Alert" alert_currentProps
     = generateJSXCode "Alert"
         (config_values (fun m => nullish_or (prop_default m) VUndefined) alert_config).
Proof.
  split; [exact alert_config_wf | split; [exact alert_config_no_proto |]].
  split; [reflexivity |].
  exact (initial_code_of_defaults "Alert" alert_config alert_currentProps
           alert_config_wf alert_config_no_proto eq_refl).
Defined.

(** ** Editing a property in the playground *)

Lemma handleChange_set (prev : object) (key : string) (v : value) :
  wf_object prev -> handleChange prev key v = set prev key v.
Proof. intros Hwf. unfold handleChange. now rewrite spread_nil_wf. Qed.

(** X16: what an edit changes.  After [handleChange] the edited property
    holds the new value and every other property holds what it held; an
    existing property keeps its place, and a new one whose name is no
    array index goes last; the state keeps its keys distinct and in the
    order of [Object.keys]. *)
Theorem handleChange_lookup (prev : object) (key : string) (v : value) :
  wf_object prev ->
  lookup key (handleChange prev key v) = Some v
  /\ (forall other, other <> key ->
        lookup other (handleChange prev key v) = lookup other prev)
  /\ (In key (keys prev) -> keys (handleChange prev key v) = keys prev)
  /\ (~ In key (keys prev) -> array_index key = None ->
      keys (handleChange prev key v) = (keys prev ++ [key])%list)
  /\ wf_object (handleChange prev key v).
Proof.
  intros Hwf. rewrite handleChange_set by assumption.
  split; [apply lookup_set_same |].
  split; [intros other Hother; apply lookup_set_other; congruence |].
  split; [apply keys_set_present |].
  split; [| now apply keys_set_wf].
  intros Hfresh Hname. apply keys_set_name; [| exact Hname]. now apply lookup_None_iff.
Qed.

Lemma handleChange_lookup_witness :
  wf_object alert_currentProps
  /\ lookup "title" (handleChange alert_currentProps "title" (VString "Saved"))
     = Some (VString "Saved")
  /\ keys (handleChange alert_currentProps "title" (VString "Saved"))
     = keys alert_currentProps.
Proof.
  pose proof (handleChange_lookup alert_currentProps "title" (VString "Saved")
                alert_currentProps_wf)
    as (Hsame & _ & Hkeys & _).
  split; [exact alert_currentProps_wf | split; [exact Hsame |]].
  apply Hkeys. simpl. tauto.
Defined.

(** X17: how edits combine.  Of two edits of the same property the later
    one stands, as if the earlier had not been made; edits of two different
    properties of the state lead to the same state in either order. *)
Theorem handleChange_twice (prev : object) (key key' : string) (v v' : value) :
  wf_object prev ->
  handleChange (handleChange prev key v) key v' = handleChange prev key v'
  /\ (key <> key' -> In key (keys prev) -> In key' (keys prev) ->
      handleChange (handleChange prev key v) key' v'
      = handleChange (handleChange prev key' v') key v).
Proof.
  intros Hwf.
  assert (Hset : forall k x, wf_object (set prev k x)) by (intros; now apply keys_set_wf).
  split.
  - rewrite (handleChange_set prev key v), (handleChange_set prev key v') by assumption.
    rewrite handleChange_set by apply Hset. apply set_set_same.
  - intros Hne Hkey Hkey'.
    rewrite (handleChange_set prev key v), (handleChange_set prev key' v') by assumption.
    rewrite !handleChange_set by apply Hset. now apply set_set_other.
Qed.

Lemma handleChange_twice_witness :
  wf_object alert_currentProps
  /\ handleChange (handleChange alert_currentProps "title" (VString "Draft"))
                  "title" (VString "Saved")
     = handleChange alert_currentProps "title" (VString "Saved").
Proof.
  split; [exact alert_currentProps_wf |].
  exact (proj1 (handleChange_twice alert_currentProps "title" "title"
                  (VString "Draft") (VString "Saved") alert_currentProps_wf)).
Defined.

Lemma emitted_replace_dropped (props : object) (key : string) (v : value) :
  NoDup (keys props) -> is_emitted v = false ->
  emitted (replace props key v) = emitted (without_key key props).
Proof.
  unfold emitted.
  induction props as [| [k x] props IH]; simpl; intros Hnodup Hdropped; [reflexivity |].
  inversion Hnodup as [| ? ? Hnotin Hnodup']; subst.
  destruct (String.eqb_spec k key) as [-> | Hne]; simpl.
  - rewrite Hdropped. now rewrite without_key_fresh.
  - destruct (is_emitted x); [f_equal |]; now apply IH.
Qed.

Lemma emitted_insert_dropped (props : object) (key : string) (v : value) (n : N) :
  is_emitted v = false -> emitted (insert_index n key v props) = emitted props.
Proof.
  unfold emitted. intros Hdropped.
  induction props as [| [k x] props IH]; simpl; [now rewrite Hdropped |].
  destruct (array_index k) as [m |]; [destruct (m <=? n)%N |]; simpl;
    rewrite ?Hdropped, ?IH; reflexivity.
Qed.

Lemma emitted_set_dropped (props : object) (key : string) (v : value) :
  wf_object props -> is_emitted v = false ->
  emitted (set props key v) = emitted (without_key key props).
Proof.
  intros (Hnodup & _) Hdropped. unfold set.
  destruct (lookup key props) as [x |] eqn:Hkey.
  - now apply emitted_replace_dropped.
  - rewrite without_key_fresh by now apply lookup_None_iff.
    destruct (array_index key) as [n |].
    + now apply emitted_insert_dropped.
    + unfold emitted. rewrite filter_app. simpl. rewrite Hdropped. apply app_nil_r.
Qed.

(** X18: clearing a field takes its attribute out of the code and changes
    nothing else.  After an edit to the empty string, to [false] or to
    [undefined], [generateJSXCode] returns what it returns for the state
    without that property. *)
Theorem cleared_field_has_no_attribute
    (name : string) (currentProps : object) (key : string) (v : value) :
  wf_object currentProps ->
  v = VString "" \/ v = VBool false \/ v = VUndefined ->
  generateJSXCode name (handleChange currentProps key v)
  = generateJSXCode name (without_key key currentProps).
Proof.
  intros Hwf Hv.
  assert (Hdropped : is_emitted v = false) by (destruct Hv as [-> | [-> | ->]]; reflexivity).
  rewrite handleChange_set by assumption.
  unfold generateJSXCode.
  change (generateJSXCode_lines (set currentProps key v))
    with (lines_with generateJSXCode_entry (set currentProps key v)).
  change (generateJSXCode_lines (without_key key currentProps))
    with (lines_with generateJSXCode_entry (without_key key currentProps)).
  rewrite (lines_with_emitted generateJSXCode_entry (fun _ => eq_refl)
             (set currentProps key v)).
  rewrite (lines_with_emitted generateJSXCode_entry (fun _ => eq_refl)
             (without_key key currentProps)).
  now rewrite emitted_set_dropped.
Qed.

Lemma cleared_field_has_no_attribute_witness :
  wf_object alert_currentProps
  /\ generateJSXCode "Alert" (handleChange alert_currentProps "closeButton" (VBool false))
     = generateJSXCode "Alert" (without_key "closeButton" alert_currentProps).
Proof.
  split; [exact alert_currentProps_wf |].
  apply (cleared_field_has_no_attribute "Alert" alert_currentProps "closeButton"
           (VBool false) alert_currentProps_wf).
  right. left. reflexivity.
Defined.

(** ** The enumerator as a product *)

(** X19: one property more.  The combinations of a mapping with a further
    property declared in front are, for each candidate of that property in
    turn, the combinations of the rest with the candidate put first. *)
Theorem getAllCombinations_cons
    (entry : string * option (list value)) (rest : propOptions) :
  wf_object (entry :: rest) -> rest <> [] ->
  getAllCombinations (entry :: rest)
  = flat_map (fun v => map (cons (fst entry, v)) (getAllCombinations rest))
             (own_candidates entry).
Proof.
  intros Hwf Hne.
  assert (Hrest : wf_object rest) by (eapply wf_object_tail; exact Hwf).
  rewrite getAllCombinations_tuples by (assumption || discriminate).
  rewrite (getAllCombinations_tuples rest) by assumption.
  simpl. rewrite map_flat_map.
  rewrite <- (map_nth_seq (own_candidates entry) VUndefined) at 2.
  rewrite flat_map_map.
  apply flat_map_ext. intros i. now rewrite !map_map.
Qed.

Lemma getAllCombinations_cons_witness :
  wf_object accordion_propOptions
  /\ getAllCombinations accordion_propOptions
     = flat_map (fun v => map (cons ("variant", v))
                              (getAllCombinations (tl accordion_propOptions)))
                [VString "default"; VString "bordered"; VString "bottom-border"].
Proof.
  split; [exact accordion_propOptions_wf |].
  apply (getAllCombinations_cons
           ("variant", Some [VString "default"; VString "bordered"; VString "bottom-border"])
           (tl accordion_propOptions) accordion_propOptions_wf).
  discriminate.
Defined.
